(** * Seed package manager: the [install] command (lib/commands/install.js)

    A shallow embedding of the install core: the descriptor cache
    ([descriptorFor], [addDescriptor]), the resolver ([loadDescriptor],
    [findDescriptor]), the preparer ([prepare]), the install orchestrator
    ([install], [installDependencies]) and the command entry ([invoke]).

    JavaScript values are modelled as follows.
    - A value that the code only tests for truthiness and that is a string
      when present (an error, a path, a version option) is an
      [option string]; [None] stands for [undefined]/[null] and the empty
      string is falsy as well ([truthy]).
    - The object [this.descriptors] is a finite map from package ids to
      arrays of descriptors, its own properties, read through the
      properties that every object inherits from [Object.prototype].
    - A dependency object is the association list of its own properties,
      in the order in which [for ... in] enumerates them.
    - A thrown exception is [None] in the option monad.
    - A remote is named by its position in [this.remotes].

    Asynchronous calls are modelled in two ways.  Where the code awaits
    one operation before it goes on (resolution: [remote.list] under
    [CORE.iter.find], [require.packageFor] in [loadDescriptor]), the
    operation is a function that returns what it hands to its callback,
    and the function of the code returns its effects in program order.
    Where callbacks of several operations interleave (the prepare job and
    the install job attached to a descriptor), a descriptor object is a
    state machine whose inputs are the calls made on it and the callbacks
    of the operations it waits for, in any order. *)

From Stdlib Require Import ZArith String Ascii List Lia Bool.
From stdpp Require Import base option list gmap strings.

Open Scope nat_scope.

(** ** JavaScript values *)

(** Truthiness of a value that is either absent or a string. *)
Definition truthy (v : option string) : bool :=
  match v with
  | Some s => negb (String.eqb s "")
  | None => false
  end.

(** String conversion of a possibly absent string operand of [+]. *)
Definition js_str (v : option string) : string :=
  match v with
  | Some s => s
  | None => "undefined"
  end.

(** [idx < lim] where [lim] may be [undefined]: the comparison with
    [undefined] (NaN) is false. *)
Definition js_lt (idx : nat) (lim : option nat) : bool :=
  match lim with
  | Some n => idx <? n
  | None => false
  end.

(** [arr[idx] = x]: replaces in range, extends at the end.  An index past
    the end would leave holes, which a list does not represent. *)
Definition js_array_set {A} (arr : list A) (idx : nat) (x : A)
    : option (list A) :=
  if idx <? length arr then Some (<[idx:=x]> arr)
  else if idx =? length arr then Some (arr ++ [x])
  else None.

(** ** Data model *)

Inductive location := Local | Remote.

(** [location === 'remote']. *)
Definition is_remote (l : location) : bool :=
  match l with
  | Remote => true
  | Local => false
  end.

Definition dependency_map := list (string * string).

(** What a remote lists for one package version. *)
Record packageInfo := {
  pi_name : string;
  pi_version : string;
  pi_dependencies : option dependency_map
}.

(** A loaded package, as seen through [pkg.get] and [pkg.path]. *)
Record package := {
  pkg_name : string;
  pkg_version : string;
  pkg_dependencies : option dependency_map;
  pkg_path : option string
}.

(** The object literal built by [buildDescriptorFromPackage] and
    [buildDescriptorFromRemote].  It has no [length] and no [packageId]
    property. *)
Record descriptor := {
  desc_name : string;
  desc_version : string;
  desc_dependencies : dependency_map;
  desc_remote : option nat;
  desc_info : option packageInfo;
  desc_path : option string;
  desc_location : location
}.

(** [desc.length] and [desc.packageId]: reads of properties that the
    object literal does not have yield [undefined]. *)
Definition desc_length (desc : descriptor) : option nat := None.
Definition desc_packageId (desc : descriptor) : option string := None.

Definition set_path (desc : descriptor) (p : option string) : descriptor :=
  {| desc_name := desc_name desc; desc_version := desc_version desc;
     desc_dependencies := desc_dependencies desc;
     desc_remote := desc_remote desc; desc_info := desc_info desc;
     desc_path := p; desc_location := desc_location desc |}.

(** The options object sent to [remote.list]. *)
Record query := {
  q_name : string;
  q_version : option string;
  q_exact : string;
  q_dependencies : bool
}.

(** A remote, reduced to what the resolver awaits from it: the pair
    [(err, response)] its [list] operation hands to the callback. *)
Record remote := {
  r_list : query → option string * option (list packageInfo)
}.

(** [InstallContext]: the fields set by [init] that the code reads
    ([_jobs] and [_cache] are never used). *)
Record context := {
  source : nat;
  remotes : list remote;
  includeDependencies : option bool;
  descriptors : gmap string (list descriptor)
}.

Definition init (src : nat) (rs : list remote) (dependencies : option bool)
    : context :=
  {| source := src; remotes := rs; includeDependencies := dependencies;
     descriptors := ∅ |}.

Definition set_descriptors (ctx : context)
    (m : gmap string (list descriptor)) : context :=
  {| source := source ctx; remotes := remotes ctx;
     includeDependencies := includeDependencies ctx; descriptors := m |}.

Definition set_includeDependencies (ctx : context) (b : option bool)
    : context :=
  {| source := source ctx; remotes := remotes ctx;
     includeDependencies := b; descriptors := descriptors ctx |}.

(** *** Reading [this.descriptors]

    [this.descriptors] is a plain object ([{}], line 71).  Reading
    [this.descriptors[packageId]] yields the array filed under the id when
    there is one, else what every object inherits from [Object.prototype]
    under that name, else [undefined]. *)

(** The properties of [Object.prototype] (ECMAScript 5, with the legacy
    accessors of V8), each with the [length] of its value.  All but one
    are functions, whose [length] is their number of parameters;
    [__proto__] reads as the prototype object itself, which has no
    [length].  None of these values has elements or a [push] method, and
    all are truthy. *)
Definition object_prototype : list (string * option nat) :=
  [ ("constructor", Some 1); ("toString", Some 0);
    ("toLocaleString", Some 0); ("valueOf", Some 0);
    ("hasOwnProperty", Some 1); ("isPrototypeOf", Some 1);
    ("propertyIsEnumerable", Some 1); ("__defineGetter__", Some 2);
    ("__defineSetter__", Some 2); ("__lookupGetter__", Some 1);
    ("__lookupSetter__", Some 1); ("__proto__", None) ].

Fixpoint assoc {A} (k : string) (l : list (string * A)) : option A :=
  match l with
  | [] => None
  | (k', v) :: l' => if String.eqb k k' then Some v else assoc k l'
  end.

(** The [length] of the value inherited under the name [k], when [k] is
    a property of [Object.prototype]. *)
Definition inherited (k : string) : option (option nat) :=
  assoc k object_prototype.

(** What [this.descriptors[k]] reads. *)
Inductive slot :=
| Own (descs : list descriptor)
| Inherited (len : option nat)
| Absent.

Definition descriptors_get (ctx : context) (k : string) : slot :=
  match descriptors ctx !! k with
  | Some descs => Own descs
  | None =>
      match inherited k with
      | Some len => Inherited len
      | None => Absent
      end
  end.

(** What [descriptorFor] returns: [null], [undefined] or a descriptor. *)
Inductive lookup :=
| LNull
| LUndefined
| LFound (d : descriptor).

Definition found (r : lookup) : bool :=
  match r with
  | LFound _ => true
  | _ => false
  end.

(** *** Jobs and control flow *)

(** Modelled from the spec: [CORE.once] (private/core is not part of this
    file).  A job wraps an asynchronous operation so that it runs at most
    one time: the first call starts it, a call while it is pending
    attaches to the in-flight outcome, a call after completion receives
    the cached outcome without re-executing the operation. *)
Inductive job (C : Type) :=
| Fresh
| Pending (waiters : list C)
| Resolved (err : option string).
Arguments Fresh {C}.
Arguments Pending {C} waiters.
Arguments Resolved {C} err.

(** Modelled from the spec: [job(done)] on a job made by [CORE.once]: the
    new state of the job, whether the wrapped operation has to be
    started, and the callbacks invoked at once. *)
Definition once_call {C} (j : job C) (done : C)
    : job C * bool * list (C * option string) :=
  match j with
  | Fresh => (Pending [done], true, [])
  | Pending ws => (Pending (ws ++ [done]), false, [])
  | Resolved err => (Resolved err, false, [(done, err)])
  end.

(** Modelled from the spec: the operation wrapped by [CORE.once] reports
    [err]: the new state of the job and the callbacks invoked, each with
    that one outcome. *)
Definition once_resolve {C} (j : job C) (err : option string)
    : job C * list (C * option string) :=
  match j with
  | Fresh => (Resolved err, [])
  | Pending ws => (Resolved err, map (λ c, (c, err)) ws)
  | Resolved e => (Resolved e, [])
  end.

(** Modelled from the spec: [CORE.iter.chain] (private/core is not part
    of this file) executes its steps in order; a step that reports an
    error aborts the chain, which reports that error at once and skips
    the remaining steps. *)
Definition chain_aborts (err : option string) : bool := truthy err.

(** Modelled from the spec: [CORE.err] (private/core is not part of this
    file).  The outcome the wrapper is called with, success or failure,
    is forwarded to the wrapped callback. *)
Definition CORE_err (err : option string) : option string := err.

(** Modelled from the spec: [CORE.iter.parallel] (private/core is not
    part of this file) launches the worker for every item; here the
    launched calls are collected, the worker of item [i] being handed the
    callback named [i]. *)
Definition iter_parallel {A B} (worker : nat → A → B) (items : list A)
    : list B :=
  imap worker items.

(** The callbacks [prepare] is called with: [CORE.noop] (line 194), the
    continuation of the install job (lines 290-293), or one of a caller. *)
Inductive prepare_callback :=
| CbNoop
| CbInstallBody
| CbCaller (n : nat).

(** Where the body of an install job (lines 286-312) stands. *)
Inductive phase :=
| Idle
| Preparing
| InstallingDependencies
| Loading
| Installing
| Cleaning
| Settled.

(** A descriptor object with its two lazily attached job handles.
    [obj_packageId] is the [packageId] captured by the closure that
    created the install job; [obj_phase] is the position of that body. *)
Record object := {
  obj_desc : descriptor;
  prepareJob : option (job prepare_callback);
  installJob : option (job nat);
  obj_packageId : string;
  obj_phase : phase
}.

Definition new_object (desc : descriptor) : object :=
  {| obj_desc := desc; prepareJob := None; installJob := None;
     obj_packageId := ""; obj_phase := Idle |}.

Definition set_desc (o : object) (d : descriptor) : object :=
  {| obj_desc := d; prepareJob := prepareJob o; installJob := installJob o;
     obj_packageId := obj_packageId o; obj_phase := obj_phase o |}.

Definition set_prepareJob (o : object) (j : job prepare_callback) : object :=
  {| obj_desc := obj_desc o; prepareJob := Some j; installJob := installJob o;
     obj_packageId := obj_packageId o; obj_phase := obj_phase o |}.

Definition set_installJob (o : object) (j : job nat) : object :=
  {| obj_desc := obj_desc o; prepareJob := prepareJob o; installJob := Some j;
     obj_packageId := obj_packageId o; obj_phase := obj_phase o |}.

Definition set_packageId (o : object) (p : string) : object :=
  {| obj_desc := obj_desc o; prepareJob := prepareJob o;
     installJob := installJob o; obj_packageId := p; obj_phase := obj_phase o |}.

Definition set_phase (o : object) (ph : phase) : object :=
  {| obj_desc := obj_desc o; prepareJob := prepareJob o;
     installJob := installJob o; obj_packageId := obj_packageId o;
     obj_phase := ph |}.

(** Observable effects, in program order: [remote.list(opts, _)],
    [Cmds.verbose(msg)], [remote.fetch(info, _)], [require.packageFor(p)],
    the start of the body of an install job,
    [context.installDependencies(desc, _)], [context.source.install(pkg, _)],
    [remote.cleanup(p, _)], and the invocation with [err] of the callback
    named [n] that [prepare], respectively [install], was called with. *)
Inductive event :=
| EvList (r : nat) (opts : query)
| EvWarn (msg : string)
| EvFetch (r : nat) (pinfo : option packageInfo)
| EvLoadPackage (p : option string)
| EvJobStart
| EvInstallDependencies
| EvSourceInstall (pkg : package)
| EvCleanup (r : nat) (p : option string)
| EvPrepared (n : nat) (err : option string)
| EvDone (n : nat) (err : option string).

(** What reaches a descriptor object: calls of [prepare] and of the second
    step of [install], and the callbacks of the operations its jobs await.
    The callback given to [remote.fetch] is a closure of this file and is
    modelled whenever it is invoked, also once the prepare job is
    resolved.  The callbacks of the install chain are continuations of
    [CORE.iter.chain] and [CORE.once]: each is taken into account when the
    job waits for it, its collaborator invoking it at most once. *)
Inductive input :=
| CallPrepare (done : option nat)
| CallInstall (packageId : string) (done : nat)
| Fetched (err path : option string)
| DependenciesInstalled (err : option string)
| PackageLoaded (err : option string) (pkg : option package)
| SourceInstalled (err : option string)
| CleanedUp (err : option string).

(** ** Collaborators

    The [tiki] semver utility and the platform helpers used by the command
    live outside this file; they are taken as interfaces. *)
Class Semver := {
  semver_compare : string → string → Z;
  semver_compatible : string → string → bool;
  semver_normalize : string → string
}.

(** [CORE.path.normalize], [REMOTE.normalize], [require.packageFor] under
    [CORE.async] (which turns a thrown failure into a reported one: the
    pair [(err, pkg)] handed to the callback) and [CORE.inspect]. *)
Class Platform := {
  path_normalize : string → string;
  remote_normalize : string → string;
  packageFor : string → option string * option package;
  inspect : descriptor → string
}.

Section Install.

Context {sv : Semver} {pf : Platform}.

(** ** Descriptor cache *)

(** One iteration of the loop of [descriptorFor] (lines 90-97). *)
Definition descriptorFor_step (version : option string) (exact : bool)
    (ret : option descriptor) (cur : descriptor) : option descriptor :=
  if negb (truthy version)
     || (negb exact && semver_compatible (js_str version) (desc_version cur))
  then
    match ret with
    | None => Some cur
    | Some r =>
        if (semver_compare (desc_version r) (desc_version cur) <? 0)%Z
        then Some cur else ret
    end
  else if bool_decide (Some (desc_version cur) = version) then Some cur
  else ret.

(** [descriptorFor(packageId, version, exact)] (lines 85-101): [null]
    when [this.descriptors[packageId]] is [undefined], else the variable
    [ret] after the loop, which is [undefined] unless an iteration
    assigned it a descriptor.  [None] is a TypeError.

    When the id names a property of [Object.prototype] and no array is
    filed under it, [desc] is the inherited value: line 87 is passed, and
    the loop runs [desc.length] times on elements [desc[idx]] that are
    [undefined].  Without a version its first branch assigns [undefined]
    to [ret]; with a version either line 93 or line 97 reads
    [cur.version] of [undefined], which raises. *)
Definition descriptorFor (ctx : context) (packageId : string)
    (version : option string) (exact : bool) : option lookup :=
  match descriptors_get ctx packageId with
  | Absent => Some LNull
  | Own desc =>
      Some match foldl (descriptorFor_step version exact) None desc with
           | None => LUndefined
           | Some d => LFound d
           end
  | Inherited len =>
      if js_lt 0 len && truthy version then None else Some LUndefined
  end.

(** The search loop of [addDescriptor] (lines 113-115).  [fuel] is the
    value of [lim]: [idx] starts at 0 and grows by one, so the guard fails
    before the fuel runs out.  [None] is the exception raised by reading
    [.version] of an element past the end of the array. *)
Fixpoint addDescriptor_scan (fuel : nat) (descs : list descriptor)
    (v : string) (lim : option nat) (fnd : bool) (idx : nat)
    : option (bool * nat) :=
  if negb fnd && js_lt idx lim then
    match fuel with
    | O => None
    | S fuel' =>
        match descs !! idx with
        | None => None
        | Some cur =>
            addDescriptor_scan fuel' descs v lim
              (if String.eqb (desc_version cur) v then true else fnd) (S idx)
        end
    end
  else Some (fnd, idx).

(** [addDescriptor(desc, overlay)] (lines 107-122): the value returned
    and the context afterwards; [None] is a TypeError.  Line 112 takes
    [lim] from [desc], the descriptor, not from the array [descriptors].

    When the name of the descriptor is a property of [Object.prototype]
    and no array is filed under it, [descriptors] is the inherited value,
    which is truthy: line 111 assigns nothing, the loop does not run
    ([lim] is [undefined]), and [descriptors.push] on line 120 is not a
    function. *)
Definition addDescriptor (ctx : context) (desc : descriptor) (overlay : bool)
    : option (bool * context) :=
  let packageId := desc_name desc in
  match descriptors_get ctx packageId with
  | Inherited _ => None
  | _ =>
      let ctx1 :=
        match descriptors ctx !! packageId with
        | Some _ => ctx
        | None => set_descriptors ctx (<[packageId := []]> (descriptors ctx))
        end in
      let descs := default [] (descriptors ctx1 !! packageId) in
      let lim := desc_length desc in
      match addDescriptor_scan (default 0 lim) descs (desc_version desc)
              lim false 0 with
      | None => None
      | Some (fnd, idx) =>
          if fnd then
            if negb overlay then Some (false, ctx1)
            else
              match js_array_set descs idx desc with
              | None => None
              | Some descs' =>
                  Some (true, set_descriptors ctx1
                                (<[packageId := descs']> (descriptors ctx1)))
              end
          else
            Some (true,
                  set_descriptors ctx1
                    (<[packageId := descs ++ [desc]]> (descriptors ctx1)))
      end
  end.

(** ** Descriptors *)

(** [buildDescriptorFromPackage(pkg)] (lines 124-133). *)
Definition buildDescriptorFromPackage (pkg : package) : descriptor :=
  {| desc_name := pkg_name pkg;
     desc_version := semver_normalize (pkg_version pkg);
     desc_dependencies := default [] (pkg_dependencies pkg);
     desc_remote := None;
     desc_info := None;
     desc_path := pkg_path pkg;
     desc_location := Local |}.

(** [buildDescriptorFromRemote(remotePackageInfo, remote)] (lines
    138-148). *)
Definition buildDescriptorFromRemote (remotePackageInfo : packageInfo)
    (r : nat) : descriptor :=
  {| desc_name := pi_name remotePackageInfo;
     desc_version := semver_normalize (pi_version remotePackageInfo);
     desc_dependencies := default [] (pi_dependencies remotePackageInfo);
     desc_remote := Some r;
     desc_info := Some remotePackageInfo;
     desc_path := None;
     desc_location := Remote |}.

(** ** Preparing *)

(** The operation wrapped by the prepare job, up to the call of
    [remote.fetch] (lines 223-230). *)
Inductive prepare_step :=
| PrepareDone (err : option string)
| PrepareFetch (r : nat) (pinfo : option packageInfo).

Definition prepare_body (desc : descriptor) : prepare_step :=
  if truthy (desc_path desc) then PrepareDone None
  else
    match desc_remote desc with
    | None =>
        PrepareDone (Some ("internal error: missing remote " +:+ inspect desc))
    | Some r => PrepareFetch r (desc_info desc)
    end.

(** The callback given to [remote.fetch] (lines 230-237): the descriptor
    afterwards and the error handed to [done]. *)
Definition prepare_fetched (desc : descriptor) (err path : option string)
    : descriptor * option string :=
  let err :=
    if negb (truthy err) && negb (truthy path)
    then Some ("Could not fetch " +:+ js_str (desc_packageId desc)
               +:+ " (" +:+ desc_version desc +:+ ")")
    else err in
  if truthy err then (desc, err) else (set_path desc path, None).

(** ** The install job *)

(** The install job reports [err] (the [done] of line 286): its job
    resolves and every attached caller is called back. *)
Definition install_done (o : object) (err : option string)
    : object * list event :=
  let '(j, calls) := once_resolve (default Fresh (installJob o)) err in
  (set_phase (set_installJob o j) Settled,
   map (λ c, EvDone c.1 c.2) calls).

(** The callback given to [prepare] by the install job (lines 290-293). *)
Definition install_prepared (o : object) (err : option string)
    : object * list event :=
  if truthy err then install_done o err
  else (set_phase o InstallingDependencies, [EvInstallDependencies]).

(** Invocation of one callback of the prepare job. *)
Definition prepare_deliver (st : object * list event)
    (c : prepare_callback * option string) : object * list event :=
  match c.1 with
  | CbNoop => st
  | CbCaller n => (st.1, st.2 ++ [EvPrepared n c.2])
  | CbInstallBody =>
      let '(o, evs) := install_prepared st.1 c.2 in (o, st.2 ++ evs)
  end.

(** [prepare(desc, done)] (lines 216-242). *)
Definition prepare (o : object) (done : prepare_callback)
    : object * list event :=
  let '(j, run, calls) := once_call (default Fresh (prepareJob o)) done in
  let st := foldl prepare_deliver (set_prepareJob o j, []) calls in
  if run then
    match prepare_body (obj_desc st.1) with
    | PrepareDone err =>
        let '(j', calls') := once_resolve j err in
        foldl prepare_deliver (set_prepareJob st.1 j', st.2) calls'
    | PrepareFetch r pinfo => (st.1, st.2 ++ [EvFetch r pinfo])
    end
  else st.

(** The callback given to [remote.fetch] is invoked (lines 230-237).
    Nothing in it looks at the state of the job: invoked again once the
    job is resolved, it assigns [desc.path] as before, and its [done] finds
    the job resolved and calls nobody.  Before the operation of the
    prepare job has run no fetch was requested and there is no such
    callback. *)
Definition fetched (o : object) (err path : option string)
    : object * list event :=
  match prepareJob o with
  | None | Some Fresh => (o, [])
  | Some j =>
      let '(d, e) := prepare_fetched (obj_desc o) err path in
      let '(j', calls) := once_resolve j e in
      foldl prepare_deliver (set_prepareJob (set_desc o d) j', []) calls
  end.

(** The second step of [install] applied to a descriptor that was found
    (lines 284-315): [job(done)] on the lazily created install job, whose
    body starts with [context.prepare]. *)
Definition install_job (o : object) (packageId : string) (done : nat)
    : object * list event :=
  let o1 :=
    match installJob o with
    | Some _ => o
    | None => set_packageId (set_installJob o Fresh) packageId
    end in
  let '(j, run, calls) := once_call (default Fresh (installJob o1)) done in
  let o2 := set_installJob o1 j in
  let evs := map (λ c, EvDone c.1 c.2) calls in
  if run then
    let '(o3, evs') := prepare (set_phase o2 Preparing) CbInstallBody in
    (o3, evs ++ EvJobStart :: evs')
  else (o2, evs).

(** [installDependencies] calls back (line 292): the first step of the
    chain of line 289 is over, and its second step (lines 296-299) loads
    the package unless the chain aborts. *)
Definition dependenciesInstalled (o : object) (err : option string)
    : object * list event :=
  let err := CORE_err err in
  if chain_aborts err then install_done o err
  else (set_phase o Loading, [EvLoadPackage (desc_path (obj_desc o))]).

(** The callback of [loadPackage] (lines 301-304).  Both operands of the
    bitwise [&] are booleans, so the test holds exactly when both do. *)
Definition packageLoaded (o : object) (err : option string)
    (pkg : option package) : object * list event :=
  let err :=
    if negb (truthy err) && negb (bool_decide (is_Some pkg))
    then Some (obj_packageId o +:+ " is invalid") else err in
  if truthy err then install_done o err
  else
    match pkg with
    | Some p => (set_phase o Installing, [EvSourceInstall p])
    | None => (o, [])
    end.

(** The callback of [context.source.install] (lines 304-309). *)
Definition sourceInstalled (o : object) (err : option string)
    : object * list event :=
  if truthy err then install_done o err
  else
    match desc_remote (obj_desc o) with
    | Some r =>
        (set_phase o Cleaning, [EvCleanup r (desc_path (obj_desc o))])
    | None => install_done o None
    end.

(** [remote.cleanup] calls back (line 307): the chain is over. *)
Definition cleanedUp (o : object) (err : option string)
    : object * list event :=
  install_done o (CORE_err err).

(** One input on one descriptor object. *)
Definition object_step (o : object) (i : input) : object * list event :=
  match i with
  | CallPrepare None => prepare o CbNoop
  | CallPrepare (Some n) => prepare o (CbCaller n)
  | CallInstall packageId done => install_job o packageId done
  | Fetched err path => fetched o err path
  | DependenciesInstalled err =>
      match obj_phase o with
      | InstallingDependencies => dependenciesInstalled o err
      | _ => (o, [])
      end
  | PackageLoaded err pkg =>
      match obj_phase o with
      | Loading => packageLoaded o err pkg
      | _ => (o, [])
      end
  | SourceInstalled err =>
      match obj_phase o with
      | Installing => sourceInstalled o err
      | _ => (o, [])
      end
  | CleanedUp err =>
      match obj_phase o with
      | Cleaning => cleanedUp o err
      | _ => (o, [])
      end
  end.

(** A session: the descriptor objects of one [InstallContext], named by
    reference, and the effects so far, each tagged with the descriptor
    whose job produced it.  The inputs of a session arrive in any order:
    this is the single-threaded interleaving of the callbacks. *)
Definition session_step (st : gmap nat object * list (nat * event))
    (i : nat * input) : gmap nat object * list (nat * event) :=
  match st.1 !! i.1 with
  | None => st
  | Some o =>
      let '(o', evs) := object_step o i.2 in
      (<[i.1 := o']> st.1, st.2 ++ map (pair i.1) evs)
  end.

Definition session_run (heap : gmap nat object) (ins : list (nat * input))
    : gmap nat object * list (nat * event) :=
  foldl session_step (heap, []) ins.

(** ** Resolution *)

(** What a resolution step hands to its callback: [(err, desc)]. *)
Definition resolution : Type := option string * lookup.

(** [loadDescriptor(path, done)] (lines 153-168), given the method
    [add] that [context.addDescriptor] is dispatched to on line 165.
    [pkg.get] on an absent package throws. *)
Definition loadDescriptor_with
    (add : context → descriptor → bool → option (bool * context))
    (ctx : context) (path : string)
    : option (context * resolution * list event) :=
  let path := path_normalize path in
  let '(err, pkg) := packageFor path in
  let evs := [EvLoadPackage (Some path)] in
  if truthy err then Some (ctx, (err, LUndefined), evs)
  else
    match pkg with
    | None => None
    | Some pkg =>
        let ret := buildDescriptorFromPackage pkg in
        match add ctx ret true with
        | None => None
        | Some (_, ctx') => Some (ctx', (None, LFound ret), evs)
        end
    end.

(** [loadDescriptor] on an [InstallContext], whose [addDescriptor] is the
    one above. *)
Definition loadDescriptor (ctx : context) (path : string)
    : option (context * resolution * list event) :=
  loadDescriptor_with addDescriptor ctx path.

(** The items of an array with their positions, from [i] on. *)
Fixpoint indexed {A} (i : nat) (l : list A) : list (nat * A) :=
  match l with
  | [] => []
  | x :: l' => (i, x) :: indexed (S i) l'
  end.

(** Modelled from the spec: [CORE.iter.find] (private/core is not part of
    this file).  The items are visited sequentially, in order; the visit
    stops at the first item for which the worker reports true. *)
Fixpoint iter_find {A S} (fn : A → S → option (S * bool)) (items : list A)
    (s : S) : option S :=
  match items with
  | [] => Some s
  | x :: xs =>
      match fn x s with
      | None => None
      | Some (s', true) => Some s'
      | Some (s', false) => iter_find fn xs s'
      end
  end.

(** The body of [response.forEach] (lines 191-195).  The descriptor is
    fresh, so [prepare] runs the prepare job on it. *)
Definition findDescriptor_add (r : nat)
    (st : option (context * list event)) (pinfo : packageInfo)
    : option (context * list event) :=
  match st with
  | None => None
  | Some (ctx, evs) =>
      let desc := buildDescriptorFromRemote pinfo r in
      match addDescriptor ctx desc false with
      | None => None
      | Some (_, ctx') =>
          Some (ctx', evs ++ (prepare (new_object desc) CbNoop).2)
      end
  end.

(** The worker given to [CORE.iter.find] (lines 187-200); the state is
    the context, the variable [ret] and the effects so far. *)
Definition findDescriptor_visit (packageId : string)
    (version : option string) (exact : bool) (opts : query)
    (r : nat * remote) (st : context * lookup * list event)
    : option (context * lookup * list event * bool) :=
  let '(ctx, ret, evs) := st in
  let '(err, response) := r_list r.2 opts in
  let evs := evs ++ [EvList r.1 opts] in
  let evs := if truthy err then evs ++ [EvWarn ("Warning: " +:+ js_str err)]
             else evs in
  match response with
  | Some response =>
      if truthy err then Some (ctx, ret, evs, false)
      else
        match foldl (findDescriptor_add r.1) (Some (ctx, evs)) response with
        | None => None
        | Some (ctx', evs') =>
            match descriptorFor ctx' packageId version exact with
            | None => None
            | Some ret => Some (ctx', ret, evs', found ret)
            end
        end
  | None => Some (ctx, ret, evs, false)
  end.

(** [findDescriptor(packageId, version, exact, done)] (lines 173-206). *)
Definition findDescriptor (ctx : context) (packageId : string)
    (version : option string) (exact : bool)
    : option (context * resolution * list event) :=
  match descriptorFor ctx packageId version exact with
  | None => None
  | Some ret =>
      if found ret then Some (ctx, (None, ret), [])
      else
        let exact :=
          if negb (truthy version) || negb exact then false else exact in
        let opts :=
          {| q_name := packageId;
             q_version := version;
             q_exact := if exact then "true" else "false";
             q_dependencies := false |} in
        match iter_find (findDescriptor_visit packageId version exact opts)
                (indexed 0 (remotes ctx)) (ctx, ret, []) with
        | None => None
        | Some (ctx', ret, evs) => Some (ctx', (None, ret), evs)
        end
  end.

(** ** Install *)

(** [packageId.indexOf('/')]. *)
Fixpoint indexOf_slash (s : string) (i : Z) : Z :=
  match s with
  | EmptyString => (-1)%Z
  | String c s' => if Ascii.eqb c "/" then i else indexOf_slash s' (i + 1)%Z
  end.

(** The test of line 269. *)
Definition looksLikePath (packageId : string) : bool :=
  bool_decide (String.get 0 packageId = Some "."%char)
  || (0 <=? indexOf_slash packageId 0)%Z.

(** The fourth argument of [install]: a boolean, or the callback when the
    caller leaves [force] out. *)
Inductive argument :=
| ArgBool (b : bool)
| ArgFunction (n : nat)
| ArgUndefined.

(** Lines 260-263: the values of [force] and [done] afterwards. *)
Definition install_arguments (force : argument) (done : option nat)
    : argument * option nat :=
  match force with
  | ArgFunction f => (ArgBool false, Some f)
  | _ => (force, done)
  end.

(** The first step of the chain of [install] (lines 267-277). *)
Definition install_resolve (ctx : context) (packageId : string)
    (version : option string) (exact : bool)
    : option (context * resolution * list event) :=
  if looksLikePath packageId then loadDescriptor ctx packageId
  else findDescriptor ctx packageId version exact.

(** What [install] does once the descriptor is resolved (lines 281-317;
    the chain of line 267 skips its second step when the first reports an
    error). *)
Inductive install_next :=
| Abort (err : option string)
| NotFound (msg : string)
| Demand (desc : descriptor).

Definition install_continue (packageId : string) (res : resolution)
    : install_next :=
  if chain_aborts res.1 then Abort res.1
  else
    match res.2 with
    | LFound desc => Demand desc
    | _ => NotFound (packageId +:+ " not found")
    end.

(** [install(packageId, version, exact, force, done)] up to the call of
    the install job: the context afterwards, the effects of resolution,
    what happens next and the callback it happens for. *)
Definition install (ctx : context) (packageId : string)
    (version : option string) (exact : bool) (force : argument)
    (done : option nat)
    : option (context * list event * install_next * option nat) :=
  let '(_, done) := install_arguments force done in
  match install_resolve ctx packageId version exact with
  | None => None
  | Some (ctx', res, evs) =>
      Some (ctx', evs, install_continue packageId res, done)
  end.

(** One call of [context.install] as [installDependencies] and [invoke]
    issue it under [CORE.iter.parallel]. *)
Record install_call := {
  call_packageId : string;
  call_version : option string;
  call_exact : bool;
  call_force : argument;
  call_done : option nat
}.

(** [installDependencies(desc, done)] (lines 323-344): the context
    afterwards and either [None], when [done] is called at once, or the
    calls of [install] launched in parallel. *)
Definition installDependencies (ctx : context) (desc : descriptor)
    : context * option (list install_call) :=
  let includeDependencies_ := includeDependencies ctx in
  let ctx' :=
    match includeDependencies_ with
    | None =>
        set_includeDependencies ctx
          (Some (is_remote (desc_location desc)))
    | Some _ => ctx
    end in
  if negb (default false includeDependencies_) then (ctx', None)
  else
    (ctx',
     Some (iter_parallel
             (λ i dep, {| call_packageId := dep.1;
                          call_version := Some dep.2;
                          call_exact := false;
                          call_force := ArgBool false;
                          call_done := Some i |})
             (desc_dependencies desc))).

(** ** The command *)

(** What [collectState] gathers from the command line. *)
Record state := {
  st_dependencies : option bool;
  st_version : option string;
  st_remote : option string;
  st_packageIds : option (list string)
}.

(** Effects of [invoke]: the calls on the remote registry and the calls of
    the completion callback [done]. *)
Inductive invoke_event :=
| IvOpen (url : string)
| IvRemotes
| IvDone (err : option string).

(** Modelled from the spec: [Cmds.fail] (commands is not part of this
    file) reports its message as the single failure signal of the
    command, that is [done(msg)]. *)
Definition Cmds_fail (msg : string) : list invoke_event := [IvDone (Some msg)].

(** Lines 368-371: the first source that accepts installs. *)
Definition find_source (sources : list bool) : option nat :=
  fst <$> list_find (λ acceptsInstalls, acceptsInstalls = true) sources.

(** [invoke(cmd, args, opts, done)] (lines 352-411), up to its [return]:
    the effects, and the source when the chain of line 379 was started. *)
Definition invoke (st : state) (sources : list bool)
    : list invoke_event * option nat :=
  let packageIds := default [] (st_packageIds st) in
  if bool_decide (st_packageIds st = None) || (length packageIds =? 0) then
    (Cmds_fail "You must name at least one package", None)
  else if truthy (st_version st) && negb (length packageIds =? 1) then
    (Cmds_fail "--version switch can only be used with one package name",
     None)
  else
    match find_source sources with
    | None => (Cmds_fail "Cannot find install location", None)
    | Some src =>
        let started :=
          if truthy (st_remote st)
          then [IvOpen (remote_normalize (js_str (st_remote st)))]
          else [IvRemotes] in
        (started ++ [IvDone None], Some src)
    end.

(** The second step of the chain (lines 402-408): the new context and the
    installs launched in parallel, each called with four arguments. *)
Definition invoke_launch (st : state) (src : nat) (rs : list remote)
    : context * list install_call :=
  (init src rs (st_dependencies st),
   iter_parallel
     (λ i packageId, {| call_packageId := packageId;
                        call_version := st_version st;
                        call_exact := true;
                        call_force := ArgFunction i;
                        call_done := None |})
     (default [] (st_packageIds st))).

(** The callback of the chain (line 409). *)
Definition invoke_completed (err : option string) : list invoke_event :=
  [IvDone err].

(** ** Notions used to state the properties *)

(** The cache once the listing of one remote is merged into it, whether
    or not the scan goes on afterwards. *)
Definition merge_listing (opts : query) (r : nat * remote) (ctx : context)
    : option context :=
  let '(err, response) := r_list r.2 opts in
  match response with
  | Some response =>
      if truthy err then Some ctx
      else fst <$> foldl (findDescriptor_add r.1) (Some (ctx, [])) response
  | None => Some ctx
  end.

(** The cache once the listings of the remotes [rs] are merged, in order. *)
Definition cache_after (opts : query) (rs : list (nat * remote))
    (ctx : context) : option context :=
  foldl (λ acc r, acc ≫= merge_listing opts r) (Some ctx) rs.

(** The query [findDescriptor] builds (lines 178-184). *)
Definition findDescriptor_opts (packageId : string)
    (version : option string) (exact : bool) : query :=
  {| q_name := packageId;
     q_version := version;
     q_exact := if (if negb (truthy version) || negb exact then false
                    else exact)
                then "true" else "false";
     q_dependencies := false |}.

(** A cached descriptor that the loop of [descriptorFor] accepts. *)
Definition qualifies (version : option string) (exact : bool)
    (cur : descriptor) : bool :=
  negb (truthy version)
  || (negb exact && semver_compatible (js_str version) (desc_version cur))
  || bool_decide (Some (desc_version cur) = version).

End Install.

(** An array can be pushed under the name [k]: one is filed under it
    already, or the name is not a property of [Object.prototype]. *)
Definition pushable (ctx : context) (k : string) : bool :=
  match descriptors_get ctx k with
  | Inherited _ => false
  | _ => true
  end.

(** No package in the listings that the remotes [rs] answer [opts] with
    bears the name of a property of [Object.prototype]. *)
Definition listings_plain (opts : query) (rs : list remote) : Prop :=
  ∀ rem response p,
    rem ∈ rs → (r_list rem opts).2 = Some response → p ∈ response →
    inherited (pi_name p) = None.

(** The order that [SEMVER.compare] is trusted to implement: the sign of
    [compare a b] tells whether [a] is below, equal to or above [b]. *)
Class SemverOrder `{Semver} : Prop := {
  compare_refl : ∀ a, (0 <= semver_compare a a)%Z;
  compare_total : ∀ a b,
    (semver_compare a b < 0)%Z → (0 <= semver_compare b a)%Z;
  compare_trans : ∀ a b c,
    (0 <= semver_compare a b)%Z → (0 <= semver_compare b c)%Z →
    (0 <= semver_compare a c)%Z
}.

(** The remotes a list query was sent to, in order. *)
Definition list_queries (evs : list event) : list nat :=
  omap (λ e, match e with EvList r _ => Some r | _ => None end) evs.

(** An effect that reaches a remote. *)
Definition remote_event (e : event) : bool :=
  match e with
  | EvList _ _ | EvFetch _ _ | EvCleanup _ _ => true
  | _ => false
  end.

(** [packageId] begins with a dot; [packageId] contains a slash. *)
Definition begins_with_dot (packageId : string) : Prop :=
  ∃ rest, packageId = String "." rest.

Definition contains_slash (packageId : string) : Prop :=
  ∃ a b, packageId = a +:+ String "/" b.

(** [needle] occurs in [hay]. *)
Fixpoint contains (needle hay : string) : bool :=
  String.prefix needle hay
  || match hay with
     | EmptyString => false
     | String _ hay' => contains needle hay'
     end.

(** A message names a package: its id and its version occur in it. *)
Definition names_package (msg : string) (desc : descriptor) : bool :=
  contains (desc_name desc) msg && contains (desc_version desc) msg.

(** Counting the effects of the install job of one descriptor. *)
Definition is_jobStart (e : event) : bool :=
  match e with
  | EvJobStart => true
  | _ => false
  end.

Definition job_starts (evs : list event) : nat :=
  length (filter (λ e, is_jobStart e = true) evs).

Definition is_sourceInstall (e : event) : bool :=
  match e with
  | EvSourceInstall _ => true
  | _ => false
  end.

Definition source_installs (evs : list event) : nat :=
  length (filter (λ e, is_sourceInstall e = true) evs).

Definition dones (evs : list event) : list (nat * option string) :=
  omap (λ e, match e with EvDone n err => Some (n, err) | _ => None end) evs.

Definition completions (evs : list invoke_event) : list (option string) :=
  omap (λ e, match e with IvDone err => Some err | _ => None end) evs.

(** The effects of a session that belong to descriptor [d], and the
    callbacks [install] was demanded with on [d]. *)
Definition events_of (d : nat) (tr : list (nat * event)) : list event :=
  (filter (λ x, x.1 = d) tr).*2.

Definition demands_of (d : nat) (ins : list (nat * input)) : list nat :=
  omap (λ x, match x.2 with
             | CallInstall _ n => if decide (x.1 = d) then Some n else None
             | _ => None
             end) ins.

(** The install body waits on the prepare job at most once. *)
Definition is_installBody (c : prepare_callback) : bool :=
  match c with
  | CbInstallBody => true
  | _ => false
  end.

Definition body_waits (o : object) : nat :=
  match prepareJob o with
  | Some (Pending ws) => length (filter (λ c, is_installBody c = true) ws)
  | _ => 0
  end.

(** Effects that are none of those counted above. *)
Definition silent (evs : list event) : Prop :=
  job_starts evs = 0 ∧ source_installs evs = 0 ∧ dones evs = [].

(** The callback one input demands [install] with. *)
Definition demand_of (i : input) : list nat :=
  match i with
  | CallInstall _ n => [n]
  | _ => []
  end.

(** What holds of a descriptor object, the effects [evs] of its jobs and
    the callbacks [demands] that [install] was demanded with on it, at
    every point of a session: the install job exists once demanded, its
    body was started once, the destination was called when and only when
    the body is past loading, and callers are called back only on
    completion, all with the outcome of the job. *)
Definition job_inv (o : object) (evs : list event) (demands : list nat)
    : Prop :=
  match installJob o with
  | None =>
      obj_phase o = Idle ∧ body_waits o = 0 ∧ silent evs ∧ demands = []
  | Some Fresh => False
  | Some (Pending ws) =>
      ws = demands ∧ demands ≠ [] ∧ job_starts evs = 1 ∧ dones evs = [] ∧
      match obj_phase o with
      | Preparing => body_waits o = 1 ∧ source_installs evs = 0
      | InstallingDependencies | Loading =>
          body_waits o = 0 ∧ source_installs evs = 0
      | Installing | Cleaning => body_waits o = 0 ∧ source_installs evs = 1
      | Idle | Settled => False
      end
  | Some (Resolved err) =>
      obj_phase o = Settled ∧ body_waits o = 0 ∧ demands ≠ [] ∧
      job_starts evs = 1 ∧ source_installs evs ≤ 1 ∧
      dones evs = map (λ n, (n, err)) demands
  end.


(** ** A concrete instance of the collaborators

    Versions are ranked by reading their dotted numbers in base 1000;
    two versions are compatible when the candidate is not below the
    request and has the same leading number. *)
Definition digit_of (c : ascii) : option Z :=
  let n := Z.of_nat (nat_of_ascii c) in
  if (48 <=? n)%Z && (n <=? 57)%Z then Some (n - 48)%Z else None.

Fixpoint rank_from (s : string) (total cur : Z) : Z :=
  match s with
  | EmptyString => (total * 1000 + cur)%Z
  | String c s' =>
      match digit_of c with
      | Some d => rank_from s' total (cur * 10 + d)%Z
      | None => rank_from s' (total * 1000 + cur)%Z 0%Z
      end
  end.

Definition rank (s : string) : Z := rank_from s 0 0.

Definition demo_semver : Semver :=
  {| semver_compare := λ a b, (rank a - rank b)%Z;
     semver_compatible := λ v cur,
       (rank v <=? rank cur)%Z && (rank cur / 1000000 =? rank v / 1000000)%Z;
     semver_normalize := λ v, v |}.

Definition demo_package : package :=
  {| pkg_name := "foo"; pkg_version := "1.0.0";
     pkg_dependencies := Some [("bar", "1.0.0")];
     pkg_path := Some "foo" |}.

Definition demo_platform : Platform :=
  {| path_normalize := λ p, p;
     remote_normalize := λ u, u;
     packageFor := λ p, if String.eqb p "./foo" then (None, Some demo_package)
                        else (Some "no package", None);
     inspect := λ d, desc_name d |}.

Definition foo_1_0_0 : packageInfo :=
  {| pi_name := "foo"; pi_version := "1.0.0"; pi_dependencies := None |}.

Definition foo_1_2_0 : packageInfo :=
  {| pi_name := "foo"; pi_version := "1.2.0";
     pi_dependencies := Some [("bar", "1.0.0")] |}.

Definition bar_1_0_0 : packageInfo :=
  {| pi_name := "bar"; pi_version := "1.0.0"; pi_dependencies := None |}.

(** Three remotes: the first fails, the second offers [foo], the third
    offers [foo] and [bar]. *)
Definition demo_remotes : list remote :=
  [ {| r_list := λ _, (Some "unreachable", None) |};
    {| r_list := λ _, (None, Some [foo_1_0_0; foo_1_2_0]) |};
    {| r_list := λ _, (None, Some [foo_1_0_0; bar_1_0_0]) |} ].

Definition demo_context : context := init 0 demo_remotes None.

Definition demo_descriptor : descriptor :=
  @buildDescriptorFromRemote demo_semver foo_1_0_0 1.

(** A cache that holds [foo] in versions 1.0.0 and 1.2.0. *)
Definition demo_cache : context :=
  set_descriptors demo_context
    {[ "foo" := [demo_descriptor;
                 @buildDescriptorFromRemote demo_semver foo_1_2_0 1] ]}.

Definition demo_state : state :=
  {| st_dependencies := None; st_version := None; st_remote := None;
     st_packageIds := Some ["foo"] |}.

(** ** The command line *)

(** What the option parser does while [opts.parse(args)] runs (line 44):
    it invokes the handlers that [collectState] registered, in the order
    of the options on the command line.  The parser itself is outside
    this file. *)
Inductive option_fired :=
| OnVersion (value : option string)
| OnRemote (value : option string)
| OnDependencies
| OnNoDependencies.

(** The handlers registered on lines 38-43, applied to [ret]. *)
Definition collectState_on (ret : state) (f : option_fired) : state :=
  match f with
  | OnVersion value =>
      {| st_dependencies := st_dependencies ret; st_version := value;
         st_remote := st_remote ret; st_packageIds := st_packageIds ret |}
  | OnRemote value =>
      {| st_dependencies := st_dependencies ret; st_version := st_version ret;
         st_remote := value; st_packageIds := st_packageIds ret |}
  | OnDependencies =>
      {| st_dependencies := Some true; st_version := st_version ret;
         st_remote := st_remote ret; st_packageIds := st_packageIds ret |}
  | OnNoDependencies =>
      {| st_dependencies := Some false; st_version := st_version ret;
         st_remote := st_remote ret; st_packageIds := st_packageIds ret |}
  end.

(** [collectState(args, opts)] (lines 34-46): [ret] starts with
    [dependencies] undefined, the handlers run during the parse, and the
    parse returns the package ids. *)
Definition collectState (fired : list option_fired)
    (packageIds : option (list string)) : state :=
  let ret :=
    foldl collectState_on
      {| st_dependencies := None; st_version := None; st_remote := None;
         st_packageIds := None |} fired in
  {| st_dependencies := st_dependencies ret; st_version := st_version ret;
     st_remote := st_remote ret; st_packageIds := packageIds |}.

(** ** Further notions used to state properties *)

(** Every descriptor filed under an id bears that id as its name. *)
Definition well_keyed (ctx : context) : Prop :=
  ∀ k l d, descriptors ctx !! k = Some l → d ∈ l → desc_name d = k.

(** [ctx'] is [ctx] with descriptors added at the end of its arrays, and
    nothing else changed. *)
Definition cache_extends (ctx ctx' : context) : Prop :=
  source ctx' = source ctx ∧ remotes ctx' = remotes ctx ∧
  includeDependencies ctx' = includeDependencies ctx ∧
  ∀ k l, descriptors ctx !! k = Some l →
         ∃ l', descriptors ctx' !! k = Some (l ++ l').

(** The descriptors of an array that the first branch of the loop of
    [descriptorFor] lets compete for the highest version. *)
Definition competes `{Semver} (version : option string) (exact : bool)
    (cur : descriptor) : bool :=
  negb (truthy version)
  || (negb exact && semver_compatible (js_str version) (desc_version cur)).

(** [d], at position [i] of [l], is the first of the highest-versioned
    competing descriptors of [l]. *)
Definition first_highest `{Semver} (version : option string) (exact : bool)
    (l : list descriptor) (i : nat) (d : descriptor) : Prop :=
  l !! i = Some d ∧ competes version exact d = true ∧
  (∀ d', d' ∈ l → competes version exact d' = true →
         (0 <= semver_compare (desc_version d) (desc_version d'))%Z) ∧
  (∀ j d', j < i → l !! j = Some d' → competes version exact d' = true →
           (semver_compare (desc_version d') (desc_version d) < 0)%Z).

(** The fetches among some effects. *)
Definition is_fetch (e : event) : bool :=
  match e with
  | EvFetch _ _ => true
  | _ => false
  end.

Definition fetches (evs : list event) : nat :=
  length (filter (λ e, is_fetch e = true) evs).

(** The callbacks of callers of [prepare] invoked among some effects. *)
Definition prepareds (evs : list event) : list (nat * option string) :=
  omap (λ e, match e with EvPrepared n err => Some (n, err) | _ => None end)
    evs.

(** The callers among the callbacks attached to a prepare job, and the
    caller one input calls [prepare] for. *)
Definition callers (ws : list prepare_callback) : list nat :=
  omap (λ c, match c with CbCaller n => Some n | _ => None end) ws.

Definition prepare_demand_of (i : input) : list nat :=
  match i with
  | CallPrepare (Some n) => [n]
  | _ => []
  end.

Definition prepare_demands_of (d : nat) (ins : list (nat * input))
    : list nat :=
  omap (λ x, match x.2 with
             | CallPrepare (Some n) =>
                 if decide (x.1 = d) then Some n else None
             | _ => None
             end) ins.

(** The stages of an install job, and the stage an effect belongs to. *)
Inductive stage :=
| SStart
| SDependencies
| SLoad
| SInstall
| SCleanup.

Definition stage_of (e : event) : option stage :=
  match e with
  | EvJobStart => Some SStart
  | EvInstallDependencies => Some SDependencies
  | EvLoadPackage _ => Some SLoad
  | EvSourceInstall _ => Some SInstall
  | EvCleanup _ _ => Some SCleanup
  | _ => None
  end.

Definition stages (evs : list event) : list stage := omap stage_of evs.

Definition all_stages : list stage :=
  [SStart; SDependencies; SLoad; SInstall; SCleanup].

(** Every package load among some effects is from a non-empty path. *)
Definition loads_staged (evs : list event) : Prop :=
  ∀ p, EvLoadPackage p ∈ evs → truthy p = true.

(** Every fetch among some effects asks the remote of [desc] for the
    listing it was built from. *)
Definition fetches_own (desc : descriptor) (evs : list event) : Prop :=
  ∀ r pinfo, EvFetch r pinfo ∈ evs →
             desc_remote desc = Some r ∧ desc_info desc = pinfo.

(** An earlier and a later state of one descriptor: nothing but the path
    differs, and a descriptor that had a non-empty path still has one. *)
Definition same_package (d d' : descriptor) : Prop :=
  desc_name d' = desc_name d ∧ desc_version d' = desc_version d ∧
  desc_dependencies d' = desc_dependencies d ∧
  desc_remote d' = desc_remote d ∧ desc_info d' = desc_info d ∧
  desc_location d' = desc_location d ∧
  (truthy (desc_path d) = true → truthy (desc_path d') = true).

(** A descriptor object that neither [prepare] nor [install] was called
    on yet. *)
Definition fresh (o : object) : Prop :=
  prepareJob o = None ∧ installJob o = None ∧ obj_phase o = Idle.

(** What holds of the prepare job of a descriptor object, the effects
    [evs] of its jobs and the callers [demands] of [prepare] on it, at
    every point of a session. *)
Definition prepare_inv (o : object) (evs : list event) (demands : list nat)
    : Prop :=
  fetches_own (obj_desc o) evs ∧
  match prepareJob o with
  | None => fetches evs = 0 ∧ prepareds evs = [] ∧ demands = []
  | Some Fresh => False
  | Some (Pending ws) =>
      fetches evs = 1 ∧ prepareds evs = [] ∧ callers ws = demands ∧
      truthy (desc_path (obj_desc o)) = false
  | Some (Resolved err) =>
      fetches evs ≤ 1 ∧ prepareds evs = map (λ n, (n, err)) demands ∧
      (truthy err = false → truthy (desc_path (obj_desc o)) = true)
  end.

(** What holds of the install job of a descriptor object and the effects
    [evs] of its jobs at every point of a session: the stages reached so
    far, in order. *)
Definition stage_inv (o : object) (evs : list event) : Prop :=
  loads_staged evs ∧
  match obj_phase o with
  | Idle => stages evs = []
  | Preparing => stages evs = take 1 all_stages
  | InstallingDependencies =>
      stages evs = take 2 all_stages ∧
      ∃ err, prepareJob o = Some (Resolved err) ∧ truthy err = false
  | Loading =>
      stages evs = take 3 all_stages ∧
      ∃ err, prepareJob o = Some (Resolved err) ∧ truthy err = false
  | Installing =>
      stages evs = take 4 all_stages ∧
      ∃ err, prepareJob o = Some (Resolved err) ∧ truthy err = false
  | Cleaning =>
      stages evs = take 5 all_stages ∧ is_Some (desc_remote (obj_desc o)) ∧
      ∃ err, prepareJob o = Some (Resolved err) ∧ truthy err = false
  | Settled =>
      ∃ k, 1 ≤ k ∧ stages evs = take k all_stages ∧
           (5 ≤ k → is_Some (desc_remote (obj_desc o))) ∧
           ∀ err, installJob o = Some (Resolved err) → truthy err = false →
                  k = match desc_remote (obj_desc o) with
                      | Some _ => 5
                      | None => 4
                      end
  end.

(** What holds of a descriptor object at every point of a session:
    the three invariants above. *)
Definition lifecycle_inv (o : object) (evs : list event)
    (demands prepare_demands : list nat) : Prop :=
  job_inv o evs demands ∧ prepare_inv o evs prepare_demands ∧ stage_inv o evs.

(** The sequence of calls of [installDependencies] on the descriptors
    [descs], threading the context: the context afterwards and what each
    call launched. *)
Definition installDependencies_each (ctx : context) (descs : list descriptor)
    : context * list (option (list install_call)) :=
  foldl (λ st desc,
           let r := installDependencies st.1 desc in (r.1, st.2 ++ [r.2]))
    (ctx, []) descs.

(** The effects of asking one remote: the list query, then a warning when
    the remote reports an error, else a fetch for each package it lists,
    in the order of the listing. *)
Definition visit_events (opts : query) (r : nat * remote) : list event :=
  EvList r.1 opts ::
  (if truthy (r_list r.2 opts).1
   then [EvWarn ("Warning: " +:+ js_str (r_list r.2 opts).1)]
   else
     match (r_list r.2 opts).2 with
     | Some response => map (λ p, EvFetch r.1 (Some p)) response
     | None => []
     end).

(** The values the two dependency flags set, in the order they fire. *)
Definition dependency_flags (fired : list option_fired) : list bool :=
  omap (λ f, match f with
             | OnDependencies => Some true
             | OnNoDependencies => Some false
             | _ => None
             end) fired.

(** The values given to [--version] and to [--remote], in the order they
    fire. *)
Definition version_values (fired : list option_fired)
    : list (option string) :=
  omap (λ f, match f with OnVersion v => Some v | _ => None end) fired.

Definition remote_values (fired : list option_fired)
    : list (option string) :=
  omap (λ f, match f with OnRemote v => Some v | _ => None end) fired.

(** An effect that is the invocation of a callback of a caller. *)
Definition is_callback (e : event) : bool :=
  match e with
  | EvPrepared _ _ | EvDone _ _ => true
  | _ => false
  end.

(** A step of the install job past preparation touches neither the
    prepare job nor the descriptor, and fetches nothing. *)
Definition install_side (o : object) (r : object * list event) : Prop :=
  prepareJob r.1 = prepareJob o ∧ obj_desc r.1 = obj_desc o
  ∧ fetches r.2 = 0 ∧ prepareds r.2 = [] ∧ ∀ desc, fetches_own desc r.2.

(** * Properties *)

Section CacheProperties.

Context {sv : Semver}.

(** The object literals carry no [length], so the search loop of
    [addDescriptor] never runs its body. *)
Lemma addDescriptor_scan_skips fuel descs v idx :
  addDescriptor_scan fuel descs v None false idx = Some (false, idx).
Proof. by destruct fuel. Qed.

(** *** Reading the cache *)

Lemma descriptors_get_own ctx k l :
  descriptors ctx !! k = Some l → descriptors_get ctx k = Own l.
Proof. intros Hl. unfold descriptors_get. by rewrite Hl. Qed.

Lemma descriptors_get_inherited ctx k len :
  descriptors_get ctx k = Inherited len ↔
  descriptors ctx !! k = None ∧ inherited k = Some len.
Proof.
  unfold descriptors_get. destruct (descriptors ctx !! k) as [l|].
  - split; [done|]. by intros [? _].
  - destruct (inherited k) as [len'|].
    + split; [by intros [= ->]|by intros [_ [= ->]]].
    + split; [done|]. by intros [_ ?].
Qed.

Lemma pushable_own ctx k l :
  descriptors ctx !! k = Some l → pushable ctx k = true.
Proof. intros Hl. unfold pushable. by rewrite (descriptors_get_own _ _ l). Qed.

Lemma pushable_plain ctx k : inherited k = None → pushable ctx k = true.
Proof.
  intros Hk. unfold pushable, descriptors_get. rewrite Hk.
  by destruct (descriptors ctx !! k).
Qed.

Lemma pushable_false ctx k :
  pushable ctx k = false ↔
  descriptors ctx !! k = None ∧ is_Some (inherited k).
Proof.
  unfold pushable, descriptors_get. destruct (descriptors ctx !! k) as [l|].
  - split; [done|]. by intros [? _].
  - destruct (inherited k) as [len|].
    + split; [by eauto|done].
    + split; [done|]. by intros [_ [? ?]].
Qed.

(** [descriptorFor] by what is filed under the id. *)
Lemma descriptorFor_own ctx packageId version exact l :
  descriptors ctx !! packageId = Some l →
  descriptorFor ctx packageId version exact =
    Some match foldl (descriptorFor_step version exact) None l with
         | None => LUndefined
         | Some d => LFound d
         end.
Proof.
  intros Hl. unfold descriptorFor. by rewrite (descriptors_get_own _ _ l).
Qed.

Lemma descriptorFor_unfiled ctx packageId version exact :
  descriptors ctx !! packageId = None →
  descriptorFor ctx packageId version exact =
    match inherited packageId with
    | None => Some LNull
    | Some len =>
        if js_lt 0 len && truthy version then None else Some LUndefined
    end.
Proof.
  intros Hl. unfold descriptorFor, descriptors_get. rewrite Hl.
  by destruct (inherited packageId).
Qed.

(** A descriptor is only ever found in an array filed under the id. *)
Lemma descriptorFor_LFound ctx packageId version exact d :
  descriptorFor ctx packageId version exact = Some (LFound d) →
  ∃ l, descriptors ctx !! packageId = Some l
       ∧ foldl (descriptorFor_step version exact) None l = Some d.
Proof.
  destruct (descriptors ctx !! packageId) as [l|] eqn:Hl.
  - rewrite (descriptorFor_own _ _ _ _ l Hl). intros Hd. exists l.
    split; [done|].
    destruct (foldl (descriptorFor_step version exact) None l);
      [by injection Hd as ->|done].
  - rewrite descriptorFor_unfiled by done.
    destruct (inherited packageId) as [len|]; [|done].
    by destruct (js_lt 0 len && truthy version).
Qed.

(** [descriptorFor] raises exactly for an id that reads an inherited
    function with parameters, when a version is given. *)
Lemma descriptorFor_raises ctx packageId version exact :
  descriptorFor ctx packageId version exact = None ↔
  descriptors ctx !! packageId = None ∧ truthy version = true
  ∧ ∃ n, inherited packageId = Some (Some (S n)).
Proof.
  destruct (descriptors ctx !! packageId) as [l|] eqn:Hl.
  - rewrite (descriptorFor_own _ _ _ _ l Hl). split; [done|]. by intros [? _].
  - rewrite descriptorFor_unfiled by done.
    destruct (inherited packageId) as [[[|n]|]|]; simpl;
      try (split; [done|]; by intros (_ & _ & ? & ?)).
    destruct (truthy version).
    + split; [|done]. intros _. split; [done|]. split; [done|]. by exists n.
    + split; [done|]. by intros (_ & ? & _).
Qed.

(** *** Insertion *)

(** Unless the name reads an inherited property, [addDescriptor] appends
    and answers [true], whatever the cache holds and whatever [overlay]
    is. *)
Lemma addDescriptor_appends ctx desc overlay :
  pushable ctx (desc_name desc) = true →
  addDescriptor ctx desc overlay =
    Some (true,
          set_descriptors ctx
            (<[desc_name desc :=
                 default [] (descriptors ctx !! desc_name desc) ++ [desc]]>
               (descriptors ctx))).
Proof.
  intros Hpush. unfold addDescriptor, desc_length.
  rewrite addDescriptor_scan_skips. unfold pushable in Hpush.
  destruct (descriptors_get ctx (desc_name desc)) eqn:Hget; [|done|].
  - destruct (descriptors ctx !! desc_name desc) as [l|] eqn:Hl.
    + by rewrite Hl.
    + simpl. rewrite lookup_insert_eq. simpl.
      unfold set_descriptors. simpl. by rewrite insert_insert_eq.
  - destruct (descriptors ctx !! desc_name desc) as [l|] eqn:Hl.
    + by rewrite Hl.
    + simpl. rewrite lookup_insert_eq. simpl.
      unfold set_descriptors. simpl. by rewrite insert_insert_eq.
Qed.

(** Under a name that reads an inherited property, [addDescriptor]
    raises. *)
Lemma addDescriptor_raises ctx desc overlay :
  pushable ctx (desc_name desc) = false →
  addDescriptor ctx desc overlay = None.
Proof.
  intros Hpush. unfold addDescriptor, pushable in *.
  by destruct (descriptors_get ctx (desc_name desc)).
Qed.

Lemma addDescriptor_Some ctx desc overlay b ctx' :
  addDescriptor ctx desc overlay = Some (b, ctx') →
  pushable ctx (desc_name desc) = true ∧ b = true
  ∧ ctx' = set_descriptors ctx
             (<[desc_name desc :=
                  default [] (descriptors ctx !! desc_name desc) ++ [desc]]>
                (descriptors ctx)).
Proof.
  destruct (pushable ctx (desc_name desc)) eqn:Hpush.
  - rewrite addDescriptor_appends by done. by intros [= <- <-].
  - by rewrite addDescriptor_raises.
Qed.

(** An insertion makes no lookup raise that did not raise before. *)
Lemma descriptorFor_after_add ctx desc overlay b ctx' packageId version exact :
  addDescriptor ctx desc overlay = Some (b, ctx') →
  is_Some (descriptorFor ctx packageId version exact) →
  is_Some (descriptorFor ctx' packageId version exact).
Proof.
  intros Hadd Hsome. apply addDescriptor_Some in Hadd as (_ & _ & ->).
  destruct (decide (packageId = desc_name desc)) as [->|Hne].
  - erewrite descriptorFor_own; [done|]. simpl. apply lookup_insert_eq.
  - destruct (descriptors ctx !! packageId) as [l|] eqn:Hl.
    + erewrite descriptorFor_own; [done|]. simpl.
      rewrite lookup_insert_ne by done. exact Hl.
    + rewrite descriptorFor_unfiled in Hsome by done.
      rewrite descriptorFor_unfiled; [done|]. simpl.
      by rewrite lookup_insert_ne.
Qed.

(** C2 (evaluation at the failing input): inserting, with overlay=false,
    a descriptor whose name and version are already cached answers [true]
    and leaves two descriptors with that name and version in the cache. *)
Theorem addDescriptor_duplicates :
  ∃ ctx',
    addDescriptor (set_descriptors demo_context {[ "foo" := [demo_descriptor] ]})
      demo_descriptor false = Some (true, ctx')
    ∧ descriptors ctx' !! "foo" = Some [demo_descriptor; demo_descriptor].
Proof.
  eexists. split.
  - by apply addDescriptor_appends.
  - simpl. rewrite lookup_insert_eq. by rewrite lookup_singleton_eq.
Qed.

(** *** Selection *)

Lemma descriptorFor_step_unqualified version exact ret cur :
  qualifies version exact cur = false →
  descriptorFor_step version exact ret cur = ret.
Proof.
  unfold qualifies, descriptorFor_step. intros H.
  apply orb_false_iff in H as [H1 H2]. rewrite H1.
  by rewrite H2.
Qed.

Lemma descriptorFor_step_keeps version exact r cur :
  is_Some (descriptorFor_step version exact (Some r) cur).
Proof.
  unfold descriptorFor_step.
  repeat (case_match; eauto).
Qed.

Lemma descriptorFor_step_qualified version exact ret cur :
  qualifies version exact cur = true →
  is_Some (descriptorFor_step version exact ret cur).
Proof.
  unfold qualifies, descriptorFor_step. intros H.
  destruct (negb (truthy version)
            || negb exact && semver_compatible (js_str version) (desc_version cur)).
  - destruct ret; [|eauto]. case_match; eauto.
  - simpl in H. rewrite H. eauto.
Qed.

Lemma descriptorFor_fold_keeps version exact r l :
  is_Some (foldl (descriptorFor_step version exact) (Some r) l).
Proof.
  revert r. induction l as [|cur l IH]; intros r; simpl; [eauto|].
  destruct (descriptorFor_step_keeps version exact r cur) as [r' ->].
  apply IH.
Qed.

Lemma descriptorFor_fold_none version exact l :
  (∀ cur, cur ∈ l → qualifies version exact cur = false) →
  foldl (descriptorFor_step version exact) None l = None.
Proof.
  induction l as [|cur l IH]; intros H; simpl; [done|].
  rewrite descriptorFor_step_unqualified.
  - apply IH. intros c Hc. apply H. by right.
  - apply H. by left.
Qed.

Lemma descriptorFor_fold_some version exact acc l cur :
  cur ∈ l → qualifies version exact cur = true →
  is_Some (foldl (descriptorFor_step version exact) acc l).
Proof.
  revert acc. induction l as [|c l IH]; intros acc Hin Hq.
  - by apply elem_of_nil in Hin.
  - simpl. apply elem_of_cons in Hin as [->|Hin].
    + destruct (descriptorFor_step_qualified version exact acc c Hq) as [r ->].
      apply descriptorFor_fold_keeps.
    + by apply IH.
Qed.

(** Without a constraint the loop keeps a descriptor that no descriptor
    seen so far exceeds. *)
Lemma descriptorFor_fold_highest `{!SemverOrder} version exact l :
  truthy version = false →
  ∀ seen acc,
    match acc with
    | None => seen = []
    | Some r =>
        r ∈ seen ∧
        ∀ d, d ∈ seen →
          (0 <= semver_compare (desc_version r) (desc_version d))%Z
    end →
    match foldl (descriptorFor_step version exact) acc l with
    | None => seen ++ l = []
    | Some r =>
        r ∈ seen ++ l ∧
        ∀ d, d ∈ seen ++ l →
          (0 <= semver_compare (desc_version r) (desc_version d))%Z
    end.
Proof.
  intros Hv. induction l as [|cur l IH]; intros seen acc Hacc; simpl.
  { rewrite app_nil_r. done. }
  replace (seen ++ cur :: l) with ((seen ++ [cur]) ++ l)
    by (by rewrite <- app_assoc).
  apply IH. unfold descriptorFor_step. rewrite Hv. simpl.
  destruct acc as [r|].
  - destruct Hacc as [Hr Hmax].
    destruct (semver_compare (desc_version r) (desc_version cur) <? 0)%Z eqn:Hlt.
    + apply Z.ltb_lt in Hlt. split; [set_solver|].
      intros d Hd. apply elem_of_app in Hd as [Hd|Hd].
      * eapply compare_trans; [by apply compare_total|by apply Hmax].
      * apply list_elem_of_singleton in Hd as ->. apply compare_refl.
    + apply Z.ltb_ge in Hlt. split; [set_solver|].
      intros d Hd. apply elem_of_app in Hd as [Hd|Hd]; [by apply Hmax|].
      by apply list_elem_of_singleton in Hd as ->.
  - subst seen. split; [set_solver|].
    intros d Hd. simpl in Hd. apply list_elem_of_singleton in Hd as ->.
    apply compare_refl.
Qed.

(** With a constraint and exact=true the loop keeps a descriptor only
    when its version is the constraint. *)
Lemma descriptorFor_fold_exact v l :
  v ≠ "" →
  ∀ acc d,
    (∀ r, acc = Some r → desc_version r = v) →
    foldl (descriptorFor_step (Some v) true) acc l = Some d →
    desc_version d = v ∧ (d ∈ l ∨ acc = Some d).
Proof.
  intros Hv. induction l as [|cur l IHl]; intros acc d Hacc; simpl.
  { intros ->. split; [by apply Hacc|by right]. }
  assert (Hstep : descriptorFor_step (Some v) true acc cur =
                  if bool_decide (Some (desc_version cur) = Some v)
                  then Some cur else acc).
  { unfold descriptorFor_step. simpl.
    destruct (String.eqb v "") eqn:E; [by apply String.eqb_eq in E|done]. }
  rewrite Hstep. case_bool_decide as Hc; intros Hd.
  - injection Hc as Hc.
    assert (Hcur : ∀ r, Some cur = Some r → desc_version r = v)
      by (by intros r [= <-]).
    pose proof (IHl _ _ Hcur Hd) as [Hd1 Hd2].
    split; [done|]. left.
    destruct Hd2 as [?|[= <-]]; [by right|by left].
  - pose proof (IHl _ _ Hacc Hd) as [Hd1 Hd2].
    split; [done|]. destruct Hd2; [left; by right|by right].
Qed.

(** What [descriptorFor] selects (the parts of C5 that the code meets,
    and the value it returns where it departs from it).  With no version
    constraint it returns the highest-versioned cached descriptor for the
    identifier (per semantic-version comparison); with a constraint and
    exact=true it returns only a descriptor whose version string equals
    the constraint verbatim, and it does return one when such a descriptor
    is cached; and when no cached descriptor qualifies it returns no
    descriptor: [undefined] when an array is filed under the identifier,
    and when none is, [null], unless the identifier names a property of
    [Object.prototype], for which it returns [undefined] or raises. *)
Theorem descriptorFor_selection `{!SemverOrder} ctx packageId :
  (∀ version exact l,
     truthy version = false →
     descriptors ctx !! packageId = Some l → l ≠ [] →
     ∃ d, descriptorFor ctx packageId version exact = Some (LFound d) ∧ d ∈ l ∧
          ∀ d', d' ∈ l →
            (0 <= semver_compare (desc_version d) (desc_version d'))%Z)
  ∧ (∀ v d,
       v ≠ "" → descriptorFor ctx packageId (Some v) true = Some (LFound d) →
       desc_version d = v ∧
       ∃ l, descriptors ctx !! packageId = Some l ∧ d ∈ l)
  ∧ (∀ v l d,
       v ≠ "" → descriptors ctx !! packageId = Some l → d ∈ l →
       desc_version d = v →
       ∃ d', descriptorFor ctx packageId (Some v) true = Some (LFound d'))
  ∧ (∀ version exact,
       (∀ cur, cur ∈ default [] (descriptors ctx !! packageId) →
               qualifies version exact cur = false) →
       descriptorFor ctx packageId version exact =
         match descriptors ctx !! packageId with
         | Some _ => Some LUndefined
         | None =>
             match inherited packageId with
             | None => Some LNull
             | Some len =>
                 if js_lt 0 len && truthy version then None
                 else Some LUndefined
             end
         end).
Proof.
  split; [|split; [|split]].
  - intros version exact l Hv Hl Hne. rewrite (descriptorFor_own _ _ _ _ l Hl).
    pose proof (descriptorFor_fold_highest version exact l Hv [] None eq_refl)
      as Hmax.
    simpl in Hmax.
    destruct (foldl (descriptorFor_step version exact) None l) as [d|];
      [by exists d|done].
  - intros v d Hv Hd.
    apply descriptorFor_LFound in Hd as (l & Hl & Hf).
    assert (Hnone : ∀ r, @None descriptor = Some r → desc_version r = v)
      by done.
    destruct (descriptorFor_fold_exact v l Hv None d Hnone Hf) as [Hver Hin].
    split; [done|]. exists l. split; [done|]. by destruct Hin.
  - intros v l d Hv Hl Hd Hver. rewrite (descriptorFor_own _ _ _ _ l Hl).
    destruct (descriptorFor_fold_some (Some v) true None l d Hd) as [r ->];
      [|by exists r].
    unfold qualifies. rewrite <- Hver.
    rewrite bool_decide_eq_true_2; [|done]. apply orb_true_r.
  - intros version exact Hall.
    destruct (descriptors ctx !! packageId) as [l|] eqn:Hl.
    + rewrite (descriptorFor_own _ _ _ _ l Hl).
      by rewrite descriptorFor_fold_none.
    + by apply descriptorFor_unfiled.
Qed.

End CacheProperties.

Section ResolverProperties.

Context {sv : Semver} {pf : Platform}.

(** [prepare] on a descriptor just built from a remote listing fetches it. *)
Lemma prepare_listed pinfo r :
  (prepare (new_object (buildDescriptorFromRemote pinfo r)) CbNoop).2 =
    [EvFetch r (Some pinfo)].
Proof. reflexivity. Qed.

(** *** One listing *)

(** One listed package: its descriptor is filed and fetched. *)
Lemma findDescriptor_add_Some r ctx evs pinfo out :
  findDescriptor_add r (Some (ctx, evs)) pinfo = Some out →
  out.2 = evs ++ [EvFetch r (Some pinfo)]
  ∧ ∃ b, addDescriptor ctx (buildDescriptorFromRemote pinfo r) false =
           Some (b, out.1).
Proof.
  unfold findDescriptor_add.
  destruct (addDescriptor ctx (buildDescriptorFromRemote pinfo r) false)
    as [[b ctx1]|]; [|done].
  rewrite prepare_listed. intros [= <-]. split; [done|]. by exists b.
Qed.

Lemma findDescriptor_add_None r response :
  foldl (findDescriptor_add r) None response = None.
Proof. by induction response. Qed.

(** The packages of a listing: each is filed and fetched, in order; the
    cache afterwards does not depend on the effects so far, and no lookup
    raises in it that did not raise before. *)
Lemma findDescriptor_add_fold r response :
  ∀ ctx evs out,
    foldl (findDescriptor_add r) (Some (ctx, evs)) response = Some out →
    (∀ evs',
       foldl (findDescriptor_add r) (Some (ctx, evs')) response =
         Some (out.1, evs' ++ map (λ p, EvFetch r (Some p)) response))
    ∧ ∀ packageId version exact,
        is_Some (descriptorFor ctx packageId version exact) →
        is_Some (descriptorFor out.1 packageId version exact).
Proof.
  induction response as [|pinfo response IH]; intros ctx evs out.
  - intros [= <-]. split; [|done]. intros evs'. simpl. by rewrite app_nil_r.
  - cbn [foldl].
    destruct (findDescriptor_add r (Some (ctx, evs)) pinfo) as [[ctx1 evs1]|]
      eqn:Hadd; [|by rewrite findDescriptor_add_None].
    apply findDescriptor_add_Some in Hadd as (_ & b & Hadd). cbn [fst] in Hadd.
    intros Hrun. destruct (IH _ _ _ Hrun) as (Hany & Hsome). split.
    + intros evs'. cbn [foldl map]. unfold findDescriptor_add at 2.
      rewrite Hadd, prepare_listed, Hany, <- app_assoc. done.
    + intros packageId version exact H. apply Hsome.
      by eapply descriptorFor_after_add.
Qed.

(** A listing none of whose names reads an inherited property is merged
    without a TypeError. *)
Lemma findDescriptor_add_returns r response :
  (∀ p, p ∈ response → inherited (pi_name p) = None) →
  ∀ ctx evs, is_Some (foldl (findDescriptor_add r) (Some (ctx, evs)) response).
Proof.
  induction response as [|pinfo response IH]; intros Hplain ctx evs; [done|].
  cbn [foldl]. unfold findDescriptor_add at 2.
  rewrite addDescriptor_appends
    by (apply pushable_plain, Hplain; by left).
  apply IH. intros p Hp. apply Hplain. by right.
Qed.

Lemma list_queries_app evs1 evs2 :
  list_queries (evs1 ++ evs2) = list_queries evs1 ++ list_queries evs2.
Proof. apply omap_app. Qed.

(** The normalisation of [exact] on line 178 does not change what
    [descriptorFor] selects. *)
Lemma descriptorFor_exact_normalised ctx packageId version exact :
  descriptorFor ctx packageId version
    (if negb (truthy version) || negb exact then false else exact) =
  descriptorFor ctx packageId version exact.
Proof.
  unfold descriptorFor. destruct (descriptors_get ctx packageId); [|done..].
  f_equal. f_equal. f_equal. unfold descriptorFor_step.
  destruct (truthy version), exact; done.
Qed.

Lemma list_queries_none tail :
  (∀ i o, EvList i o ∉ tail) → list_queries tail = [].
Proof.
  induction tail as [|e tail IH]; intros H; [done|].
  unfold list_queries. simpl. destruct e;
    try (apply IH; intros i o Hin; apply (H i o); by right).
  exfalso. apply (H r opts). by left.
Qed.

(** *** The effects of asking the remotes *)

Lemma elem_of_concat {A} (x : A) (ls : list (list A)) :
  x ∈ concat ls ↔ ∃ l, x ∈ l ∧ l ∈ ls.
Proof.
  induction ls as [|l ls IH]; simpl.
  - split; [intros H; by apply elem_of_nil in H|].
    intros (l & _ & H). by apply elem_of_nil in H.
  - rewrite elem_of_app, IH. split.
    + intros [Hx|(l' & Hx & Hl')].
      * exists l. split; [done|by left].
      * exists l'. split; [done|by right].
    + intros (l' & Hx & Hl'). apply elem_of_cons in Hl' as [->|Hl'].
      * by left.
      * right. by exists l'.
Qed.

Lemma indexed_take {A} (l : list A) : ∀ n i,
  take n (indexed i l) = indexed i (take n l).
Proof.
  induction l as [|x l IH]; intros [|n] i; simpl; try done.
  by rewrite IH.
Qed.

Lemma indexed_elem_of {A} (l : list A) : ∀ i k x,
  (k, x) ∈ indexed i l ↔ i ≤ k ∧ l !! (k - i) = Some x.
Proof.
  induction l as [|y l IH]; intros i k x; simpl.
  - split; [intros H; by apply elem_of_nil in H|by intros [_ ?]].
  - rewrite elem_of_cons, IH. split.
    + intros [[= -> ->]|[Hle Hx]].
      * split; [done|]. by rewrite Nat.sub_diag.
      * split; [lia|]. by replace (k - i) with (S (k - S i)) by lia.
    + intros [Hle Hx]. destruct (decide (k = i)) as [->|Hne].
      * left. rewrite Nat.sub_diag in Hx. simpl in Hx. congruence.
      * right. split; [lia|].
        by replace (k - i) with (S (k - S i)) in Hx by lia.
Qed.

Lemma list_elem_of_visit_events opts k r j o :
  EvList j o ∈ visit_events opts (k, r) → j = k ∧ o = opts.
Proof.
  unfold visit_events. cbn [fst snd]. rewrite elem_of_cons.
  intros [[= -> ->]|Hin]; [done|].
  destruct (truthy (r_list r opts).1).
  - by apply list_elem_of_singleton in Hin.
  - destruct (r_list r opts).2; [|by apply elem_of_nil in Hin].
    by apply list_elem_of_fmap in Hin as (? & ? & _).
Qed.

Lemma list_queries_visit opts k r :
  list_queries (visit_events opts (k, r)) = [k].
Proof.
  unfold visit_events. cbn [fst snd].
  match goal with
  | |- list_queries (_ :: ?t) = _ =>
      change (k :: list_queries t = [k]); f_equal
  end.
  apply list_queries_none. intros j o Hin.
  destruct (truthy (r_list r opts).1).
  - apply list_elem_of_singleton in Hin. done.
  - destruct (r_list r opts).2; [|by apply elem_of_nil in Hin].
    apply list_elem_of_fmap in Hin as (? & ? & _). done.
Qed.

Lemma list_queries_visit_events opts (rs : list remote) : ∀ i,
  list_queries (concat (visit_events opts <$> indexed i rs)) =
    seq i (length rs).
Proof.
  induction rs as [|r rs IH]; intros i; [done|].
  cbn [indexed fmap list_fmap concat length seq].
  by rewrite list_queries_app, IH, list_queries_visit.
Qed.

(** The list queries among the effects of asking [n] remotes. *)
Lemma list_queries_asked opts (rs : list remote) n :
  n ≤ length rs →
  list_queries (concat (visit_events opts <$> take n (indexed 0 rs))) =
    seq 0 n.
Proof.
  intros Hn. rewrite indexed_take, list_queries_visit_events, length_take.
  f_equal. lia.
Qed.

Lemma list_elem_of_asked opts (l : list (nat * remote)) j o :
  EvList j o ∈ concat (visit_events opts <$> l) → o = opts.
Proof.
  rewrite elem_of_concat. intros (vevs & Hin & Hvevs).
  apply list_elem_of_fmap in Hvevs as ([k rem] & -> & _).
  by apply list_elem_of_visit_events in Hin as [_ ->].
Qed.

(** *** One remote *)

Lemma cache_after_cons opts r rs ctx ctx1 :
  merge_listing opts r ctx = Some ctx1 →
  cache_after opts (r :: rs) ctx = cache_after opts rs ctx1.
Proof. intros H. unfold cache_after. simpl. by rewrite H. Qed.

(** One visit of the worker that returns: its effects are those of
    asking this remote, the cache afterwards is the merged one, and [ret]
    is either left as it was, with the cache, or the selection in the
    merged cache. *)
Lemma findDescriptor_visit_Some packageId version exact opts r ctx ret evs
    out :
  findDescriptor_visit packageId version exact opts r (ctx, ret, evs) =
    Some out →
  ∃ ctx1 ret1 flag,
    out = (ctx1, ret1, evs ++ visit_events opts r, flag)
    ∧ merge_listing opts r ctx = Some ctx1
    ∧ ((ret1 = ret ∧ ctx1 = ctx ∧ flag = false)
       ∨ (descriptorFor ctx1 packageId version exact = Some ret1
          ∧ flag = found ret1)).
Proof.
  unfold merge_listing, findDescriptor_visit, visit_events.
  destruct (r_list r.2 opts) as [err response]. cbn [fst snd].
  destruct response as [response|].
  - destruct (truthy err) eqn:Herr.
    + intros [= <-]. exists ctx, ret, false. rewrite <- app_assoc.
      split; [done|]. split; [done|]. by left.
    + destruct (foldl (findDescriptor_add r.1) (Some (ctx, evs ++ [EvList r.1 opts]))
                  response) as [[ctx1 evs1]|] eqn:Hfold; [|done].
      destruct (findDescriptor_add_fold _ _ _ _ _ Hfold) as (Hany & _).
      cbn [fst] in Hany.
      pose proof (Hany (evs ++ [EvList r.1 opts])) as Hevs.
      rewrite Hfold in Hevs. injection Hevs as ->.
      destruct (descriptorFor ctx1 packageId version exact) as [ret1|] eqn:Hsel;
        [|done].
      intros [= <-]. exists ctx1, ret1, (found ret1).
      rewrite <- app_assoc. split; [done|].
      split; [by rewrite (Hany [])|]. by right.
  - intros [= <-]. exists ctx, ret, false.
    split; [|split; [done|by left]].
    destruct (truthy err); [by rewrite <- app_assoc|done].
Qed.

(** A visit returns when the listing is merged without a TypeError and
    the lookup did not raise before. *)
Lemma findDescriptor_visit_returns packageId version exact opts r ctx ret
    evs :
  (∀ response p, (r_list r.2 opts).2 = Some response → p ∈ response →
                 inherited (pi_name p) = None) →
  is_Some (descriptorFor ctx packageId version exact) →
  ∃ out,
    findDescriptor_visit packageId version exact opts r (ctx, ret, evs) =
      Some out
    ∧ is_Some (descriptorFor out.1.1.1 packageId version exact).
Proof.
  intros Hplain Hsome. unfold findDescriptor_visit.
  destruct (r_list r.2 opts) as [err response]. cbn [fst snd] in *.
  destruct response as [response|]; [|by eexists].
  destruct (truthy err); [by eexists|].
  destruct (findDescriptor_add_returns r.1 response
              (λ p, Hplain response p eq_refl)
              ctx (evs ++ [EvList r.1 opts])) as [[ctx1 evs1] Hfold].
  rewrite Hfold.
  destruct (findDescriptor_add_fold _ _ _ _ _ Hfold) as (_ & Hkeep).
  destruct (Hkeep packageId version exact Hsome) as [ret1 Hret1].
  cbn [fst] in Hret1. rewrite Hret1. eexists. split; [done|].
  cbn [fst]. by rewrite Hret1.
Qed.

(** *** The scan *)

(** The scan of the remotes, when it returns: an initial segment of the
    remotes is asked, one after the other; the cache afterwards is the
    one with their listings merged, and the result is the selection in
    it; the scan ends without a descriptor only when every remote was
    asked, and no remote but the last one asked let the selection
    succeed. *)
Lemma findDescriptor_scan_spec packageId version exact opts rs :
  ∀ i ctx ret evs out,
    descriptorFor ctx packageId version exact = Some ret →
    found ret = false →
    iter_find (findDescriptor_visit packageId version exact opts)
      (indexed i rs) (ctx, ret, evs) = Some out →
    ∃ n, n ≤ length rs
      ∧ out.2 = evs ++ concat (visit_events opts <$> take n (indexed i rs))
      ∧ cache_after opts (take n (indexed i rs)) ctx = Some out.1.1
      ∧ descriptorFor out.1.1 packageId version exact = Some out.1.2
      ∧ (found out.1.2 = false → n = length rs)
      ∧ (found out.1.2 = true → 0 < n)
      ∧ ∀ k ctxk r,
          S k < n →
          cache_after opts (take (S k) (indexed i rs)) ctx = Some ctxk →
          descriptorFor ctxk packageId version exact = Some r →
          found r = false.
Proof.
  induction rs as [|r rs IH]; intros i ctx ret evs out Hsel Hret;
    cbn [indexed iter_find].
  - intros [= <-]. exists 0. cbn. rewrite app_nil_r.
    split; [done|]. split; [done|]. split; [done|]. split; [done|].
    split; [done|]. split; [congruence|]. intros k ctxk r' Hk. lia.
  - destruct (findDescriptor_visit packageId version exact opts (i, r)
                (ctx, ret, evs)) as [[[[ctx1 ret1] evs1] flag]|] eqn:Hvisit;
      [|done].
    apply findDescriptor_visit_Some in Hvisit
      as (ctx1' & ret1' & flag' & [= -> -> -> ->] & Hmerge & Hcase).
    destruct flag'.
    + intros [= <-]. cbn [fst snd].
      destruct Hcase as [(_ & _ & ?)|(Hsel1 & Hf)]; [done|].
      exists 1. cbn [take fmap list_fmap concat]. rewrite take_0.
      cbn [fmap list_fmap concat]. rewrite app_nil_r.
      split; [simpl; lia|]. split; [done|].
      split; [by rewrite (cache_after_cons _ _ _ _ _ Hmerge)|].
      split; [done|]. split; [congruence|]. split; [lia|].
      intros k ctxk r' Hk. lia.
    + assert (Hinv : descriptorFor ctx1' packageId version exact = Some ret1'
                     ∧ found ret1' = false).
      { destruct Hcase as [(-> & -> & _)|(Hsel1 & Hf)]; by split. }
      destruct Hinv as [Hsel1 Hret1]. intros Hrun.
      destruct (IH _ _ _ _ _ Hsel1 Hret1 Hrun)
        as (n & Hn & Hevs & Hcache & Hres & Hall & Hpos & Hprev).
      exists (S n). cbn [take fmap list_fmap concat].
      rewrite (cache_after_cons _ _ _ _ _ Hmerge), Hevs, <- !app_assoc.
      split; [simpl; lia|]. split; [done|]. split; [done|]. split; [done|].
      split; [intros Hf; simpl; by rewrite Hall|]. split; [lia|].
      intros k ctxk r' Hk Hcachek Hselk. cbn [take] in Hcachek.
      rewrite (cache_after_cons _ _ _ _ _ Hmerge) in Hcachek.
      destruct k as [|k].
      * rewrite take_0 in Hcachek. injection Hcachek as <-. congruence.
      * apply (Hprev k ctxk r'); [lia|done|done].
Qed.

(** The scan returns when no listing makes an insertion raise. *)
Lemma findDescriptor_scan_returns packageId version exact opts rs :
  (∀ rem response p, rem ∈ rs → (r_list rem opts).2 = Some response →
                     p ∈ response → inherited (pi_name p) = None) →
  ∀ i ctx ret evs,
    is_Some (descriptorFor ctx packageId version exact) →
    is_Some (iter_find (findDescriptor_visit packageId version exact opts)
               (indexed i rs) (ctx, ret, evs)).
Proof.
  induction rs as [|r rs IH]; intros Hplain i ctx ret evs Hsome;
    cbn [indexed iter_find]; [done|].
  destruct (findDescriptor_visit_returns packageId version exact opts (i, r)
              ctx ret evs) as ([[[ctx1 ret1] evs1] flag] & -> & Hsome1);
    [|done|].
  { intros response p. apply Hplain. by left. }
  destruct flag; [done|]. apply IH; [|done].
  intros rem response p Hrem. apply Hplain. by right.
Qed.

(** *** [findDescriptor] *)

(** A run of [findDescriptor] that returns: the first lookup did not
    raise and no error is reported; an initial segment of the remotes is
    asked, with the effects of asking them; the cache afterwards is the
    one with their listings merged and the result is the selection in
    it; on a hit no remote is asked; on a miss every remote is asked
    unless a descriptor is returned, a descriptor is only returned after
    a remote was asked, and no remote but the last one asked let the
    selection succeed. *)
Lemma findDescriptor_spec ctx packageId version exact ctx' res evs :
  findDescriptor ctx packageId version exact = Some (ctx', res, evs) →
  let opts := findDescriptor_opts packageId version exact in
  ∃ r0 n,
    descriptorFor ctx packageId version exact = Some r0
    ∧ res.1 = None
    ∧ n ≤ length (remotes ctx)
    ∧ evs = concat (visit_events opts <$> take n (indexed 0 (remotes ctx)))
    ∧ cache_after opts (take n (indexed 0 (remotes ctx))) ctx = Some ctx'
    ∧ descriptorFor ctx' packageId version exact = Some res.2
    ∧ (found r0 = true → n = 0)
    ∧ (found r0 = false → found res.2 = false → n = length (remotes ctx))
    ∧ (found r0 = false → found res.2 = true → 0 < n)
    ∧ ∀ k ctxk r,
        S k < n →
        cache_after opts (take (S k) (indexed 0 (remotes ctx))) ctx =
          Some ctxk →
        descriptorFor ctxk packageId version exact = Some r →
        found r = false.
Proof.
  intros Hrun opts. unfold findDescriptor in Hrun.
  destruct (descriptorFor ctx packageId version exact) as [r0|] eqn:Hsel;
    [|done].
  exists r0. destruct (found r0) eqn:Hhit.
  - injection Hrun as <- <- <-. exists 0. cbn.
    split; [done|]. split; [done|]. split; [lia|]. split; [done|].
    split; [done|]. split; [done|]. split; [done|]. split; [done|].
    split; [done|]. intros k ctxk r Hk. lia.
  - set (exact' := if negb (truthy version) || negb exact then false else exact)
      in Hrun.
    change {| q_name := packageId; q_version := version;
              q_exact := if exact' then "true" else "false";
              q_dependencies := false |}
      with opts in Hrun.
    destruct (iter_find (findDescriptor_visit packageId version exact' opts)
                (indexed 0 (remotes ctx)) (ctx, r0, []))
      as [[[c r] t]|] eqn:Hscan; [|done].
    injection Hrun as <- <- <-.
    assert (Hnorm : ∀ c', descriptorFor c' packageId version exact' =
                          descriptorFor c' packageId version exact)
      by (intros c'; apply descriptorFor_exact_normalised).
    apply findDescriptor_scan_spec in Hscan
      as (n & Hn & Hevs & Hcache & Hres & Hall & Hpos & Hprev);
      [|by rewrite Hnorm|done].
    cbn [fst snd] in *. rewrite Hnorm in Hres. exists n.
    split; [done|]. split; [done|]. split; [done|]. split; [done|].
    split; [done|]. split; [done|]. split; [done|]. split; [by intros _|].
    split; [by intros _|].
    intros k ctxk r' Hk Hcachek Hselk. apply (Hprev k ctxk r' Hk Hcachek).
    by rewrite Hnorm.
Qed.

(** [findDescriptor] returns unless the first lookup or an insertion
    raises. *)
Lemma findDescriptor_returns ctx packageId version exact :
  is_Some (descriptorFor ctx packageId version exact) →
  listings_plain (findDescriptor_opts packageId version exact) (remotes ctx) →
  is_Some (findDescriptor ctx packageId version exact).
Proof.
  intros [r0 Hsel] Hplain. unfold findDescriptor. rewrite Hsel.
  destruct (found r0); [done|].
  set (exact' := if negb (truthy version) || negb exact then false else exact).
  change {| q_name := packageId; q_version := version;
            q_exact := if exact' then "true" else "false";
            q_dependencies := false |}
    with (findDescriptor_opts packageId version exact).
  destruct (findDescriptor_scan_returns packageId version exact'
              (findDescriptor_opts packageId version exact) (remotes ctx)
              Hplain 0 ctx r0 []) as [[[c r] t] ->]; [|done].
  unfold exact'. rewrite descriptorFor_exact_normalised. by rewrite Hsel.
Qed.


(** C10: every list query that [findDescriptor] issues to a remote carries
    dependencies: false, whatever the [includeDependencies] preference of
    the context: on every run that returns, and the call does return
    unless a TypeError is raised (by the first lookup, or by the
    insertion of a listed package whose name is a property of
    [Object.prototype]).  The dependency map of a descriptor built from a
    remote listing is the one the remote put in its response, and is
    empty when the response has none. *)
Theorem findDescriptor_lists_without_dependencies ctx preference packageId
    version exact :
  (∀ ctx' res evs,
     findDescriptor (set_includeDependencies ctx preference) packageId version
       exact = Some (ctx', res, evs) →
     ∀ r opts, EvList r opts ∈ evs → q_dependencies opts = false)
  ∧ (is_Some (descriptorFor ctx packageId version exact) →
     listings_plain (findDescriptor_opts packageId version exact)
       (remotes ctx) →
     is_Some (findDescriptor (set_includeDependencies ctx preference)
                packageId version exact))
  ∧ ∀ remotePackageInfo r,
      desc_dependencies (buildDescriptorFromRemote remotePackageInfo r) =
        default [] (pi_dependencies remotePackageInfo).
Proof.
  split; [|split; [|done]].
  - intros ctx' res evs Hrun r opts Hin.
    destruct (findDescriptor_spec _ _ _ _ _ _ _ Hrun)
      as (_ & n & _ & _ & _ & -> & _).
    by rewrite (list_elem_of_asked _ _ _ _ Hin).
  - intros Hsome Hplain. by apply findDescriptor_returns.
Qed.

End ResolverProperties.

Section InstallProperties.

Context {sv : Semver} {pf : Platform}.

(** *** Argument classification *)

Lemma begins_with_dot_get packageId :
  String.get 0 packageId = Some "."%char ↔ begins_with_dot packageId.
Proof.
  unfold begins_with_dot. destruct packageId as [|c rest]; simpl.
  - split; [done|]. by intros [? ?].
  - split.
    + intros [= ->]. by exists rest.
    + by intros [? [= -> _]].
Qed.

Lemma indexOf_slash_ge s : ∀ i, (0 <= i)%Z →
  (0 <= indexOf_slash s i)%Z ↔ contains_slash s.
Proof.
  unfold contains_slash.
  induction s as [|c s IH]; intros i Hi; simpl.
  - split; [lia|]. intros (a & b & H). by destruct a.
  - destruct (Ascii.eqb_spec c "/") as [->|Hc].
    + split; [|done]. intros _. by exists "", s.
    + rewrite IH by lia. split.
      * intros (a & b & ->). by exists (String c a), b.
      * intros (a & b & H). destruct a as [|c' a]; simpl in H.
        { by injection H as -> _. }
        injection H as -> ->. by exists a, b.
Qed.

(** The test of line 269 holds exactly for the arguments that begin with
    a dot or contain a slash. *)
Lemma looksLikePath_spec packageId :
  looksLikePath packageId = true ↔
  begins_with_dot packageId ∨ contains_slash packageId.
Proof.
  unfold looksLikePath. rewrite orb_true_iff, bool_decide_eq_true.
  rewrite begins_with_dot_get, Z.leb_le, indexOf_slash_ge by lia. done.
Qed.

(** [loadDescriptor] reaches no remote. *)
Lemma loadDescriptor_local ctx path out :
  loadDescriptor ctx path = Some out →
  ∀ e, e ∈ out.2 → remote_event e = false.
Proof.
  unfold loadDescriptor, loadDescriptor_with.
  destruct (packageFor (path_normalize path)) as [err pkg].
  destruct (truthy err).
  - intros [= <-] e He. apply list_elem_of_singleton in He as ->. done.
  - destruct pkg as [pkg|]; [|done].
    destruct (addDescriptor ctx (buildDescriptorFromPackage pkg) true)
      as [[b ctx']|]; [|done].
    intros [= <-] e He. apply list_elem_of_singleton in He as ->. done.
Qed.

(** When the package loads, [loadDescriptor] hands its descriptor to the
    [addDescriptor] of the context with overlay=true and returns it. *)
Lemma loadDescriptor_with_loaded add ctx path err pkg :
  packageFor (path_normalize path) = (err, Some pkg) → truthy err = false →
  loadDescriptor_with add ctx path =
    match add ctx (buildDescriptorFromPackage pkg) true with
    | None => None
    | Some (_, ctx') =>
        Some (ctx', (None, LFound (buildDescriptorFromPackage pkg)),
              [EvLoadPackage (Some (path_normalize path))])
    end.
Proof. intros Hpkg Herr. unfold loadDescriptor_with. by rewrite Hpkg, Herr. Qed.

(** C8: argument classification in [install].  "./foo", "../x/y" and
    "a/b" are taken as paths, "foo" and "foo-bar" as identifiers.  An
    argument that begins with '.' or contains '/' is loaded directly by
    [loadDescriptor], which reaches no remote.  When the package loads,
    its descriptor is of local origin and without remote, and it is
    handed to the [addDescriptor] of the context with overlay=true,
    whatever that method does with it; with the method of this file the
    descriptor is in the cache afterwards, the last one filed under its
    name, after those that were filed there, and [loadDescriptor] returns
    it, unless the name of the package is a property of
    [Object.prototype], for which the insertion raises.  Any other
    argument is resolved by [findDescriptor], through the cache and the
    remotes. *)
Theorem install_classifies ctx packageId version exact :
  (looksLikePath "./foo" = true ∧ looksLikePath "../x/y" = true ∧
   looksLikePath "a/b" = true ∧ looksLikePath "foo" = false ∧
   looksLikePath "foo-bar" = false)
  ∧ (begins_with_dot packageId ∨ contains_slash packageId →
     install_resolve ctx packageId version exact = loadDescriptor ctx packageId
     ∧ (∀ out, loadDescriptor ctx packageId = Some out →
               ∀ e, e ∈ out.2 → remote_event e = false)
     ∧ (∀ err pkg,
          packageFor (path_normalize packageId) = (err, Some pkg) →
          truthy err = false →
          let desc := buildDescriptorFromPackage pkg in
          let evs := [EvLoadPackage (Some (path_normalize packageId))] in
          desc_location desc = Local
          ∧ desc_remote desc = None
          ∧ (∀ add,
               loadDescriptor_with add ctx packageId =
                 match add ctx desc true with
                 | None => None
                 | Some (_, ctx') => Some (ctx', (None, LFound desc), evs)
                 end)
          ∧ (pushable ctx (desc_name desc) = true →
             ∃ ctx',
               loadDescriptor ctx packageId =
                 Some (ctx', (None, LFound desc), evs)
               ∧ addDescriptor ctx desc true = Some (true, ctx')
               ∧ descriptors ctx' !! desc_name desc =
                   Some (default [] (descriptors ctx !! desc_name desc)
                         ++ [desc])
               ∧ ∀ k, k ≠ desc_name desc →
                      descriptors ctx' !! k = descriptors ctx !! k)
          ∧ (pushable ctx (desc_name desc) = false →
             loadDescriptor ctx packageId = None)))
  ∧ (¬ (begins_with_dot packageId ∨ contains_slash packageId) →
     install_resolve ctx packageId version exact =
       findDescriptor ctx packageId version exact).
Proof.
  split; [done|]. split.
  - intros Hpath. apply looksLikePath_spec in Hpath.
    unfold install_resolve. rewrite Hpath.
    split; [done|]. split; [apply loadDescriptor_local|].
    intros err pkg Hpkg Herr.
    split; [done|]. split; [done|].
    split; [intros add; by apply (loadDescriptor_with_loaded _ _ _ err)|].
    unfold loadDescriptor.
    rewrite (loadDescriptor_with_loaded _ _ _ err pkg Hpkg Herr). split.
    + intros Hpush. rewrite (addDescriptor_appends _ _ _ Hpush).
      eexists. split; [done|]. split; [done|]. cbn [descriptors set_descriptors].
      split; [apply lookup_insert_eq|].
      intros k Hk. by rewrite lookup_insert_ne.
    + intros Hpush. by rewrite (addDescriptor_raises _ _ _ Hpush).
  - intros Hid. unfold install_resolve.
    destruct (looksLikePath packageId) eqn:E; [|done].
    by apply looksLikePath_spec in E.
Qed.

(** C9: the [force] parameter of [install] has no effect.  With force=true
    and with force=false, [install] resolves the same descriptor with the
    same effects, continues in the same way and calls back the same
    [done]; and leaving [force] out, with the callback in fourth position,
    is the same call as passing any boolean before that callback.  What
    follows resolution (the install job) does not receive [force]. *)
Theorem install_ignores_force ctx packageId version exact done :
  install ctx packageId version exact (ArgBool true) done =
    install ctx packageId version exact (ArgBool false) done
  ∧ (∀ f b,
       install ctx packageId version exact (ArgFunction f) done =
         install ctx packageId version exact (ArgBool b) (Some f)).
Proof. done. Qed.

End InstallProperties.

Section PrepareProperties.

Context {pf : Platform}.

Lemma prefix_refl_app a b : String.prefix a (a +:+ b) = true.
Proof.
  induction a as [|c a IH]; simpl; [by destruct b|].
  destruct (ascii_dec c c); [done|done].
Qed.

Lemma contains_prefix needle hay :
  String.prefix needle hay = true → contains needle hay = true.
Proof. intros H. destruct hay; cbn [contains]; by rewrite H. Qed.

Lemma contains_app needle pre post :
  contains needle (pre +:+ needle +:+ post) = true.
Proof.
  induction pre as [|c pre IH].
  - change ("" +:+ needle +:+ post) with (needle +:+ post).
    apply contains_prefix, prefix_refl_app.
  - change (String c pre +:+ needle +:+ post)
      with (String c (pre +:+ needle +:+ post)).
    cbn [contains]. rewrite IH. apply orb_true_r.
Qed.

(** The message built on line 232. *)
Lemma prepare_fetched_no_path desc err path :
  truthy err = false → truthy path = false →
  prepare_fetched desc err path =
    (desc, Some ("Could not fetch undefined (" +:+ desc_version desc +:+ ")")).
Proof.
  intros He Hp. unfold prepare_fetched. rewrite He, Hp. done.
Qed.

(** C7 (amended): preparation ([prepare]) of a descriptor whose prepare
    job does not exist yet.  When the local path is already set the job
    completes successfully at once, without calling any remote.  For a
    descriptor without path that has a remote, the remote is asked to
    fetch it; a fetch that fails is reported with the error of the remote,
    unchanged; a fetch that succeeds but yields no path is reported as a
    failure whose message starts with "Could not fetch" and names the
    version; on a successful fetch the local path of the descriptor is
    set to the fetched path and the job completes successfully. *)
Theorem prepare_outcomes o n :
  prepareJob o = None →
  (truthy (desc_path (obj_desc o)) = true →
   prepare o (CbCaller n) =
     (set_prepareJob o (Resolved None), [EvPrepared n None]))
  ∧ (∀ r,
       truthy (desc_path (obj_desc o)) = false →
       desc_remote (obj_desc o) = Some r →
       let o1 := set_prepareJob o (Pending [CbCaller n]) in
       prepare o (CbCaller n) = (o1, [EvFetch r (desc_info (obj_desc o))])
       ∧ ∀ err path,
           (truthy err = true →
            fetched o1 err path =
              (set_prepareJob o1 (Resolved err), [EvPrepared n err]))
           ∧ (truthy err = false → truthy path = false →
              ∃ msg,
                fetched o1 err path =
                  (set_prepareJob o1 (Resolved (Some msg)),
                   [EvPrepared n (Some msg)])
                ∧ String.prefix "Could not fetch " msg = true
                ∧ contains (desc_version (obj_desc o)) msg = true)
           ∧ (truthy err = false → truthy path = true →
              fetched o1 err path =
                (set_prepareJob (set_desc o1 (set_path (obj_desc o) path))
                   (Resolved None),
                 [EvPrepared n None]))).
Proof.
  intros Hjob. split.
  - intros Hpath. unfold prepare, prepare_body. rewrite Hjob. simpl.
    rewrite Hpath. done.
  - intros r Hpath Hremote o1. split.
    + unfold prepare, prepare_body. rewrite Hjob. simpl.
      rewrite Hpath, Hremote. done.
    + intros err path. unfold fetched. simpl. split; [|split].
      * intros He. unfold prepare_fetched. rewrite He. simpl.
        destruct err as [e|]; [|done]. simpl in *. rewrite He. done.
      * intros He Hp. rewrite prepare_fetched_no_path by done.
        eexists. split; [done|]. split; [done|].
        apply (contains_app _ "Could not fetch undefined (" ")").
      * intros He Hp. unfold prepare_fetched. rewrite He, Hp. simpl.
        rewrite He. done.
Qed.

End PrepareProperties.

Section JobProperties.

Context {pf : Platform}.

Lemma job_starts_app evs1 evs2 :
  job_starts (evs1 ++ evs2) = job_starts evs1 + job_starts evs2.
Proof. unfold job_starts. by rewrite filter_app, length_app. Qed.

Lemma source_installs_app evs1 evs2 :
  source_installs (evs1 ++ evs2) = source_installs evs1 + source_installs evs2.
Proof. unfold source_installs. by rewrite filter_app, length_app. Qed.

Lemma dones_app evs1 evs2 : dones (evs1 ++ evs2) = dones evs1 ++ dones evs2.
Proof. apply omap_app. Qed.

(** Splits the counts of a concatenation of effects. *)
Ltac tally :=
  rewrite ?job_starts_app, ?source_installs_app, ?dones_app.

Lemma silent_app evs1 evs2 : silent evs1 → silent evs2 → silent (evs1 ++ evs2).
Proof.
  unfold silent. tally.
  intros (-> & -> & ->) (-> & -> & ->). done.
Qed.

Lemma dones_callbacks (calls : list (nat * option string)) :
  dones (map (λ c, EvDone c.1 c.2) calls) = calls.
Proof.
  induction calls as [|[n e] calls IH]; [done|].
  cbn. f_equal. apply IH.
Qed.

Lemma callbacks_counts (calls : list (nat * option string)) :
  job_starts (map (λ c, EvDone c.1 c.2) calls) = 0
  ∧ source_installs (map (λ c, EvDone c.1 c.2) calls) = 0.
Proof. by induction calls. Qed.

Lemma silent_extend o evs tl demands :
  job_inv o evs demands → silent tl → job_inv o (evs ++ tl) demands.
Proof.
  unfold job_inv, silent.
  tally.
  intros H (-> & -> & ->). rewrite !Nat.add_0_r, app_nil_r. done.
Qed.

(** The invariant reads a descriptor object through its install job, the
    position of the body and the number of times the body waits. *)
Lemma job_inv_ext o o' evs demands :
  installJob o' = installJob o → obj_phase o' = obj_phase o →
  body_waits o' = body_waits o →
  job_inv o evs demands → job_inv o' evs demands.
Proof. unfold job_inv. by intros -> -> ->. Qed.

(** The install job completes. *)
Lemma install_done_inv o evs demands err :
  installJob o = Some (Pending demands) → demands ≠ [] →
  body_waits o = 0 → job_starts evs = 1 → source_installs evs ≤ 1 →
  dones evs = [] →
  job_inv (install_done o err).1 (evs ++ (install_done o err).2) demands.
Proof.
  intros Hjob Hne Hw Hs Hi Hd. unfold install_done. rewrite Hjob. simpl.
  unfold job_inv. simpl.
  tally. rewrite Hd.
  destruct (callbacks_counts (map (λ c, (c, err)) demands)) as [-> ->].
  rewrite dones_callbacks. repeat split; try done; lia.
Qed.

Lemma install_prepared_inv o evs demands err :
  installJob o = Some (Pending demands) → demands ≠ [] →
  body_waits o = 0 → job_starts evs = 1 → source_installs evs = 0 →
  dones evs = [] →
  job_inv (install_prepared o err).1 (evs ++ (install_prepared o err).2)
    demands.
Proof.
  intros Hjob Hne Hw Hs Hi Hd. unfold install_prepared.
  destruct (truthy err).
  - apply install_done_inv; try done. lia.
  - unfold job_inv. simpl. rewrite Hjob.
    tally. rewrite Hs, Hi, Hd.
    done.
Qed.

(** Calling back the callbacks of the prepare job, none of which is the
    install body. *)
Lemma prepare_deliver_others ws err :
  filter (λ c, is_installBody c = true) ws = [] →
  ∀ o evs0, ∃ tl,
    foldl prepare_deliver (o, evs0) (map (λ c, (c, err)) ws) =
      (o, evs0 ++ tl) ∧ silent tl.
Proof.
  induction ws as [|c ws IH]; intros Hnone o evs0.
  - exists []. simpl. by rewrite app_nil_r.
  - destruct c; cbn [map foldl].
    + rewrite filter_cons_False in Hnone by done.
      destruct (IH Hnone o evs0) as (tl & Htl & Hs). by exists tl.
    + by rewrite filter_cons_True in Hnone.
    + rewrite filter_cons_False in Hnone by done.
      destruct (IH Hnone o (evs0 ++ [EvPrepared n err])) as (tl & Htl & Hs).
      exists (EvPrepared n err :: tl). unfold prepare_deliver at 2. simpl.
      rewrite Htl, <- app_assoc. split; [done|].
      by apply (silent_app [EvPrepared n err] tl).
Qed.

(** Calling back the callbacks of the prepare job, one of which is the
    install body. *)
Lemma prepare_deliver_body ws err :
  length (filter (λ c, is_installBody c = true) ws) = 1 →
  ∀ o evs0, ∃ t1 t2,
    foldl prepare_deliver (o, evs0) (map (λ c, (c, err)) ws) =
      ((install_prepared o err).1,
       evs0 ++ t1 ++ (install_prepared o err).2 ++ t2)
    ∧ silent t1 ∧ silent t2.
Proof.
  induction ws as [|c ws IH]; intros Hone o evs0; [done|].
  destruct c; cbn [map foldl].
  - rewrite filter_cons_False in Hone by done.
    destruct (IH Hone o evs0) as (t1 & t2 & Hf & H1 & H2).
    by exists t1, t2.
  - rewrite filter_cons_True in Hone by done. simpl in Hone.
    assert (Hnone : filter (λ c, is_installBody c = true) ws = []).
    { apply nil_length_inv. lia. }
    unfold prepare_deliver at 2. simpl.
    destruct (install_prepared o err) as [o' evs'] eqn:Hp.
    destruct (prepare_deliver_others ws err Hnone o' (evs0 ++ evs'))
      as (tl & Htl & Hs).
    exists [], tl. rewrite Htl. simpl. rewrite <- app_assoc.
    split; [done|]. split; [done|done].
  - rewrite filter_cons_False in Hone by done.
    destruct (IH Hone o (evs0 ++ [EvPrepared n err]))
      as (t1 & t2 & Hf & H1 & H2).
    exists (EvPrepared n err :: t1), t2. unfold prepare_deliver at 2. simpl.
    rewrite Hf, <- app_assoc. split; [done|]. split; [|done].
    by apply (silent_app [EvPrepared n err] t1).
Qed.

(** [prepare] called by anyone but the install body leaves the install
    job alone. *)
Lemma prepare_other_inv o cb evs demands :
  is_installBody cb = false →
  job_inv o evs demands →
  job_inv (prepare o cb).1 (evs ++ (prepare o cb).2) demands.
Proof.
  intros Hcb Hinv. unfold prepare.
  assert (Hsingle : filter (λ c, is_installBody c = true) [cb] = []).
  { rewrite filter_cons_False; [done|]. by rewrite Hcb. }
  destruct (prepareJob o) as [[|ws|e]|] eqn:Hpj; simpl.
  1, 4: destruct (prepare_body (obj_desc o)) as [err|r pinfo]; simpl;
    [ destruct (prepare_deliver_others [cb] err Hsingle
                  (set_prepareJob (set_prepareJob o (Pending [cb]))
                     (Resolved err)) []) as (tl & Htl & Hs);
      simpl in Htl; rewrite Htl; simpl;
      apply silent_extend; [|done]
    | apply silent_extend; [|done] ];
    (eapply job_inv_ext; [..|exact Hinv]; try done;
     unfold body_waits; simpl; rewrite Hpj; try done;
     by rewrite ?Hsingle).
  - rewrite app_nil_r. eapply job_inv_ext; [..|exact Hinv]; try done.
    unfold body_waits. simpl. rewrite Hpj, filter_app, Hsingle, app_nil_r.
    done.
  - destruct (prepare_deliver_others [cb] e Hsingle
                (set_prepareJob o (Resolved e)) []) as (tl & Htl & Hs).
    simpl in Htl. rewrite Htl. simpl. apply silent_extend; [|done].
    eapply job_inv_ext; [..|exact Hinv]; try done.
    unfold body_waits. simpl. by rewrite Hpj.
Qed.

Lemma prepare_deliver_others_inv ws err o evs demands :
  filter (λ c, is_installBody c = true) ws = [] →
  job_inv o evs demands →
  job_inv (foldl prepare_deliver (o, []) (map (λ c, (c, err)) ws)).1
    (evs ++ (foldl prepare_deliver (o, []) (map (λ c, (c, err)) ws)).2)
    demands.
Proof.
  intros Hws Hinv.
  destruct (prepare_deliver_others ws err Hws o []) as (tl & -> & Hs).
  by apply silent_extend.
Qed.

Lemma prepare_deliver_body_inv ws err o evs demands :
  length (filter (λ c, is_installBody c = true) ws) = 1 →
  installJob o = Some (Pending demands) → demands ≠ [] →
  body_waits o = 0 → job_starts evs = 1 → source_installs evs = 0 →
  dones evs = [] →
  job_inv (foldl prepare_deliver (o, []) (map (λ c, (c, err)) ws)).1
    (evs ++ (foldl prepare_deliver (o, []) (map (λ c, (c, err)) ws)).2)
    demands.
Proof.
  intros Hws Hjob Hne Hw Hs Hi Hd.
  destruct (prepare_deliver_body ws err Hws o [])
    as (t1 & t2 & -> & (H1s & H1i & H1d) & H2).
  cbn [fst snd app]. rewrite !app_assoc. apply silent_extend; [|done].
  apply install_prepared_inv; try done.
  - by rewrite job_starts_app, Hs, H1s.
  - by rewrite source_installs_app, Hi, H1i.
  - by rewrite dones_app, Hd, H1d.
Qed.

(** What the invariant says while the body waits for the prepare job. *)
Lemma job_inv_waiting o evs demands :
  job_inv o evs demands →
  body_waits o = 0 ∨
  body_waits o = 1 ∧ installJob o = Some (Pending demands) ∧ demands ≠ [] ∧
  obj_phase o = Preparing ∧ job_starts evs = 1 ∧ source_installs evs = 0 ∧
  dones evs = [].
Proof.
  unfold job_inv. destruct (installJob o) as [[|ws|e]|]; [done| |tauto|tauto].
  intros (-> & Hne & Hs & Hd & Hph).
  destruct (obj_phase o); tauto.
Qed.

(** [prepare] called by the install body, just started. *)
Lemma prepare_body_inv o evs demands :
  installJob o = Some (Pending demands) → demands ≠ [] →
  obj_phase o = Preparing → body_waits o = 0 →
  job_starts evs = 1 → source_installs evs = 0 → dones evs = [] →
  job_inv (prepare o CbInstallBody).1 (evs ++ (prepare o CbInstallBody).2)
    demands.
Proof.
  intros Hjob Hne Hph Hw Hs Hi Hd. unfold prepare.
  assert (Hsingle :
    length (filter (λ c, is_installBody c = true) [CbInstallBody]) = 1)
    by done.
  destruct (prepareJob o) as [[|ws|e]|] eqn:Hpj; simpl.
  1, 4: destruct (prepare_body (obj_desc o)) as [err|r pinfo]; simpl;
    [ apply (prepare_deliver_body_inv [CbInstallBody]); done
    | unfold job_inv; simpl; rewrite Hjob, Hph;
      tally; rewrite Hs, Hi, Hd;
      done ].
  - unfold job_inv. simpl. rewrite Hjob, Hph, app_nil_r, Hs, Hi, Hd.
    unfold body_waits in *. simpl. rewrite Hpj in Hw.
    rewrite filter_app, length_app, Hw. done.
  - apply (prepare_deliver_body_inv [CbInstallBody]); done.
Qed.

(** [remote.fetch] calls back. *)
Lemma fetched_inv o err path evs demands :
  job_inv o evs demands →
  job_inv (fetched o err path).1 (evs ++ (fetched o err path).2) demands.
Proof.
  intros Hinv. unfold fetched.
  destruct (prepareJob o) as [[|ws|e0]|] eqn:Hpj; simpl;
    try (rewrite app_nil_r; done).
  2: { destruct (prepare_fetched (obj_desc o) err path) as [d e]. simpl.
       rewrite app_nil_r. eapply job_inv_ext; [..|exact Hinv]; try done.
       unfold body_waits. simpl. by rewrite Hpj. }
  destruct (prepare_fetched (obj_desc o) err path) as [d e].
  simpl.
  destruct (job_inv_waiting _ _ _ Hinv) as [Hw|(Hw & Hjob & Hne & Hph & Hs & Hi & Hd)].
  - apply prepare_deliver_others_inv.
    + unfold body_waits in Hw. rewrite Hpj in Hw. by apply nil_length_inv.
    + eapply job_inv_ext; [..|exact Hinv]; try done.
  - apply prepare_deliver_body_inv; try done.
    unfold body_waits in Hw. by rewrite Hpj in Hw.
Qed.

(** The second step of [install] on a descriptor. *)
Lemma install_job_inv o packageId n evs demands :
  job_inv o evs demands →
  job_inv (install_job o packageId n).1
    (evs ++ (install_job o packageId n).2) (demands ++ [n]).
Proof.
  intros Hinv. unfold install_job, job_inv in *.
  destruct (installJob o) as [[|ws|e]|] eqn:Hjob; [done| | |].
  - destruct Hinv as (-> & Hne & Hs & Hd & Hph). simpl.
    rewrite Hjob. simpl. rewrite app_nil_r.
    split; [done|]. split; [by destruct demands|]. done.
  - destruct Hinv as (Hph & Hw & Hne & Hs & Hi & Hd). simpl.
    rewrite Hjob. simpl.
    tally. rewrite Hs, Hd, map_app.
    repeat split; try done; [by destruct demands|].
    change (source_installs [EvDone n e]) with 0. lia.
  - destruct Hinv as (Hph & Hw & (Hs & Hi & Hd) & ->). simpl.
    match goal with
    | |- context [prepare ?o' CbInstallBody] =>
        pose proof (prepare_body_inv o' (evs ++ [EvJobStart]) [n]) as Hp;
        destruct (prepare o' CbInstallBody) as [o3 evs']
    end.
    simpl in *.
    replace (evs ++ EvJobStart :: evs') with ((evs ++ [EvJobStart]) ++ evs')
      by (by rewrite <- app_assoc).
    apply Hp; try done.
    + by rewrite job_starts_app, Hs.
    + by rewrite source_installs_app, Hi.
    + by rewrite dones_app, Hd.
Qed.

(** The callbacks the install body waits for after staging. *)
Lemma dependenciesInstalled_inv o err evs demands :
  obj_phase o = InstallingDependencies →
  job_inv o evs demands →
  job_inv (dependenciesInstalled o err).1
    (evs ++ (dependenciesInstalled o err).2) demands.
Proof.
  intros Hph Hinv. unfold dependenciesInstalled.
  unfold job_inv in Hinv. rewrite Hph in Hinv.
  destruct (installJob o) as [[|ws|e]|] eqn:Hjob;
    [done| |by destruct Hinv|by destruct Hinv].
  destruct Hinv as (-> & Hne & Hs & Hd & Hw & Hi).
  unfold chain_aborts, CORE_err. destruct (truthy err).
  - apply install_done_inv; try done. lia.
  - unfold job_inv. simpl. rewrite Hjob.
    tally. rewrite Hs, Hi, Hd. done.
Qed.

Lemma packageLoaded_inv o err pkg evs demands :
  obj_phase o = Loading →
  job_inv o evs demands →
  job_inv (packageLoaded o err pkg).1
    (evs ++ (packageLoaded o err pkg).2) demands.
Proof.
  intros Hph Hinv. unfold packageLoaded.
  pose proof Hinv as Hinv'.
  unfold job_inv in Hinv. rewrite Hph in Hinv.
  destruct (installJob o) as [[|ws|e]|] eqn:Hjob;
    [done| |by destruct Hinv|by destruct Hinv].
  destruct Hinv as (-> & Hne & Hs & Hd & Hw & Hi).
  match goal with
  | |- context [truthy ?e] => destruct (truthy e)
  end.
  - apply install_done_inv; try done. lia.
  - destruct pkg as [p|]; simpl.
    + unfold job_inv. simpl. rewrite Hjob.
      tally. rewrite Hs, Hi, Hd. done.
    + by rewrite app_nil_r.
Qed.

Lemma sourceInstalled_inv o err evs demands :
  obj_phase o = Installing →
  job_inv o evs demands →
  job_inv (sourceInstalled o err).1
    (evs ++ (sourceInstalled o err).2) demands.
Proof.
  intros Hph Hinv. unfold sourceInstalled.
  unfold job_inv in Hinv. rewrite Hph in Hinv.
  destruct (installJob o) as [[|ws|e]|] eqn:Hjob;
    [done| |by destruct Hinv|by destruct Hinv].
  destruct Hinv as (-> & Hne & Hs & Hd & Hw & Hi).
  destruct (truthy err).
  - apply install_done_inv; try done. lia.
  - destruct (desc_remote (obj_desc o)) as [r|].
    + unfold job_inv. simpl. rewrite Hjob.
      tally. rewrite Hs, Hi, Hd. done.
    + apply install_done_inv; try done. lia.
Qed.

Lemma cleanedUp_inv o err evs demands :
  obj_phase o = Cleaning →
  job_inv o evs demands →
  job_inv (cleanedUp o err).1 (evs ++ (cleanedUp o err).2) demands.
Proof.
  intros Hph Hinv. unfold cleanedUp.
  unfold job_inv in Hinv. rewrite Hph in Hinv.
  destruct (installJob o) as [[|ws|e]|] eqn:Hjob;
    [done| |by destruct Hinv|by destruct Hinv].
  destruct Hinv as (-> & Hne & Hs & Hd & Hw & Hi).
  apply install_done_inv; try done. lia.
Qed.

(** Every input on a descriptor object keeps the invariant. *)
Lemma object_step_inv o i evs demands :
  job_inv o evs demands →
  job_inv (object_step o i).1 (evs ++ (object_step o i).2)
    (demands ++ demand_of i).
Proof.
  intros Hinv. destruct i as [[n|]|packageId n|err path|err|err pkg|err|err];
    cbn [object_step demand_of]; rewrite ?app_nil_r.
  - by apply prepare_other_inv.
  - by apply prepare_other_inv.
  - by apply install_job_inv.
  - by apply fetched_inv.
  - destruct (obj_phase o) eqn:Hph; try (simpl; by rewrite app_nil_r).
    by apply dependenciesInstalled_inv.
  - destruct (obj_phase o) eqn:Hph; try (simpl; by rewrite app_nil_r).
    by apply packageLoaded_inv.
  - destruct (obj_phase o) eqn:Hph; try (simpl; by rewrite app_nil_r).
    by apply sourceInstalled_inv.
  - destruct (obj_phase o) eqn:Hph; try (simpl; by rewrite app_nil_r).
    by apply cleanedUp_inv.
Qed.

(** *** Sessions *)

Lemma events_of_app d tr1 tr2 :
  events_of d (tr1 ++ tr2) = events_of d tr1 ++ events_of d tr2.
Proof. unfold events_of. by rewrite filter_app, fmap_app. Qed.

Lemma events_of_tagged d i (evs : list event) :
  events_of d (map (pair i) evs) = if decide (i = d) then evs else [].
Proof.
  unfold events_of. induction evs as [|e evs IH].
  - by destruct (decide (i = d)).
  - change (map (pair i) (e :: evs)) with ((i, e) :: map (pair i) evs).
    destruct (decide (i = d)) as [Heq|Hne].
    + rewrite filter_cons_True by done. rewrite fmap_cons. by rewrite IH.
    + rewrite filter_cons_False by done. done.
Qed.

Lemma demands_of_snoc d ins x :
  demands_of d (ins ++ [x]) =
    demands_of d ins ++ (if decide (x.1 = d) then demand_of x.2 else []).
Proof.
  unfold demands_of. rewrite omap_app. f_equal. simpl.
  destruct x as [i [| | | | | |]]; simpl; destruct (decide (i = d)); done.
Qed.

Lemma session_run_snoc heap ins x :
  session_run heap (ins ++ [x]) = session_step (session_run heap ins) x.
Proof. unfold session_run. by rewrite foldl_app. Qed.



End JobProperties.

Section CommandProperties.

Context {pf : Platform}.

(** While the preference is unset [installDependencies] installs nothing,
    whatever the origin of the descriptor, and records the default. *)
Lemma installDependencies_unset ctx desc :
  includeDependencies ctx = None →
  installDependencies ctx desc =
    (set_includeDependencies ctx (Some (is_remote (desc_location desc))),
     None).
Proof. intros H. unfold installDependencies. by rewrite H. Qed.

(** Whenever [invoke] starts the chain it has signalled success by the
    time it returns. *)
Lemma invoke_started st sources src :
  (invoke st sources).2 = Some src →
  ∃ started, (invoke st sources).1 = started ++ [IvDone None].
Proof.
  unfold invoke. repeat case_match; try done.
  - intros _. by eexists.
  - intros _. by eexists.
Qed.

End CommandProperties.

Section SelectionProperties.

Context {sv : Semver}.

(** The loop of [descriptorFor] only ever keeps descriptors it met and
    that qualify. *)
Lemma descriptorFor_fold_sound version exact l :
  ∀ acc d,
    foldl (descriptorFor_step version exact) acc l = Some d →
    (d ∈ l ∧ qualifies version exact d = true) ∨ acc = Some d.
Proof.
  induction l as [|cur l IH]; intros acc d Hd; simpl in Hd; [by right|].
  destruct (IH _ _ Hd) as [[Hin Hq]|Hstep].
  - left. split; [by right|done].
  - unfold descriptorFor_step in Hstep. fold (competes version exact cur) in Hstep.
    unfold qualifies. fold (competes version exact d).
    destruct (competes version exact cur) eqn:Hc.
    + destruct acc as [r|].
      * destruct (semver_compare (desc_version r) (desc_version cur) <? 0)%Z;
          [|by right].
        injection Hstep as <-. left. split; [by left|by rewrite Hc].
      * injection Hstep as <-. left. split; [by left|by rewrite Hc].
    + case_bool_decide as Heq; [|by right].
      injection Hstep as <-. left. split; [by left|].
      rewrite bool_decide_eq_true_2 by done. apply orb_true_r.
Qed.

(** A descriptor found in the cache is cached under the requested id and
    qualifies for the request. *)
Lemma descriptorFor_found ctx packageId version exact d :
  descriptorFor ctx packageId version exact = Some (LFound d) →
  (∃ l, descriptors ctx !! packageId = Some l ∧ d ∈ l)
  ∧ qualifies version exact d = true
  ∧ (well_keyed ctx → desc_name d = packageId).
Proof.
  intros Hd. apply descriptorFor_LFound in Hd as (l & Hl & Hf).
  destruct (descriptorFor_fold_sound _ _ _ _ _ Hf) as [[Hin Hq]|?]; [|done].
  split; [by exists l|]. split; [done|].
  intros Hwk. by eapply Hwk.
Qed.

(** X1: whatever the mode, a descriptor that [descriptorFor] returns is
    one of the cached descriptors of the requested id and qualifies for
    the request: there is no constraint, or it is compatible with the
    constraint and exact is off, or its version is the constraint
    verbatim.  In a well-keyed cache it bears the requested id. *)
Theorem descriptorFor_sound ctx packageId version exact d :
  descriptorFor ctx packageId version exact = Some (LFound d) →
  (∃ l, descriptors ctx !! packageId = Some l ∧ d ∈ l)
  ∧ qualifies version exact d = true
  ∧ (well_keyed ctx → desc_name d = packageId).
Proof. exact (descriptorFor_found ctx packageId version exact d). Qed.

(** Strict comparison composes, in the order [SEMVER.compare] is trusted
    to implement. *)
Lemma compare_below `{!SemverOrder} a b c :
  (0 <= semver_compare a b)%Z → (semver_compare a c < 0)%Z →
  (semver_compare b c < 0)%Z.
Proof.
  intros Hab Hac.
  destruct (Z.lt_ge_cases (semver_compare b c) 0) as [?|Hbc]; [done|].
  pose proof (compare_trans a b c Hab Hbc). lia.
Qed.

(** When no cached descriptor reaches the second branch of the loop with
    the constraint as its version, the loop keeps the first of the
    highest-versioned competing descriptors. *)
Lemma descriptorFor_fold_first_highest `{!SemverOrder} version exact l :
  ∀ seen acc,
    (∀ cur, cur ∈ l → competes version exact cur = false →
            Some (desc_version cur) ≠ version) →
    match acc with
    | None => ∀ d, d ∈ seen → competes version exact d = false
    | Some r => ∃ i, first_highest version exact seen i r
    end →
    match foldl (descriptorFor_step version exact) acc l with
    | None => ∀ d, d ∈ seen ++ l → competes version exact d = false
    | Some r => ∃ i, first_highest version exact (seen ++ l) i r
    end.
Proof.
  induction l as [|cur l IH]; intros seen acc Hneq Hacc; simpl.
  { by rewrite app_nil_r. }
  replace (seen ++ cur :: l) with ((seen ++ [cur]) ++ l)
    by (by rewrite <- app_assoc).
  apply IH; [intros c Hc; apply Hneq; by right|].
  unfold descriptorFor_step. fold (competes version exact cur).
  destruct (competes version exact cur) eqn:Hc.
  - destruct acc as [r|].
    + destruct Hacc as (i & Hi & Hr & Hmax & Hfirst).
      destruct (semver_compare (desc_version r) (desc_version cur) <? 0)%Z
        eqn:Hlt.
      * apply Z.ltb_lt in Hlt. exists (length seen).
        split; [by rewrite lookup_app_r, Nat.sub_diag by lia|].
        split; [done|]. split.
        -- intros d' Hd' Hcd'. apply elem_of_app in Hd' as [Hd'|Hd'].
           ++ eapply compare_trans; [by apply compare_total|by apply Hmax].
           ++ apply list_elem_of_singleton in Hd' as ->. apply compare_refl.
        -- intros j d' Hj Hd' Hcd'. rewrite lookup_app_l in Hd' by done.
           eapply compare_below; [|exact Hlt].
           apply Hmax; [|done]. by eapply list_elem_of_lookup_2.
      * apply Z.ltb_ge in Hlt. exists i.
        split; [by apply lookup_app_l_Some|]. split; [done|]. split.
        -- intros d' Hd' Hcd'. apply elem_of_app in Hd' as [Hd'|Hd'];
             [by apply Hmax|].
           by apply list_elem_of_singleton in Hd' as ->.
        -- intros j d' Hj Hd' Hcd'.
           apply lookup_lt_Some in Hi as Hilt.
           rewrite lookup_app_l in Hd' by lia. by eapply Hfirst.
    + exists (length seen).
      split; [by rewrite lookup_app_r, Nat.sub_diag by lia|].
      split; [done|]. split.
      * intros d' Hd' Hcd'. apply elem_of_app in Hd' as [Hd'|Hd'].
        -- rewrite (Hacc d' Hd') in Hcd'. done.
        -- apply list_elem_of_singleton in Hd' as ->. apply compare_refl.
      * intros j d' Hj Hd' Hcd'. rewrite lookup_app_l in Hd' by done.
        rewrite (Hacc d') in Hcd'; [done|]. by eapply list_elem_of_lookup_2.
  - rewrite bool_decide_eq_false_2
      by (apply Hneq; [by left|done]).
    destruct acc as [r|].
    + destruct Hacc as (i & Hi & Hr & Hmax & Hfirst). exists i.
      split; [by apply lookup_app_l_Some|]. split; [done|]. split.
      * intros d' Hd' Hcd'. apply elem_of_app in Hd' as [Hd'|Hd'];
          [by apply Hmax|].
        apply list_elem_of_singleton in Hd' as ->. congruence.
      * intros j d' Hj Hd' Hcd'.
        apply lookup_lt_Some in Hi as Hilt.
        rewrite lookup_app_l in Hd' by lia. by eapply Hfirst.
    + intros d Hd. apply elem_of_app in Hd as [Hd|Hd]; [by apply Hacc|].
      by apply list_elem_of_singleton in Hd as ->.
Qed.

(** X2: selection among competing descriptors.  When a cached descriptor
    of the id competes (there is no constraint, or exact is off and it is
    compatible), and none of the others bears the constraint verbatim as
    its version, [descriptorFor] returns the first, in insertion order,
    of the highest-versioned competing descriptors: a descriptor inserted
    later never displaces an earlier one of the same version. *)
Theorem descriptorFor_first_highest `{!SemverOrder} ctx packageId version
    exact l :
  descriptors ctx !! packageId = Some l →
  (∀ cur, cur ∈ l → competes version exact cur = false →
          Some (desc_version cur) ≠ version) →
  (∃ cur, cur ∈ l ∧ competes version exact cur = true) →
  ∃ i d, descriptorFor ctx packageId version exact = Some (LFound d) ∧
         first_highest version exact l i d.
Proof.
  intros Hl Hneq (cur & Hcur & Hc). rewrite (descriptorFor_own _ _ _ _ l Hl).
  pose proof (descriptorFor_fold_first_highest version exact l [] None Hneq)
    as Hfold.
  simpl in Hfold.
  destruct (foldl (descriptorFor_step version exact) None l) as [d|].
  - destruct Hfold as [i Hi]; [intros d' Hd'; by apply elem_of_nil in Hd'|].
    by exists i, d.
  - rewrite Hfold in Hc; [done| |done].
    intros d' Hd'. by apply elem_of_nil in Hd'.
Qed.

(** With a constraint and exact=true the loop keeps the last descriptor
    whose version is the constraint. *)
Lemma descriptorFor_fold_last v l :
  v ≠ "" →
  ∀ seen acc,
    match acc with
    | None => ∀ d, d ∈ seen → desc_version d ≠ v
    | Some r =>
        ∃ i, seen !! i = Some r ∧ desc_version r = v ∧
             ∀ j d', i < j → seen !! j = Some d' → desc_version d' ≠ v
    end →
    match foldl (descriptorFor_step (Some v) true) acc l with
    | None => ∀ d, d ∈ seen ++ l → desc_version d ≠ v
    | Some r =>
        ∃ i, (seen ++ l) !! i = Some r ∧ desc_version r = v ∧
             ∀ j d', i < j → (seen ++ l) !! j = Some d' → desc_version d' ≠ v
    end.
Proof.
  intros Hv. induction l as [|cur l IH]; intros seen acc Hacc; simpl.
  { by rewrite app_nil_r. }
  replace (seen ++ cur :: l) with ((seen ++ [cur]) ++ l)
    by (by rewrite <- app_assoc).
  apply IH.
  assert (Hstep : descriptorFor_step (Some v) true acc cur =
                  if bool_decide (Some (desc_version cur) = Some v)
                  then Some cur else acc).
  { unfold descriptorFor_step. simpl.
    destruct (String.eqb v "") eqn:E; [by apply String.eqb_eq in E|done]. }
  rewrite Hstep. case_bool_decide as Hc.
  - injection Hc as Hc. exists (length seen).
    split; [by rewrite lookup_app_r, Nat.sub_diag by lia|]. split; [done|].
    intros j d' Hj Hd'. apply lookup_lt_Some in Hd'.
    rewrite length_app in Hd'. simpl in Hd'. lia.
  - assert (Hcur : desc_version cur ≠ v) by congruence.
    destruct acc as [r|].
    + destruct Hacc as (i & Hi & Hr & Hlast). exists i.
      split; [by apply lookup_app_l_Some|]. split; [done|].
      intros j d' Hj Hd'.
      destruct (decide (j < length seen)) as [Hlt|Hge].
      * rewrite lookup_app_l in Hd' by done. by eapply Hlast.
      * rewrite lookup_app_r in Hd' by lia.
        apply list_lookup_singleton_Some in Hd' as [_ <-]. done.
    + intros d Hd. apply elem_of_app in Hd as [Hd|Hd]; [by apply Hacc|].
      by apply list_elem_of_singleton in Hd as ->.
Qed.

(** X3: with a constraint and exact=true, [descriptorFor] returns the
    cached descriptor of the id, among those whose version is the
    constraint, that was inserted last. *)
Theorem descriptorFor_exact_last ctx packageId v l :
  v ≠ "" →
  descriptors ctx !! packageId = Some l →
  (∃ cur, cur ∈ l ∧ desc_version cur = v) →
  ∃ i d, descriptorFor ctx packageId (Some v) true = Some (LFound d) ∧
         l !! i = Some d ∧ desc_version d = v ∧
         ∀ j d', i < j → l !! j = Some d' → desc_version d' ≠ v.
Proof.
  intros Hv Hl (cur & Hcur & Hver). rewrite (descriptorFor_own _ _ _ _ l Hl).
  pose proof (descriptorFor_fold_last v l Hv [] None) as Hfold.
  simpl in Hfold.
  destruct (foldl (descriptorFor_step (Some v) true) None l) as [d|].
  - destruct Hfold as (i & Hi); [intros d' Hd'; by apply elem_of_nil in Hd'|].
    by exists i, d.
  - exfalso. eapply Hfold; [|exact Hcur|exact Hver].
    intros d' Hd'. by apply elem_of_nil in Hd'.
Qed.

(** X4: insert then look up.  Whatever the cache holds and whatever
    [overlay] is, an insertion under a name that an array is filed under
    already, or that is no property of [Object.prototype], succeeds, and
    right after it an exact lookup of the name and version of the
    inserted descriptor returns that very descriptor.  Under any other
    name (such as "toString" in a cache that files nothing under it)
    [addDescriptor] raises a TypeError. *)
Theorem addDescriptor_then_descriptorFor ctx desc overlay :
  desc_version desc ≠ "" →
  (pushable ctx (desc_name desc) = true →
   ∃ b ctx',
     addDescriptor ctx desc overlay = Some (b, ctx') ∧
     descriptorFor ctx' (desc_name desc) (Some (desc_version desc)) true
     = Some (LFound desc))
  ∧ (pushable ctx (desc_name desc) = false →
     addDescriptor ctx desc overlay = None).
Proof.
  intros Hv. split; [|apply addDescriptor_raises].
  intros Hpush. rewrite addDescriptor_appends by done.
  eexists _, _. split; [done|].
  erewrite descriptorFor_own; [|simpl; apply lookup_insert_eq].
  rewrite foldl_app. simpl.
  unfold descriptorFor_step at 1. simpl.
  destruct (String.eqb (desc_version desc) "") eqn:E;
    [by apply String.eqb_eq in E|].
  simpl. by rewrite bool_decide_eq_true_2.
Qed.

End SelectionProperties.

Section ResolutionProperties.

Context {sv : Semver} {pf : Platform}.

(** X5: the effects of [findDescriptor], spelled out.  A run that
    returns on a cache miss reports no error; it has asked an initial
    segment of the remotes and its effects are, for each remote asked and
    in this order, the list query, then a warning when the remote
    reported an error, else one fetch per package listed; the cache
    afterwards is the cache before with the listings of the remotes asked
    merged into it; the result is what [descriptorFor] selects in that
    cache; and no descriptor is returned only when every remote was
    asked.  The call returns unless the first lookup raises, which makes
    the call raise, or the insertion of a listed package does, which
    cannot happen when no listed name is a property of
    [Object.prototype]. *)
Theorem findDescriptor_effects ctx packageId version exact :
  let opts := findDescriptor_opts packageId version exact in
  (∀ r0 ctx' res evs,
     descriptorFor ctx packageId version exact = Some r0 →
     found r0 = false →
     findDescriptor ctx packageId version exact = Some (ctx', res, evs) →
     ∃ n, res.1 = None
       ∧ n ≤ length (remotes ctx)
       ∧ evs = concat (visit_events opts <$> take n (indexed 0 (remotes ctx)))
       ∧ cache_after opts (take n (indexed 0 (remotes ctx))) ctx = Some ctx'
       ∧ descriptorFor ctx' packageId version exact = Some res.2
       ∧ (found res.2 = false → n = length (remotes ctx)))
  ∧ (is_Some (descriptorFor ctx packageId version exact) →
     listings_plain opts (remotes ctx) →
     is_Some (findDescriptor ctx packageId version exact))
  ∧ (descriptorFor ctx packageId version exact = None →
     findDescriptor ctx packageId version exact = None).
Proof.
  intros opts. split; [|split].
  - intros r0 ctx' res evs Hsel Hmiss Hrun.
    destruct (findDescriptor_spec _ _ _ _ _ _ _ Hrun)
      as (r0' & n & Hsel' & Herr & Hn & Hevs & Hcache & Hres & _ & Hall & _).
    rewrite Hsel in Hsel'. injection Hsel' as <-.
    exists n. split; [done|]. split; [done|]. split; [done|].
    split; [done|]. split; [done|]. by apply Hall.
  - apply findDescriptor_returns.
  - intros Hsel. unfold findDescriptor. by rewrite Hsel.
Qed.

Lemma fetch_visit_events opts k rem r pinfo :
  EvFetch r pinfo ∈ visit_events opts (k, rem) ↔
  r = k ∧ truthy (r_list rem opts).1 = false ∧
  ∃ response p, (r_list rem opts).2 = Some response ∧ p ∈ response ∧
                pinfo = Some p.
Proof.
  unfold visit_events. cbn [fst snd]. rewrite elem_of_cons.
  destruct (truthy (r_list rem opts).1).
  - split.
    + intros [?|Hin]; [done|]. by apply list_elem_of_singleton in Hin.
    + by intros (_ & ? & _).
  - destruct (r_list rem opts).2 as [response|].
    + split.
      * intros [?|Hin]; [done|].
        apply list_elem_of_fmap in Hin as (p & [= -> ->] & Hp).
        split; [done|]. split; [done|]. by exists response, p.
      * intros (-> & _ & response' & p & [= <-] & Hp & ->).
        right. apply list_elem_of_fmap. by exists p.
    + split.
      * intros [?|Hin]; [done|]. by apply elem_of_nil in Hin.
      * by intros (_ & _ & ? & ? & ? & _).
Qed.

(** X6: what [findDescriptor] fetches.  On a run that returns, a fetch
    was sent to a remote for a package exactly when that remote was asked
    for its list, reported no error, and listed that package: every
    package listed is fetched speculatively, and nothing else ever is. *)
Theorem findDescriptor_fetches_listed ctx packageId version exact ctx' res
    evs r pinfo :
  findDescriptor ctx packageId version exact = Some (ctx', res, evs) →
  let opts := findDescriptor_opts packageId version exact in
  EvFetch r pinfo ∈ evs ↔
  r ∈ list_queries evs ∧
  ∃ rem response p,
    remotes ctx !! r = Some rem ∧ truthy (r_list rem opts).1 = false ∧
    (r_list rem opts).2 = Some response ∧ p ∈ response ∧ pinfo = Some p.
Proof.
  intros Hrun opts.
  destruct (findDescriptor_spec _ _ _ _ _ _ _ Hrun)
    as (r0 & n & _ & _ & Hn & -> & _).
  fold opts. rewrite list_queries_asked by done.
  rewrite elem_of_seq, elem_of_concat. split.
  - intros (vevs & Hin & Hvevs).
    apply list_elem_of_fmap in Hvevs as ([k rem] & -> & Hk).
    rewrite indexed_take in Hk.
    apply indexed_elem_of in Hk as [_ Hk]. rewrite Nat.sub_0_r in Hk.
    apply fetch_visit_events in Hin
      as (-> & Herr & response & p & Hresp & Hp & ->).
    apply lookup_take_Some in Hk as [Hk Hlt].
    split; [lia|]. by exists rem, response, p.
  - intros (Hlt & rem & response & p & Hrem & Herr & Hresp & Hp & ->).
    exists (visit_events opts (r, rem)). split.
    + apply fetch_visit_events. split; [done|]. split; [done|].
      by exists response, p.
    + apply list_elem_of_fmap. exists (r, rem). split; [done|].
      rewrite indexed_take.
      apply indexed_elem_of. split; [lia|]. rewrite Nat.sub_0_r.
      apply lookup_take_Some. split; [done|lia].
Qed.

(** X7: what [findDescriptor] asks.  Every list query names the requested
    package id and carries the requested version as it was given, and it
    asks for an exact match only when a non-empty version was given
    together with exact: without a version constraint the remotes are
    never asked for an exact match. *)
Theorem findDescriptor_queries ctx packageId version exact ctx' res evs r
    opts :
  findDescriptor ctx packageId version exact = Some (ctx', res, evs) →
  EvList r opts ∈ evs →
  q_name opts = packageId ∧ q_version opts = version ∧
  q_exact opts = (if truthy version && exact then "true" else "false").
Proof.
  intros Hrun Hin.
  destruct (findDescriptor_spec _ _ _ _ _ _ _ Hrun)
    as (r0 & n & _ & _ & _ & -> & _).
  rewrite (list_elem_of_asked _ _ _ _ Hin). unfold findDescriptor_opts. simpl.
  split; [done|]. split; [done|].
  by destruct (truthy version), exact.
Qed.

(** *** The cache through resolution *)

Lemma cache_extends_refl ctx : cache_extends ctx ctx.
Proof.
  repeat split. intros k l Hl. exists []. by rewrite app_nil_r.
Qed.

Lemma cache_extends_trans ctx1 ctx2 ctx3 :
  cache_extends ctx1 ctx2 → cache_extends ctx2 ctx3 → cache_extends ctx1 ctx3.
Proof.
  intros (Hs1 & Hr1 & Hi1 & Hd1) (Hs2 & Hr2 & Hi2 & Hd2).
  split; [congruence|]. split; [congruence|]. split; [congruence|].
  intros k l Hl. destruct (Hd1 k l Hl) as [l1 Hl1].
  destruct (Hd2 k _ Hl1) as [l2 Hl2]. exists (l1 ++ l2).
  by rewrite app_assoc.
Qed.

Lemma addDescriptor_extends ctx desc overlay b ctx' :
  addDescriptor ctx desc overlay = Some (b, ctx') → cache_extends ctx ctx'.
Proof.
  intros Hadd. apply addDescriptor_Some in Hadd as (_ & _ & ->).
  repeat split.
  intros k l Hl. simpl. destruct (decide (desc_name desc = k)) as [<-|Hne].
  - rewrite lookup_insert_eq, Hl. by exists [desc].
  - rewrite lookup_insert_ne by done. exists []. by rewrite app_nil_r.
Qed.

Lemma addDescriptor_well_keyed ctx desc overlay b ctx' :
  well_keyed ctx →
  addDescriptor ctx desc overlay = Some (b, ctx') → well_keyed ctx'.
Proof.
  intros Hwk Hadd. apply addDescriptor_Some in Hadd as (_ & _ & ->).
  intros k l d. simpl.
  destruct (decide (desc_name desc = k)) as [<-|Hne].
  - rewrite lookup_insert_eq. intros [= <-] Hd.
    apply elem_of_app in Hd as [Hd|Hd].
    + destruct (descriptors ctx !! desc_name desc) as [l0|] eqn:Hl0;
        [by eapply Hwk|by apply elem_of_nil in Hd].
    + by apply list_elem_of_singleton in Hd as ->.
  - rewrite lookup_insert_ne by done. apply Hwk.
Qed.

(** What every insertion keeps, the merge of listings keeps. *)
Lemma cache_after_ind (P : context → Prop) opts :
  (∀ ctx desc overlay b ctx',
     P ctx → addDescriptor ctx desc overlay = Some (b, ctx') → P ctx') →
  ∀ rs ctx ctx', P ctx → cache_after opts rs ctx = Some ctx' → P ctx'.
Proof.
  intros HP.
  assert (Hadd : ∀ r response ctx evs out,
            P ctx →
            foldl (findDescriptor_add r) (Some (ctx, evs)) response = Some out →
            P out.1).
  { intros r. induction response as [|pinfo response IH];
      intros ctx evs out Hctx; cbn [foldl].
    - by intros [= <-].
    - destruct (findDescriptor_add r (Some (ctx, evs)) pinfo)
        as [[ctx1 evs1]|] eqn:Hstep; [|by rewrite findDescriptor_add_None].
      apply findDescriptor_add_Some in Hstep as (_ & b & Ha).
      apply IH. by eapply HP. }
  assert (Hmerge : ∀ r ctx ctx1,
            P ctx → merge_listing opts r ctx = Some ctx1 → P ctx1).
  { intros r ctx ctx1 Hctx. unfold merge_listing.
    destruct (r_list r.2 opts) as [err [response|]]; [|by intros [= <-]].
    destruct (truthy err); [by intros [= <-]|].
    destruct (foldl _ _ response) as [out|] eqn:Hf; [|done].
    intros [= <-]. by eapply Hadd. }
  induction rs as [|r rs IH]; intros ctx ctx' Hctx.
  - by intros [= <-].
  - destruct (merge_listing opts r ctx) as [ctx1|] eqn:Hm.
    + rewrite (cache_after_cons _ _ _ _ _ Hm). apply IH. by eapply Hmerge.
    + change (cache_after opts (r :: rs) ctx)
        with (foldl (λ acc r0, acc ≫= merge_listing opts r0)
                (merge_listing opts r ctx) rs).
      rewrite Hm. intros Hnone. exfalso. clear -Hnone.
      induction rs as [|r' rs IHrs]; [done|]. by apply IHrs.
Qed.

(** What every insertion keeps, the first step of [install] keeps. *)
Lemma install_resolve_ind (P : context → Prop) ctx packageId version exact
    out :
  (∀ ctx desc overlay b ctx',
     P ctx → addDescriptor ctx desc overlay = Some (b, ctx') → P ctx') →
  P ctx →
  install_resolve ctx packageId version exact = Some out → P out.1.1.
Proof.
  intros HP Hctx. unfold install_resolve.
  destruct (looksLikePath packageId).
  - unfold loadDescriptor, loadDescriptor_with.
    destruct (packageFor (path_normalize packageId)) as [err pkg].
    destruct (truthy err); [by intros [= <-]|].
    destruct pkg as [pkg|]; [|done].
    destruct (addDescriptor ctx (buildDescriptorFromPackage pkg) true)
      as [[b c]|] eqn:Ha; [|done].
    intros [= <-]. by eapply HP.
  - destruct out as [[c res] t]. intros Hrun.
    destruct (findDescriptor_spec _ _ _ _ _ _ _ Hrun)
      as (_ & n & _ & _ & _ & _ & Hcache & _).
    by eapply cache_after_ind.
Qed.

(** X8: resolution only adds to the cache.  Whatever [install] resolves,
    every array of the cache afterwards begins with the array it was
    before: no cached descriptor is removed, replaced or moved; and the
    source, the remotes and the dependency preference of the context are
    left as they were. *)
Theorem install_extends_cache ctx packageId version exact force done ctx'
    evs next done' :
  install ctx packageId version exact force done =
    Some (ctx', evs, next, done') →
  cache_extends ctx ctx'.
Proof.
  unfold install. destruct (install_arguments force done) as [_ d].
  destruct (install_resolve ctx packageId version exact) as [[[c res] t]|]
    eqn:Hres; [|done].
  intros [= <- _ _ _].
  apply (install_resolve_ind (cache_extends ctx) _ _ _ _ _
           (λ c1 desc ov b c2 H1 H2,
              cache_extends_trans _ _ _ H1 (addDescriptor_extends _ _ _ _ _ H2))
           (cache_extends_refl ctx) Hres).
Qed.

(** Resolution files every descriptor it adds under the name of that
    descriptor. *)
Lemma install_well_keyed ctx packageId version exact force done ctx'
    evs next done' :
  well_keyed ctx →
  install ctx packageId version exact force done =
    Some (ctx', evs, next, done') →
  well_keyed ctx'.
Proof.
  intros Hwk. unfold install. destruct (install_arguments force done) as [_ d].
  destruct (install_resolve ctx packageId version exact) as [[[c res] t]|]
    eqn:Hres; [|done].
  intros [= <- _ _ _].
  apply (install_resolve_ind well_keyed _ _ _ _ _
           (λ c1 desc ov b c2 H1 H2,
              addDescriptor_well_keyed _ _ _ _ _ H1 H2) Hwk Hres).
Qed.

(** X9: resolution keeps the cache well keyed.  If every cached descriptor
    is filed under its own name before [install] resolves its argument,
    it is so afterwards, whatever names the remotes put in their
    listings. *)
Theorem install_keeps_well_keyed ctx packageId version exact force done ctx'
    evs next done' :
  well_keyed ctx →
  install ctx packageId version exact force done =
    Some (ctx', evs, next, done') →
  well_keyed ctx'.
Proof. exact (install_well_keyed ctx packageId version exact force done ctx' evs next done'). Qed.

(** *** What [install] goes on with *)

(** [install] on a package identifier, by what [findDescriptor] does. *)
Lemma install_identifier ctx packageId version exact force done :
  looksLikePath packageId = false →
  install ctx packageId version exact force done =
    match findDescriptor ctx packageId version exact with
    | None => None
    | Some (ctx', res, evs) =>
        Some (ctx', evs, install_continue packageId res,
              (install_arguments force done).2)
    end.
Proof.
  intros Hpath. unfold install, install_resolve. rewrite Hpath.
  by destruct (install_arguments force done).
Qed.

(** [install] on a path, by what [loadDescriptor] does. *)
Lemma install_path ctx packageId version exact force done :
  looksLikePath packageId = true →
  install ctx packageId version exact force done =
    match loadDescriptor ctx packageId with
    | None => None
    | Some (ctx', res, evs) =>
        Some (ctx', evs, install_continue packageId res,
              (install_arguments force done).2)
    end.
Proof.
  intros Hpath. unfold install, install_resolve. rewrite Hpath.
  by destruct (install_arguments force done).
Qed.

(** X10: how [install] goes on after resolution.  For a package
    identifier, a resolution that returns never reports an error:
    [install] either goes on with a descriptor or reports "<id> not
    found"; it returns unless the first lookup raises (the identifier
    names a function of [Object.prototype] and a version is given), which
    makes [install] raise, or the insertion of a listed package does,
    which cannot happen when no listed name is a property of
    [Object.prototype].  A path never ends in "not found": when loading
    the package reports an error, [install] aborts with that error and
    leaves the context as it was; when it reports neither an error nor a
    package, [install] raises; when it reports a package, [install] goes
    on with the descriptor built from it, unless the name of the package
    reads an inherited property of the cache, for which it raises. *)
Theorem install_outcomes ctx packageId version exact force done :
  let opts := findDescriptor_opts packageId version exact in
  let loaded := packageFor (path_normalize packageId) in
  let evs0 := [EvLoadPackage (Some (path_normalize packageId))] in
  let done0 := (install_arguments force done).2 in
  (looksLikePath packageId = false →
   (∀ ctx' evs next done',
      install ctx packageId version exact force done =
        Some (ctx', evs, next, done') →
      done' = done0
      ∧ ((∃ desc, next = Demand desc) ∨
         next = NotFound (packageId +:+ " not found")))
   ∧ (is_Some (descriptorFor ctx packageId version exact) →
      listings_plain opts (remotes ctx) →
      is_Some (install ctx packageId version exact force done))
   ∧ (descriptorFor ctx packageId version exact = None →
      install ctx packageId version exact force done = None))
  ∧ (looksLikePath packageId = true →
     (truthy loaded.1 = true →
      install ctx packageId version exact force done =
        Some (ctx, evs0, Abort loaded.1, done0))
     ∧ (truthy loaded.1 = false → loaded.2 = None →
        install ctx packageId version exact force done = None)
     ∧ (∀ pkg,
          truthy loaded.1 = false → loaded.2 = Some pkg →
          (pushable ctx (pkg_name pkg) = true →
           ∃ ctx',
             install ctx packageId version exact force done =
               Some (ctx', evs0, Demand (buildDescriptorFromPackage pkg),
                     done0))
          ∧ (pushable ctx (pkg_name pkg) = false →
             install ctx packageId version exact force done = None))).
Proof.
  intros opts loaded evs0 done0. split; intros Hpath.
  - rewrite install_identifier by done. split; [|split].
    + intros ctx' evs next done'.
      destruct (findDescriptor ctx packageId version exact)
        as [[[c res] t]|] eqn:Hrun; [|done].
      intros [= <- <- <- <-]. split; [done|].
      destruct (findDescriptor_spec _ _ _ _ _ _ _ Hrun)
        as (_ & _ & _ & Herr & _).
      unfold install_continue, chain_aborts. rewrite Herr. cbn.
      destruct res.2; eauto.
    + intros Hsome Hplain.
      destruct (findDescriptor_returns _ _ _ _ Hsome Hplain)
        as [[[c res] t] ->].
      done.
    + intros Hsel. unfold findDescriptor. by rewrite Hsel.
  - rewrite install_path by done.
    unfold loadDescriptor, loadDescriptor_with. subst loaded.
    destruct (packageFor (path_normalize packageId)) as [err pkg].
    cbn [fst snd]. split; [|split].
    + intros Herr. rewrite Herr. unfold install_continue, chain_aborts.
      cbn [fst]. by rewrite Herr.
    + intros Herr ->. by rewrite Herr.
    + intros pkg' Herr ->. rewrite Herr. split; intros Hpush.
      * rewrite addDescriptor_appends by done. eexists.
        by unfold install_continue, chain_aborts.
      * by rewrite addDescriptor_raises.
Qed.

(** X11: the descriptor [install] goes on with is cached.  For a package
    identifier it is one of the descriptors cached under that identifier
    afterwards and it qualifies for the request; in a cache that was well
    keyed it bears the identifier as its name.  For a path it is the last
    descriptor cached under its own name, of local origin and without
    remote. *)
Theorem install_demand_cached ctx packageId version exact force done ctx' evs
    desc done' :
  install ctx packageId version exact force done =
    Some (ctx', evs, Demand desc, done') →
  (looksLikePath packageId = false →
   (∃ l, descriptors ctx' !! packageId = Some l ∧ desc ∈ l)
   ∧ qualifies version exact desc = true
   ∧ (well_keyed ctx → desc_name desc = packageId))
  ∧ (looksLikePath packageId = true →
     (∃ l, descriptors ctx' !! desc_name desc = Some (l ++ [desc]))
     ∧ desc_location desc = Local ∧ desc_remote desc = None).
Proof.
  intros Hrun. split; intros Hpath.
  - pose proof (λ H, install_well_keyed _ _ _ _ _ _ _ _ _ _ H Hrun)
      as Hwk.
    rewrite install_identifier in Hrun by done.
    destruct (findDescriptor ctx packageId version exact)
      as [[[c res] t]|] eqn:Hfind; [|done].
    injection Hrun as -> _ Hnext _.
    destruct (findDescriptor_spec _ _ _ _ _ _ _ Hfind)
      as (_ & _ & _ & Herr & _ & _ & _ & Hret & _).
    unfold install_continue, chain_aborts in Hnext. rewrite Herr in Hnext.
    cbn in Hnext.
    destruct res.2 as [| |desc']; try done. injection Hnext as ->.
    destruct (descriptorFor_found _ _ _ _ _ Hret) as (Hin & Hq & Hname).
    split; [done|]. split; [done|]. intros H. by apply Hname, Hwk.
  - rewrite install_path in Hrun by done.
    unfold loadDescriptor, loadDescriptor_with in Hrun.
    destruct (packageFor (path_normalize packageId)) as [err pkg].
    destruct (truthy err) eqn:Herr.
    + injection Hrun as _ _ Hnext _.
      unfold install_continue, chain_aborts in Hnext. simpl in Hnext.
      by rewrite Herr in Hnext.
    + destruct pkg as [pkg|]; [|done].
      destruct (addDescriptor ctx (buildDescriptorFromPackage pkg) true)
        as [[b c]|] eqn:Hadd; [|done].
      apply addDescriptor_Some in Hadd as (_ & _ & ->).
      injection Hrun as <- _ Hnext _.
      unfold install_continue, chain_aborts in Hnext. simpl in Hnext.
      assert (desc = buildDescriptorFromPackage pkg) as -> by congruence.
      split; [|done]. eexists. simpl. by rewrite lookup_insert_eq.
Qed.

(** *** No remote has the package *)

Lemma merge_listing_nothing opts r ctx :
  truthy (r_list r.2 opts).1 = true ∨ (r_list r.2 opts).2 = None ∨
  (r_list r.2 opts).2 = Some [] →
  merge_listing opts r ctx = Some ctx
  ∧ fetches (visit_events opts r) = 0.
Proof.
  unfold merge_listing, visit_events.
  destruct (r_list r.2 opts) as [err response]. simpl.
  intros [Herr|[->| ->]].
  - rewrite Herr. by destruct response.
  - by destruct (truthy err).
  - by destruct (truthy err).
Qed.

Lemma fetches_app evs1 evs2 :
  fetches (evs1 ++ evs2) = fetches evs1 + fetches evs2.
Proof. unfold fetches. by rewrite filter_app, length_app. Qed.

Lemma scan_nothing opts (rs : list (nat * remote)) ctx :
  (∀ r, r ∈ rs →
        truthy (r_list r.2 opts).1 = true ∨ (r_list r.2 opts).2 = None ∨
        (r_list r.2 opts).2 = Some []) →
  cache_after opts rs ctx = Some ctx
  ∧ fetches (concat (visit_events opts <$> rs)) = 0.
Proof.
  induction rs as [|r rs IH]; intros Hall; [done|].
  destruct (merge_listing_nothing opts r ctx) as [Hm Hf];
    [apply Hall; by left|].
  destruct IH as [IH1 IH2]; [intros r' Hr'; apply Hall; by right|].
  rewrite (cache_after_cons _ _ _ _ _ Hm).
  split; [done|]. cbn [fmap list_fmap concat].
  by rewrite fetches_app, Hf, IH2.
Qed.

(** A remote that offers nothing is asked, and the scan goes on. *)
Lemma findDescriptor_visit_nothing packageId version exact opts r ctx ret
    evs :
  descriptorFor ctx packageId version exact = Some ret → found ret = false →
  truthy (r_list r.2 opts).1 = true ∨ (r_list r.2 opts).2 = None ∨
  (r_list r.2 opts).2 = Some [] →
  findDescriptor_visit packageId version exact opts r (ctx, ret, evs) =
    Some (ctx, ret, evs ++ visit_events opts r, false).
Proof.
  intros Hsel Hret Hnothing. unfold findDescriptor_visit, visit_events.
  destruct (r_list r.2 opts) as [err response]. cbn [fst snd] in *.
  destruct Hnothing as [Herr|[->| ->]].
  - rewrite Herr. rewrite <- app_assoc. by destruct response.
  - destruct (truthy err); [by rewrite <- app_assoc|done].
  - destruct (truthy err); [by rewrite <- app_assoc|].
    cbn [foldl]. by rewrite Hsel, Hret.
Qed.

Lemma findDescriptor_scan_nothing packageId version exact opts ctx ret rs :
  descriptorFor ctx packageId version exact = Some ret → found ret = false →
  (∀ r, r ∈ rs →
        truthy (r_list r opts).1 = true ∨ (r_list r opts).2 = None ∨
        (r_list r opts).2 = Some []) →
  ∀ i evs,
    iter_find (findDescriptor_visit packageId version exact opts)
      (indexed i rs) (ctx, ret, evs) =
      Some (ctx, ret, evs ++ concat (visit_events opts <$> indexed i rs)).
Proof.
  intros Hsel Hret. induction rs as [|r rs IH]; intros Hall i evs;
    cbn [indexed iter_find fmap list_fmap concat].
  - by rewrite app_nil_r.
  - rewrite (findDescriptor_visit_nothing _ _ _ _ (i, r)) by
      (try done; apply Hall; by left).
    rewrite IH by (intros r' Hr'; apply Hall; by right).
    by rewrite <- app_assoc.
Qed.

(** X12: a package that no source has.  When [install] is given a package
    identifier for which the lookup in the cache returns no descriptor,
    and every remote reports an error, no response or an empty listing,
    it asks every remote once, in order, fetches nothing, leaves the
    context as it was, and reports "<id> not found". *)
Theorem install_reports_not_found ctx packageId version exact force done r0 :
  looksLikePath packageId = false →
  descriptorFor ctx packageId version exact = Some r0 → found r0 = false →
  (∀ rem, rem ∈ remotes ctx →
     let out := r_list rem (findDescriptor_opts packageId version exact) in
     truthy out.1 = true ∨ out.2 = None ∨ out.2 = Some []) →
  ∃ evs,
    install ctx packageId version exact force done =
      Some (ctx, evs, NotFound (packageId +:+ " not found"),
            (install_arguments force done).2)
    ∧ list_queries evs = seq 0 (length (remotes ctx))
    ∧ fetches evs = 0.
Proof.
  intros Hpath Hsel Hmiss Hall.
  set (opts := findDescriptor_opts packageId version exact) in *.
  set (exact' := if negb (truthy version) || negb exact then false else exact).
  assert (Hsel' : descriptorFor ctx packageId version exact' = Some r0)
    by (unfold exact'; by rewrite descriptorFor_exact_normalised).
  pose proof (findDescriptor_scan_nothing packageId version exact' opts ctx r0
                (remotes ctx) Hsel' Hmiss Hall 0 []) as Hscan.
  exists (concat (visit_events opts <$> indexed 0 (remotes ctx))).
  split; [|split].
  - rewrite install_identifier by done. unfold findDescriptor.
    rewrite Hsel, Hmiss. fold exact'.
    change {| q_name := packageId; q_version := version;
              q_exact := if exact' then "true" else "false";
              q_dependencies := false |} with opts.
    rewrite Hscan. unfold install_continue. cbn.
    by destruct r0.
  - apply list_queries_visit_events.
  - apply (scan_nothing opts (indexed 0 (remotes ctx)) ctx).
    intros [k rem] Hr. apply indexed_elem_of in Hr as [_ Hr].
    apply Hall. by eapply list_elem_of_lookup_2.
Qed.

End ResolutionProperties.

Section CommandLineProperties.

Context {sv : Semver} {pf : Platform}.

(** *** Dependencies *)

(** With the preference set, [installDependencies] leaves the context as
    it is and launches one install per declared dependency, or none. *)
Lemma installDependencies_set ctx desc b :
  includeDependencies ctx = Some b →
  installDependencies ctx desc =
    (ctx,
     if b then
       Some (iter_parallel
               (λ i dep, {| call_packageId := dep.1;
                            call_version := Some dep.2;
                            call_exact := false;
                            call_force := ArgBool false;
                            call_done := Some i |})
               (desc_dependencies desc))
     else None).
Proof. intros H. unfold installDependencies. rewrite H. by destruct b. Qed.

(** The installs that [installDependencies] launches, one per declared
    dependency. *)
Lemma installDependencies_calls ctx desc calls :
  (installDependencies ctx desc).2 = Some calls →
  (λ c, (call_packageId c, call_version c)) <$> calls =
    (λ dep, (dep.1, Some dep.2)) <$> desc_dependencies desc
  ∧ ∀ i c, calls !! i = Some c →
      call_exact c = false ∧ call_force c = ArgBool false ∧
      install_arguments (call_force c) (call_done c) = (ArgBool false, Some i) ∧
      q_exact (findDescriptor_opts (call_packageId c) (call_version c)
                 (call_exact c)) = "false".
Proof.
  unfold installDependencies.
  destruct (negb (default false (includeDependencies ctx))); [done|].
  simpl. intros [= <-]. unfold iter_parallel. split.
  - rewrite fmap_imap.
    apply (imap_const (λ dep : string * string, (dep.1, Some dep.2))).
  - intros i c Hc. rewrite list_lookup_imap in Hc.
    apply fmap_Some in Hc as (dep & Hdep & ->). simpl. repeat split.
    by rewrite orb_true_r.
Qed.

(** X13: dependencies are matched compatibly.  When [installDependencies]
    launches installs, there is one per declared dependency, in the order
    of the declarations, for the declared id and version constraint, with
    exact and force off; resolving such a call never asks a remote for an
    exact match, and the callback handed to it is the one of
    [CORE.iter.parallel]. *)
Theorem installDependencies_launches ctx desc calls :
  (installDependencies ctx desc).2 = Some calls →
  (λ c, (call_packageId c, call_version c)) <$> calls =
    (λ dep, (dep.1, Some dep.2)) <$> desc_dependencies desc
  ∧ ∀ i c, calls !! i = Some c →
      call_exact c = false ∧ call_force c = ArgBool false ∧
      install_arguments (call_force c) (call_done c) = (ArgBool false, Some i) ∧
      q_exact (findDescriptor_opts (call_packageId c) (call_version c)
                 (call_exact c)) = "false".
Proof. exact (installDependencies_calls ctx desc calls). Qed.

Lemma installDependencies_each_set ctx b descs : ∀ launched,
  includeDependencies ctx = Some b →
  foldl (λ st desc,
           let r := installDependencies st.1 desc in (r.1, st.2 ++ [r.2]))
    (ctx, launched) descs =
  (ctx, launched ++ ((λ d, (installDependencies ctx d).2) <$> descs)).
Proof.
  induction descs as [|d descs IH]; intros launched Hb; simpl.
  - by rewrite app_nil_r.
  - rewrite (installDependencies_set ctx d b Hb) at 1. simpl.
    rewrite IH by done. rewrite <- app_assoc. simpl.
    by rewrite (installDependencies_set ctx d b Hb).
Qed.

(** X14: the first descriptor decides.  In a context whose preference is
    unset, a sequence of calls of [installDependencies] leaves the context
    as it was but for the preference, which is whether the first
    descriptor is of remote origin; the first call launches nothing, and
    every later call launches what it would launch under that
    preference, whatever the origin of its own descriptor. *)
Theorem installDependencies_first_decides ctx desc descs :
  includeDependencies ctx = None →
  let decided :=
    set_includeDependencies ctx (Some (is_remote (desc_location desc))) in
  installDependencies_each ctx (desc :: descs) =
    (decided, None :: ((λ d, (installDependencies decided d).2) <$> descs))
  ∧ ∀ d, d ∈ descs →
         (installDependencies decided d).2 = None ↔
         desc_location desc = Local.
Proof.
  intros Hunset. cbv zeta.
  set (decided :=
         set_includeDependencies ctx (Some (is_remote (desc_location desc)))).
  split.
  - unfold installDependencies_each.
    match goal with |- context [foldl ?f _ _] => set (F := f) end.
    change (foldl F (ctx, []) (desc :: descs))
      with (foldl F (F (ctx, []) desc) descs).
    assert (F (ctx, []) desc = (decided, [None])) as ->.
    { unfold F. cbn [fst snd].
      by rewrite (installDependencies_unset ctx desc Hunset). }
    unfold F.
    exact (installDependencies_each_set decided _ descs [None] eq_refl).
  - intros d _.
    rewrite (installDependencies_set decided d _ eq_refl). simpl.
    by destruct (desc_location desc).
Qed.

(** *** The command line *)

Lemma collectState_on_fold fired : ∀ ret,
  let ret' := foldl collectState_on ret fired in
  st_dependencies ret' =
    default (st_dependencies ret) (Some <$> last (dependency_flags fired))
  ∧ st_version ret' = default (st_version ret) (last (version_values fired))
  ∧ st_remote ret' = default (st_remote ret) (last (remote_values fired))
  ∧ st_packageIds ret' = st_packageIds ret.
Proof.
  induction fired as [|f fired IH]; intros ret; [done|].
  cbn [foldl]. destruct (IH (collectState_on ret f)) as (Hd & Hv & Hr & Hp).
  cbv zeta. rewrite Hd, Hv, Hr, Hp.
  unfold dependency_flags, version_values, remote_values.
  destruct f; cbn [omap list_omap collectState_on st_dependencies st_version
                   st_remote st_packageIds];
    repeat split; try done.
  - fold (version_values fired). rewrite last_cons.
    by destruct (last (version_values fired)).
  - fold (remote_values fired). rewrite last_cons.
    by destruct (last (remote_values fired)).
  - fold (dependency_flags fired). rewrite last_cons.
    by destruct (last (dependency_flags fired)).
  - fold (dependency_flags fired). rewrite last_cons.
    by destruct (last (dependency_flags fired)).
Qed.

(** Each field of the state is set by the last handler that fired for
    it. *)
Lemma collectState_fields fired packageIds :
  let st := collectState fired packageIds in
  st_dependencies st = last (dependency_flags fired)
  ∧ st_version st = default None (last (version_values fired))
  ∧ st_remote st = default None (last (remote_values fired))
  ∧ st_packageIds st = packageIds.
Proof.
  unfold collectState.
  destruct (collectState_on_fold fired
              {| st_dependencies := None; st_version := None;
                 st_remote := None; st_packageIds := None |})
    as (Hd & Hv & Hr & _).
  cbv zeta in *. simpl. rewrite Hd, Hv, Hr. simpl.
  by destruct (last (dependency_flags fired)).
Qed.

(** X15: the last option given wins.  The state [collectState] builds has
    the dependency preference set by the last of [--dependencies] and
    [--no-dependencies] on the command line, and unset when neither is
    given; the version and the remote are the values given last; the
    package ids are what the parse returns. *)
Theorem collectState_last_wins fired packageIds :
  let st := collectState fired packageIds in
  st_dependencies st = last (dependency_flags fired)
  ∧ st_version st = default None (last (version_values fired))
  ∧ st_remote st = default None (last (remote_values fired))
  ∧ st_packageIds st = packageIds.
Proof. exact (collectState_fields fired packageIds). Qed.


(** *** Validation *)

(** X17: what [invoke] requires.  [invoke] starts resolving exactly when at
    least one package is named, the version option (if given and not
    empty) comes with exactly one package, and some source accepts
    installs; the source it installs into is then the first one that
    accepts installs.  Otherwise it signals one failure, with a message,
    and makes no call on the remote registry. *)
Theorem invoke_validates st sources :
  (∀ src,
     (invoke st sources).2 = Some src ↔
     (∃ ids, st_packageIds st = Some ids ∧ ids ≠ [] ∧
             (truthy (st_version st) = true → length ids = 1))
     ∧ sources !! src = Some true
     ∧ ∀ j, j < src → sources !! j = Some false)
  ∧ ((invoke st sources).2 = None →
     ∃ msg, (invoke st sources).1 = [IvDone (Some msg)] ∧ msg ≠ "").
Proof.
  assert (Hfind : ∀ src,
            find_source sources = Some src ↔
            sources !! src = Some true ∧
            ∀ j, j < src → sources !! j = Some false).
  { intros src. unfold find_source. rewrite fmap_Some. split.
    - intros ([i x] & Hf & ->). apply list_find_Some in Hf as (Hi & -> & Hj).
      simpl. split; [done|]. intros j Hlt.
      destruct (lookup_lt_is_Some_2 sources j) as [y Hy];
        [apply lookup_lt_Some in Hi; simpl; lia|].
      rewrite Hy. f_equal. specialize (Hj j y Hy Hlt). by destruct y.
    - intros [Hi Hj]. exists (src, true). split; [|done].
      apply list_find_Some. split; [done|]. split; [done|].
      intros j y Hy Hlt. rewrite (Hj j Hlt) in Hy. by injection Hy as <-. }
  unfold invoke. destruct (st_packageIds st) as [ids|]; simpl.
  - destruct ids as [|id ids]; simpl.
    + split; [|by eexists].
      intros src. split; [done|]. by intros ((? & [= <-] & ? & _) & _).
    + destruct (truthy (st_version st) && negb (length ids =? 0)) eqn:Hv.
      * split; [|by eexists]. intros src. split; [done|].
        intros ((? & [= <-] & _ & Hlen) & _).
        apply andb_true_iff in Hv as [Hv Hn]. specialize (Hlen Hv).
        simpl in Hlen. apply negb_true_iff, Nat.eqb_neq in Hn. lia.
      * destruct (find_source sources) as [src0|] eqn:Hsrc.
        -- split; [|done]. intros src. simpl. split.
           ++ intros [= <-]. split; [|by apply Hfind].
              exists (id :: ids). split; [done|]. split; [done|].
              intros Ht. rewrite Ht in Hv. simpl in Hv.
              apply negb_false_iff, Nat.eqb_eq in Hv. simpl. lia.
           ++ intros [_ Hs]. f_equal. apply Hfind in Hs. congruence.
        -- split; [|by eexists]. intros src. simpl. split; [done|].
           intros [_ Hs]. apply Hfind in Hs. congruence.
  - split; [|by eexists]. intros src. split; [done|].
    by intros ((? & ? & _) & _).
Qed.

(** X18: how a session starts.  The context that [invoke] creates has the
    chosen source, the remotes and the preference of the command line,
    and an empty cache: it is well keyed, and no package id is found in
    it (the lookup answers [null], except for the names of the properties
    of [Object.prototype], for which it answers [undefined] or raises).
    One install is launched per package id named, in the order
    given, with the version option, exact on, and the callback in fourth
    position, which [install] takes as its [done]; such an install asks
    the remotes for an exact match exactly when a non-empty version was
    given. *)
Theorem invoke_launch_session st src rs :
  let ctx := (invoke_launch st src rs).1 in
  let calls := (invoke_launch st src rs).2 in
  source ctx = src ∧ remotes ctx = rs
  ∧ includeDependencies ctx = st_dependencies st
  ∧ well_keyed ctx
  ∧ (∀ packageId version exact r,
       descriptorFor ctx packageId version exact = Some r → found r = false)
  ∧ (∀ packageId version exact,
       inherited packageId = None →
       descriptorFor ctx packageId version exact = Some LNull)
  ∧ call_packageId <$> calls = default [] (st_packageIds st)
  ∧ ∀ i c, calls !! i = Some c →
      call_version c = st_version st ∧ call_exact c = true ∧
      (install_arguments (call_force c) (call_done c)).2 = Some i ∧
      q_exact (findDescriptor_opts (call_packageId c) (call_version c)
                 (call_exact c)) =
        (if truthy (st_version st) then "true" else "false").
Proof.
  cbv zeta. unfold invoke_launch, init, iter_parallel. simpl.
  split; [done|]. split; [done|]. split; [done|]. split.
  { intros k l d Hl. simpl in Hl. by rewrite lookup_empty in Hl. }
  split.
  { intros packageId version exact r Hr.
    destruct r as [| |d]; try done.
    apply descriptorFor_LFound in Hr as (l & Hl & _). simpl in Hl.
    by rewrite lookup_empty in Hl. }
  split.
  { intros packageId version exact Hplain.
    rewrite descriptorFor_unfiled by apply lookup_empty. by rewrite Hplain. }
  split.
  { rewrite fmap_imap. rewrite <- (list_fmap_id (default [] (st_packageIds st))) at 2.
    apply (imap_const (λ x : string, x)). }
  intros i c Hc. rewrite list_lookup_imap in Hc.
  apply fmap_Some in Hc as (packageId & _ & ->). simpl.
  repeat split. by destruct (truthy (st_version st)).
Qed.

End CommandLineProperties.

Section LifecycleProperties.

Context {pf : Platform}.

Lemma prepareds_app evs1 evs2 :
  prepareds (evs1 ++ evs2) = prepareds evs1 ++ prepareds evs2.
Proof. apply omap_app. Qed.

Lemma stages_app evs1 evs2 : stages (evs1 ++ evs2) = stages evs1 ++ stages evs2.
Proof. apply omap_app. Qed.

Lemma loads_staged_app evs1 evs2 :
  loads_staged (evs1 ++ evs2) ↔ loads_staged evs1 ∧ loads_staged evs2.
Proof.
  unfold loads_staged. split.
  - intros H. split; intros p Hp; apply H, elem_of_app; [by left|by right].
  - intros [H1 H2] p Hp. apply elem_of_app in Hp as [Hp|Hp]; eauto.
Qed.

Lemma fetches_own_app desc evs1 evs2 :
  fetches_own desc (evs1 ++ evs2) ↔
  fetches_own desc evs1 ∧ fetches_own desc evs2.
Proof.
  unfold fetches_own. split.
  - intros H. split; intros r i Hp; apply H, elem_of_app; [by left|by right].
  - intros [H1 H2] r i Hp. apply elem_of_app in Hp as [Hp|Hp]; eauto.
Qed.

(** Invocations of callbacks are no stage, no fetch and no load. *)
Lemma callbacks_quiet tl :
  Forall (λ e, is_callback e = true) tl →
  fetches tl = 0 ∧ stages tl = [] ∧ loads_staged tl ∧
  ∀ desc, fetches_own desc tl.
Proof.
  induction 1 as [|e tl He _ (IH1 & IH2 & IH3 & IH4)].
  - split; [done|]. split; [done|]. split.
    + intros p Hp. by apply elem_of_nil in Hp.
    + intros desc r i Hp. by apply elem_of_nil in Hp.
  - assert (Hload : ∀ p, e ≠ EvLoadPackage p) by (by destruct e).
    assert (Hfetch : ∀ r i, e ≠ EvFetch r i) by (by destruct e).
    split; [by destruct e|]. split; [by destruct e|]. split.
    + intros p Hp. apply elem_of_cons in Hp as [Hp|Hp]; [|by apply IH3].
      by destruct (Hload p).
    + intros desc r i Hp. apply elem_of_cons in Hp as [Hp|Hp]; [|by eapply IH4].
      by destruct (Hfetch r i).
Qed.

Lemma done_callbacks (calls : list (nat * option string)) :
  Forall (λ e, is_callback e = true) (map (λ c, EvDone c.1 c.2) calls).
Proof. by induction calls; constructor. Qed.

Lemma prepared_callbacks (ns : list nat) err :
  Forall (λ e, is_callback e = true) (map (λ n, EvPrepared n err) ns).
Proof. by induction ns; constructor. Qed.

Lemma prepareds_done_callbacks (calls : list (nat * option string)) :
  prepareds (map (λ c, EvDone c.1 c.2) calls) = [].
Proof. by induction calls. Qed.

Lemma prepareds_prepared_callbacks (ns : list nat) err :
  prepareds (map (λ n, EvPrepared n err) ns) = map (λ n, (n, err)) ns.
Proof. induction ns as [|n ns IH]; [done|]. cbn. by rewrite <- IH. Qed.

(** *** Calling back the callbacks of the prepare job *)

Lemma callers_app ws1 ws2 : callers (ws1 ++ ws2) = callers ws1 ++ callers ws2.
Proof. apply omap_app. Qed.

Lemma prepare_deliver_others_explicit ws err :
  filter (λ c, is_installBody c = true) ws = [] →
  ∀ o evs0,
    foldl prepare_deliver (o, evs0) (map (λ c, (c, err)) ws) =
      (o, evs0 ++ map (λ n, EvPrepared n err) (callers ws)).
Proof.
  induction ws as [|c ws IH]; intros Hnone o evs0.
  - simpl. by rewrite app_nil_r.
  - destruct c; cbn [map foldl].
    + rewrite filter_cons_False in Hnone by done. by apply IH.
    + by rewrite filter_cons_True in Hnone.
    + rewrite filter_cons_False in Hnone by done.
      unfold prepare_deliver at 2. cbn [fst snd].
      rewrite (IH Hnone). cbn. by rewrite <- app_assoc.
Qed.

Lemma prepare_deliver_body_explicit ws err :
  length (filter (λ c, is_installBody c = true) ws) = 1 →
  ∀ o evs0, ∃ ns1 ns2,
    callers ws = ns1 ++ ns2 ∧
    foldl prepare_deliver (o, evs0) (map (λ c, (c, err)) ws) =
      ((install_prepared o err).1,
       evs0 ++ map (λ n, EvPrepared n err) ns1
            ++ (install_prepared o err).2
            ++ map (λ n, EvPrepared n err) ns2).
Proof.
  induction ws as [|c ws IH]; intros Hone o evs0; [done|].
  destruct c; cbn [map foldl].
  - rewrite filter_cons_False in Hone by done.
    destruct (IH Hone o evs0) as (ns1 & ns2 & Hns & Hf). by exists ns1, ns2.
  - rewrite filter_cons_True in Hone by done. simpl in Hone.
    assert (Hnone : filter (λ c, is_installBody c = true) ws = [])
      by (apply nil_length_inv; lia).
    unfold prepare_deliver at 2. cbn [fst snd].
    destruct (install_prepared o err) as [o' evs'] eqn:Hp.
    rewrite (prepare_deliver_others_explicit ws err Hnone).
    exists [], (callers ws). split; [done|]. cbn. by rewrite <- app_assoc.
  - rewrite filter_cons_False in Hone by done.
    destruct (IH Hone o (evs0 ++ [EvPrepared n err]))
      as (ns1 & ns2 & Hns & Hf).
    exists (n :: ns1), ns2. split; [cbn; by rewrite <- Hns|].
    unfold prepare_deliver at 2. cbn [fst snd].
    rewrite Hf. cbn. by rewrite <- !app_assoc.
Qed.

(** *** What the install job leaves alone *)

Lemma install_done_keeps o err :
  prepareJob (install_done o err).1 = prepareJob o
  ∧ obj_desc (install_done o err).1 = obj_desc o
  ∧ obj_phase (install_done o err).1 = Settled
  ∧ Forall (λ e, is_callback e = true) (install_done o err).2
  ∧ prepareds (install_done o err).2 = []
  ∧ ∀ ws, installJob o = Some (Pending ws) →
          installJob (install_done o err).1 = Some (Resolved err).
Proof.
  unfold install_done.
  destruct (once_resolve (default Fresh (installJob o)) err) as [j calls] eqn:Hr.
  cbn [fst snd]. split; [done|]. split; [done|]. split; [done|].
  split; [apply done_callbacks|]. split; [apply prepareds_done_callbacks|].
  intros ws Hws. rewrite Hws in Hr. simpl in Hr. by injection Hr as <- _.
Qed.

Lemma install_prepared_keeps o err :
  prepareJob (install_prepared o err).1 = prepareJob o
  ∧ obj_desc (install_prepared o err).1 = obj_desc o
  ∧ fetches (install_prepared o err).2 = 0
  ∧ prepareds (install_prepared o err).2 = []
  ∧ loads_staged (install_prepared o err).2
  ∧ ∀ desc, fetches_own desc (install_prepared o err).2.
Proof.
  unfold install_prepared. destruct (truthy err).
  - destruct (install_done_keeps o err) as (H1 & H2 & _ & H4 & H5 & _).
    destruct (callbacks_quiet _ H4) as (Hf & _ & Hl & Ho).
    split; [done|]. split; [done|]. split; [done|]. split; [done|]. by split.
  - cbn [fst snd]. split; [done|]. split; [done|]. split; [done|].
    split; [done|]. split.
    + intros p Hp. by apply list_elem_of_singleton in Hp.
    + intros desc r i Hp. by apply list_elem_of_singleton in Hp.
Qed.

(** *** The prepare job across one input *)

(** Calling back the callbacks of the prepare job leaves that job and
    the descriptor alone, fetches nothing, and calls each caller back
    with the outcome. *)
Lemma prepare_deliver_prepare_side ws err :
  ∀ o evs0,
    let r := foldl prepare_deliver (o, evs0) (map (λ c, (c, err)) ws) in
    prepareJob r.1 = prepareJob o
    ∧ obj_desc r.1 = obj_desc o
    ∧ fetches r.2 = fetches evs0
    ∧ prepareds r.2 = prepareds evs0 ++ map (λ n, (n, err)) (callers ws)
    ∧ ∀ desc, fetches_own desc evs0 → fetches_own desc r.2.
Proof.
  induction ws as [|c ws IH]; intros o evs0; cbv zeta.
  - simpl. rewrite app_nil_r. split; [done|]. split; [done|].
    split; [done|]. by split.
  - cbv zeta in IH. cbn [map foldl]. unfold prepare_deliver at 2 4 6 8 10.
    cbn [fst snd]. destruct c.
    + apply IH.
    + destruct (install_prepared_keeps o err) as (Hj & Hd & Hf & Hp & _ & Ho).
      destruct (install_prepared o err) as [o' evs'].
      cbn [fst snd] in *.
      destruct (IH o' (evs0 ++ evs')) as (Hj' & Hd' & Hf' & Hp' & Ho').
      rewrite Hj', Hd', Hf', Hp', fetches_app, prepareds_app, Hf, Hp, Hj, Hd.
      rewrite app_nil_r.
      split; [done|]. split; [done|]. split; [lia|]. split; [done|].
      intros desc Hown. apply Ho'. apply fetches_own_app. by split.
    + destruct (IH o (evs0 ++ [EvPrepared n err])) as (Hj' & Hd' & Hf' & Hp' & Ho').
      rewrite Hj', Hd', Hf', Hp', fetches_app, prepareds_app.
      change (fetches [EvPrepared n err]) with 0.
      change (prepareds [EvPrepared n err]) with [(n, err)].
      change (callers (CbCaller n :: ws)) with (n :: callers ws).
      cbn [map]. rewrite <- app_assoc.
      split; [done|]. split; [done|]. split; [lia|]. split; [done|].
      intros desc Hown. apply Ho'. apply fetches_own_app. split; [done|].
      intros r i Hin. by apply list_elem_of_singleton in Hin.
Qed.

Lemma fetches_own_nil desc : fetches_own desc [].
Proof. intros r i Hin. by apply elem_of_nil in Hin. Qed.

Lemma prepare_inv_transfer o o' evs tl pdem :
  prepareJob o' = prepareJob o → obj_desc o' = obj_desc o →
  fetches tl = 0 → prepareds tl = [] → fetches_own (obj_desc o) tl →
  prepare_inv o evs pdem → prepare_inv o' (evs ++ tl) pdem.
Proof.
  intros Hj Hd Hf Hp Ho (Hown & Hinv). unfold prepare_inv.
  rewrite Hj, Hd, fetches_app, prepareds_app, Hf, Hp, app_nil_r, Nat.add_0_r.
  split; [|done]. apply fetches_own_app. by split.
Qed.

Lemma prepare_body_done desc err :
  prepare_body desc = PrepareDone err →
  truthy err = false → truthy (desc_path desc) = true.
Proof.
  unfold prepare_body. destruct (truthy (desc_path desc)); [done|].
  destruct (desc_remote desc); [done|]. by intros [= <-].
Qed.

Lemma prepare_body_fetch desc r pinfo :
  prepare_body desc = PrepareFetch r pinfo →
  truthy (desc_path desc) = false ∧ desc_remote desc = Some r
  ∧ desc_info desc = pinfo.
Proof.
  unfold prepare_body. destruct (truthy (desc_path desc)); [done|].
  destruct (desc_remote desc); [|done]. by intros [= <- <-].
Qed.

(** [prepare] by the state of the prepare job. *)
Lemma prepare_pending o done ws :
  prepareJob o = Some (Pending ws) →
  prepare o done = (set_prepareJob o (Pending (ws ++ [done])), []).
Proof. intros Hjob. unfold prepare. by rewrite Hjob. Qed.

Lemma prepare_resolved o done e :
  prepareJob o = Some (Resolved e) →
  prepare o done =
    foldl prepare_deliver (set_prepareJob o (Resolved e), [])
      (map (λ c, (c, e)) [done]).
Proof. intros Hjob. unfold prepare. by rewrite Hjob. Qed.

Lemma prepare_first o done :
  prepareJob o = None →
  prepare o done =
    match prepare_body (obj_desc o) with
    | PrepareDone err =>
        foldl prepare_deliver (set_prepareJob o (Resolved err), [])
          (map (λ c, (c, err)) [done])
    | PrepareFetch r pinfo =>
        (set_prepareJob o (Pending [done]), [EvFetch r pinfo])
    end.
Proof.
  intros Hjob. unfold prepare. rewrite Hjob. cbn.
  by destruct (prepare_body (obj_desc o)).
Qed.

Lemma prepare_prepare_inv o done evs pdem :
  prepare_inv o evs pdem →
  prepare_inv (prepare o done).1 (evs ++ (prepare o done).2)
    (pdem ++ callers [done]).
Proof.
  intros (Hown & Hinv).
  destruct (prepareJob o) as [[|ws|e]|] eqn:Hjob; [done| | |].
  - destruct Hinv as (Hf & Hp & Hc & Hpath).
    rewrite (prepare_pending o done ws Hjob). cbn [fst snd].
    unfold prepare_inv. cbn [prepareJob set_prepareJob obj_desc].
    rewrite app_nil_r, callers_app, Hc. done.
  - destruct Hinv as (Hf & Hp & Hpath).
    rewrite (prepare_resolved o done e Hjob).
    pose proof (prepare_deliver_prepare_side [done] e
                  (set_prepareJob o (Resolved e)) []) as Hside.
    cbv zeta in Hside.
    destruct Hside as (Hj' & Hd' & Hf' & Hp' & Ho').
    unfold prepare_inv. rewrite Hj', Hd', fetches_app, Hf', prepareds_app, Hp'.
    cbn [prepareJob set_prepareJob obj_desc]. rewrite Hp, map_app.
    split; [|split; [change (fetches []) with 0; lia|split; [done|done]]].
    apply fetches_own_app. split; [done|]. apply Ho', fetches_own_nil.
  - destruct Hinv as (Hf & Hp & ->). rewrite (prepare_first o done Hjob).
    destruct (prepare_body (obj_desc o)) as [err|r pinfo] eqn:Hbody.
    + pose proof (prepare_deliver_prepare_side [done] err
        (set_prepareJob o (Resolved err)) []) as Hside.
      cbv zeta in Hside. destruct Hside as (Hj' & Hd' & Hf' & Hp' & Ho').
      unfold prepare_inv.
      rewrite Hj', Hd', fetches_app, Hf', prepareds_app, Hp'.
      cbn [prepareJob set_prepareJob obj_desc]. rewrite Hp, Hf.
      split; [|split; [change (fetches []) with 0; lia|split; [done|]]].
      * apply fetches_own_app. split; [done|]. apply Ho', fetches_own_nil.
      * by apply prepare_body_done.
    + apply prepare_body_fetch in Hbody as (Hpath & Hr & Hi).
      cbn [fst snd].
      unfold prepare_inv. cbn [prepareJob set_prepareJob obj_desc].
      rewrite fetches_app, prepareds_app, Hf, Hp.
      split; [|by repeat split].
      apply fetches_own_app. split; [done|].
      intros r' i' Hin. apply list_elem_of_singleton in Hin.
      injection Hin as -> ->. by split.
Qed.

Lemma prepare_fetched_path desc err path :
  truthy (prepare_fetched desc err path).2 = false →
  truthy (desc_path (prepare_fetched desc err path).1) = true.
Proof.
  unfold prepare_fetched.
  destruct (truthy err) eqn:He; destruct (truthy path) eqn:Hp;
    cbn [negb andb]; rewrite ?He; cbn [fst snd]; try done.
  - by rewrite He.
  - by rewrite He.
Qed.

Lemma prepare_fetched_keeps desc err path :
  same_package desc (prepare_fetched desc err path).1.
Proof.
  unfold prepare_fetched, same_package.
  destruct (truthy err) eqn:He; destruct (truthy path) eqn:Hp;
    cbn [negb andb]; rewrite ?He; cbn [fst snd]; try done.
Qed.

(** The callback of the fetch changes the path only when the remote
    reports no error and a non-empty path, which is then the path. *)
Lemma prepare_fetched_sets desc err path :
  desc_path (prepare_fetched desc err path).1 ≠ desc_path desc →
  truthy err = false ∧ truthy path = true
  ∧ desc_path (prepare_fetched desc err path).1 = path.
Proof.
  unfold prepare_fetched.
  destruct (truthy err) eqn:He; destruct (truthy path) eqn:Hp;
    cbn [negb andb]; rewrite ?He; cbn [fst snd]; try done.
Qed.

Lemma same_package_refl d : same_package d d.
Proof. by repeat split. Qed.

Lemma same_package_trans d1 d2 d3 :
  same_package d1 d2 → same_package d2 d3 → same_package d1 d3.
Proof.
  intros (H1 & H2 & H3 & H4 & H5 & H6 & H7) (G1 & G2 & G3 & G4 & G5 & G6 & G7).
  unfold same_package.
  rewrite G1, G2, G3, G4, G5, G6, H1, H2, H3, H4, H5, H6.
  repeat split. intros Hp. by apply G7, H7.
Qed.

Lemma prepare_keeps_desc o done evs pdem :
  prepare_inv o evs pdem → obj_desc (prepare o done).1 = obj_desc o.
Proof.
  intros (Hown & Hinv).
  destruct (prepareJob o) as [[|ws|e]|] eqn:Hjob; [done| | |].
  - by rewrite (prepare_pending o done ws Hjob).
  - rewrite (prepare_resolved o done e Hjob).
    by destruct (prepare_deliver_prepare_side [done] e
                   (set_prepareJob o (Resolved e)) []) as (_ & -> & _).
  - rewrite (prepare_first o done Hjob).
    destruct (prepare_body (obj_desc o)) as [err|r pinfo]; [|done].
    by destruct (prepare_deliver_prepare_side [done] err
                   (set_prepareJob o (Resolved err)) []) as (_ & -> & _).
Qed.

(** [install(packageId, ..., done)] on a descriptor that was found, by
    the state of its install job. *)
Lemma install_job_first o packageId n :
  installJob o = None →
  install_job o packageId n =
    ((prepare (set_phase (set_installJob (set_packageId o packageId)
                            (Pending [n])) Preparing) CbInstallBody).1,
     EvJobStart ::
     (prepare (set_phase (set_installJob (set_packageId o packageId)
                            (Pending [n])) Preparing) CbInstallBody).2).
Proof.
  intros Hjob. unfold install_job. rewrite Hjob. cbn.
  by destruct (prepare _ _).
Qed.

Lemma install_job_pending o packageId n ws :
  installJob o = Some (Pending ws) →
  install_job o packageId n = (set_installJob o (Pending (ws ++ [n])), []).
Proof.
  intros Hjob. unfold install_job. rewrite Hjob. cbv beta zeta iota.
  by rewrite Hjob.
Qed.

Lemma install_job_resolved o packageId n e :
  installJob o = Some (Resolved e) →
  install_job o packageId n = (set_installJob o (Resolved e), [EvDone n e]).
Proof.
  intros Hjob. unfold install_job. rewrite Hjob. cbv beta zeta iota.
  by rewrite Hjob.
Qed.

Lemma job_inv_not_fresh o evs dem :
  job_inv o evs dem → installJob o ≠ Some Fresh.
Proof. unfold job_inv. by destruct (installJob o) as [[| |]|]. Qed.

Lemma install_job_prepare_inv o packageId n evs dem pdem :
  job_inv o evs dem → prepare_inv o evs pdem →
  prepare_inv (install_job o packageId n).1
    (evs ++ (install_job o packageId n).2) pdem
  ∧ obj_desc (install_job o packageId n).1 = obj_desc o.
Proof.
  intros Hjinv Hpinv. pose proof (job_inv_not_fresh _ _ _ Hjinv) as Hnf.
  destruct (installJob o) as [[|ws|e]|] eqn:Hjob; [done| | |].
  - rewrite (install_job_pending o packageId n ws Hjob). cbn [fst snd].
    split; [|done]. apply (prepare_inv_transfer o); try done.
    apply fetches_own_nil.
  - rewrite (install_job_resolved o packageId n e Hjob). cbn [fst snd].
    split; [|done]. apply (prepare_inv_transfer o); try done.
    intros r i Hin. by apply list_elem_of_singleton in Hin.
  - rewrite (install_job_first o packageId n Hjob). cbn [fst snd].
    set (o' := set_phase _ _).
    assert (Hinv' : prepare_inv o' (evs ++ [EvJobStart]) pdem).
    { apply (prepare_inv_transfer o); try done.
      intros r i Hin. by apply list_elem_of_singleton in Hin. }
    split.
    + pose proof (prepare_prepare_inv o' CbInstallBody _ _ Hinv') as Hstep.
      change (callers [CbInstallBody]) with (@nil nat) in Hstep.
      rewrite app_nil_r, <- app_assoc in Hstep. exact Hstep.
    + by rewrite (prepare_keeps_desc o' CbInstallBody _ _ Hinv').
Qed.

(** [remote.fetch] calls back while the prepare job is pending. *)
Lemma fetched_pending o err path ws :
  prepareJob o = Some (Pending ws) →
  fetched o err path =
    foldl prepare_deliver
      (set_prepareJob (set_desc o (prepare_fetched (obj_desc o) err path).1)
         (Resolved (prepare_fetched (obj_desc o) err path).2), [])
      (map (λ c, (c, (prepare_fetched (obj_desc o) err path).2)) ws).
Proof.
  intros Hjob. unfold fetched. rewrite Hjob.
  by destruct (prepare_fetched (obj_desc o) err path).
Qed.

(** [remote.fetch] calls back once more, the prepare job being
    resolved. *)
Lemma fetched_resolved o err path e :
  prepareJob o = Some (Resolved e) →
  fetched o err path =
    (set_prepareJob (set_desc o (prepare_fetched (obj_desc o) err path).1)
       (Resolved e), []).
Proof.
  intros Hjob. unfold fetched. rewrite Hjob.
  by destruct (prepare_fetched (obj_desc o) err path).
Qed.

Lemma fetched_ignored o err path :
  prepareJob o = None ∨ prepareJob o = Some Fresh →
  fetched o err path = (o, []).
Proof. intros [Hjob|Hjob]; unfold fetched; by rewrite Hjob. Qed.

Lemma fetched_prepare_inv o err path evs pdem :
  prepare_inv o evs pdem →
  prepare_inv (fetched o err path).1 (evs ++ (fetched o err path).2) pdem
  ∧ same_package (obj_desc o) (obj_desc (fetched o err path).1).
Proof.
  intros Hpinv.
  destruct (prepareJob o) as [[|ws|e]|] eqn:Hjob.
  - rewrite fetched_ignored by (by right). cbn [fst snd].
    rewrite app_nil_r. split; [done|apply same_package_refl].
  - rewrite (fetched_pending o err path ws Hjob).
    destruct Hpinv as (Hown & Hinv). rewrite Hjob in Hinv.
    destruct Hinv as (Hf & Hp & Hc & Hpath).
    pose proof (prepare_fetched_keeps (obj_desc o) err path) as Hsame.
    pose proof (prepare_fetched_path (obj_desc o) err path) as Hset.
    destruct (prepare_fetched (obj_desc o) err path) as [d e].
    cbn [fst snd] in *.
    pose proof (prepare_deliver_prepare_side ws e
                  (set_prepareJob (set_desc o d) (Resolved e)) []) as Hside.
    cbv zeta in Hside. destruct Hside as (Hj' & Hd' & Hf' & Hp' & Ho').
    cbn [prepareJob obj_desc set_prepareJob set_desc] in Hj', Hd'.
    split; [|by rewrite Hd'].
    unfold prepare_inv. rewrite Hj', Hd', fetches_app, Hf', prepareds_app, Hp'.
    rewrite Hp, Hf, Hc.
    split; [|split; [change (fetches []) with 0; lia|split; [done|done]]].
    apply fetches_own_app. split; [|apply Ho', fetches_own_nil].
    intros r i Hin. destruct (Hown r i Hin) as (Hr & Hi).
    destruct Hsame as (_ & _ & _ & -> & -> & _). by split.
  - rewrite (fetched_resolved o err path e Hjob). cbn [fst snd].
    rewrite app_nil_r.
    pose proof (prepare_fetched_keeps (obj_desc o) err path) as Hsame.
    split; [|done].
    destruct Hpinv as (Hown & Hinv). rewrite Hjob in Hinv.
    destruct Hinv as (Hf & Hp & Hpath).
    unfold prepare_inv. cbn [prepareJob obj_desc set_prepareJob set_desc].
    destruct Hsame as (_ & _ & _ & Hrem & Hinfo & _ & Hkeep).
    split; [|split; [done|split; [done|]]].
    + intros r i Hin. destruct (Hown r i Hin) as (Hr & Hi).
      rewrite Hrem, Hinfo. by split.
    + intros He. by apply Hkeep, Hpath.
  - rewrite fetched_ignored by (by left). cbn [fst snd].
    rewrite app_nil_r. split; [done|apply same_package_refl].
Qed.

Lemma install_side_done o err : install_side o (install_done o err).
Proof.
  destruct (install_done_keeps o err) as (H1 & H2 & _ & H4 & H5 & _).
  destruct (callbacks_quiet _ H4) as (Hf & _ & _ & Ho).
  unfold install_side. by rewrite H1, H2, Hf, H5.
Qed.

Lemma install_side_single o o' e :
  prepareJob o' = prepareJob o → obj_desc o' = obj_desc o →
  is_fetch e = false → (∀ n err, e ≠ EvPrepared n err) →
  install_side o (o', [e]).
Proof.
  intros Hj Hd Hf Hp. unfold install_side. cbn [fst snd].
  split; [done|]. split; [done|]. split; [|split].
  - unfold fetches. rewrite filter_cons_False; [done|]. by rewrite Hf.
  - destruct e; try done. by destruct (Hp n err).
  - intros desc r i Hin. apply list_elem_of_singleton in Hin.
    by rewrite <- Hin in Hf.
Qed.

Lemma install_side_idle o : install_side o (o, []).
Proof.
  unfold install_side. cbn [fst snd]. split; [done|]. split; [done|].
  split; [done|]. split; [done|]. intros desc. apply fetches_own_nil.
Qed.

Lemma install_side_steps o i :
  match i with
  | DependenciesInstalled _ | PackageLoaded _ _ | SourceInstalled _
  | CleanedUp _ => install_side o (object_step o i)
  | _ => True
  end.
Proof.
  destruct i as [c|packageId n|err path|err|err pkg|err|err]; try done;
    cbn [object_step]; destruct (obj_phase o); try apply install_side_idle.
  - unfold dependenciesInstalled. destruct (chain_aborts (CORE_err err)).
    + apply install_side_done.
    + by apply install_side_single.
  - unfold packageLoaded.
    destruct (truthy (if negb (truthy err) && negb (bool_decide (is_Some pkg))
                      then Some (obj_packageId o +:+ " is invalid") else err)).
    + apply install_side_done.
    + destruct pkg; [by apply install_side_single|apply install_side_idle].
  - unfold sourceInstalled. destruct (truthy err).
    + apply install_side_done.
    + destruct (desc_remote (obj_desc o)).
      * by apply install_side_single.
      * apply install_side_done.
  - apply install_side_done.
Qed.

Lemma install_side_prepare_inv o r evs pdem :
  install_side o r → prepare_inv o evs pdem →
  prepare_inv r.1 (evs ++ r.2) pdem.
Proof.
  intros (Hj & Hd & Hf & Hp & Ho) Hinv.
  by apply (prepare_inv_transfer o).
Qed.

(** The prepare job keeps its invariant, and the descriptor its
    identity, across every input. *)
Lemma object_step_prepare_inv o i evs dem pdem :
  job_inv o evs dem → prepare_inv o evs pdem →
  prepare_inv (object_step o i).1 (evs ++ (object_step o i).2)
    (pdem ++ prepare_demand_of i)
  ∧ same_package (obj_desc o) (obj_desc (object_step o i).1).
Proof.
  intros Hjinv Hpinv. pose proof (install_side_steps o i) as Hside.
  destruct i as [[n|]|packageId n|err path|err|err pkg|err|err];
    cbn [prepare_demand_of]; rewrite ?app_nil_r.
  - cbn [object_step]. split.
    + by apply (prepare_prepare_inv o (CbCaller n)).
    + rewrite (prepare_keeps_desc o _ _ _ Hpinv). apply same_package_refl.
  - cbn [object_step]. split.
    + pose proof (prepare_prepare_inv o CbNoop _ _ Hpinv) as Hstep.
      change (callers [CbNoop]) with (@nil nat) in Hstep.
      by rewrite app_nil_r in Hstep.
    + rewrite (prepare_keeps_desc o _ _ _ Hpinv). apply same_package_refl.
  - cbn [object_step].
    destruct (install_job_prepare_inv o packageId n _ _ _ Hjinv Hpinv)
      as (Hstep & Hdesc).
    split; [done|]. rewrite Hdesc. apply same_package_refl.
  - by apply fetched_prepare_inv.
  - split; [by apply (install_side_prepare_inv o)|].
    destruct Hside as (_ & -> & _). apply same_package_refl.
  - split; [by apply (install_side_prepare_inv o)|].
    destruct Hside as (_ & -> & _). apply same_package_refl.
  - split; [by apply (install_side_prepare_inv o)|].
    destruct Hside as (_ & -> & _). apply same_package_refl.
  - split; [by apply (install_side_prepare_inv o)|].
    destruct Hside as (_ & -> & _). apply same_package_refl.
Qed.

(** *** The stages of the install job across one input *)

Lemma prepare_inv_not_fresh o evs pdem :
  prepare_inv o evs pdem → prepareJob o ≠ Some Fresh.
Proof. intros (_ & Hinv). by destruct (prepareJob o) as [[| |]|]. Qed.

Lemma job_inv_running o evs dem :
  job_inv o evs dem → obj_phase o ≠ Idle → obj_phase o ≠ Settled →
  ∃ ws, installJob o = Some (Pending ws).
Proof.
  unfold job_inv. destruct (installJob o) as [[|ws|e]|]; try done.
  - by exists ws.
  - by intros (-> & _).
  - by intros (-> & _).
Qed.

Lemma job_inv_body_waits o evs dem :
  job_inv o evs dem →
  body_waits o = 0
  ∨ (body_waits o = 1 ∧ obj_phase o = Preparing
     ∧ ∃ ws, installJob o = Some (Pending ws)).
Proof.
  unfold job_inv. destruct (installJob o) as [[|ws|e]|]; try done.
  - intros (_ & _ & _ & _ & Hph).
    destruct (obj_phase o); try done; try (left; by destruct Hph).
    right. destruct Hph as (-> & _). split; [done|]. split; [done|].
    by exists ws.
  - intros (_ & -> & _). by left.
  - intros (_ & -> & _). by left.
Qed.

(** Effects that are no stage of the job leave the stages as they are. *)
Lemma stage_keep o o' evs tl :
  obj_phase o' = obj_phase o →
  (obj_phase o = Settled → installJob o' = installJob o) →
  desc_remote (obj_desc o') = desc_remote (obj_desc o) →
  (∀ err, prepareJob o = Some (Resolved err) →
          prepareJob o' = Some (Resolved err)) →
  stages tl = [] → loads_staged tl →
  stage_inv o evs → stage_inv o' (evs ++ tl).
Proof.
  intros Hph Hjob Hrem Hprep Hst Hld (Hloads & Hinv). unfold stage_inv.
  rewrite Hph, Hrem, stages_app, Hst, app_nil_r.
  split; [by apply loads_staged_app|].
  destruct (obj_phase o); try done.
  - destruct Hinv as (? & err & ? & ?). split; [done|].
    exists err. split; [by apply Hprep|done].
  - destruct Hinv as (? & err & ? & ?). split; [done|].
    exists err. split; [by apply Hprep|done].
  - destruct Hinv as (? & err & ? & ?). split; [done|].
    exists err. split; [by apply Hprep|done].
  - destruct Hinv as (? & ? & err & ? & ?). split; [done|]. split; [done|].
    exists err. split; [by apply Hprep|done].
  - by rewrite (Hjob eq_refl).
Qed.

(** The job reports its outcome after [k] stages. *)
Lemma stage_done o err evs ws k :
  installJob o = Some (Pending ws) →
  loads_staged evs → stages evs = take k all_stages → 1 ≤ k →
  (5 ≤ k → is_Some (desc_remote (obj_desc o))) →
  (truthy err = false →
   k = match desc_remote (obj_desc o) with Some _ => 5 | None => 4 end) →
  stage_inv (install_done o err).1 (evs ++ (install_done o err).2).
Proof.
  intros Hjob Hloads Hst Hk Hrem Hok.
  destruct (install_done_keeps o err) as (_ & Hd & Hph & Hcb & _ & Hres).
  destruct (callbacks_quiet _ Hcb) as (_ & Hst' & Hld' & _).
  unfold stage_inv. rewrite Hph, Hd, stages_app, Hst', app_nil_r.
  split; [by apply loads_staged_app|].
  exists k. split; [done|]. split; [done|]. split; [done|].
  intros err'. rewrite (Hres ws Hjob). by intros [= <-].
Qed.

(** The callback of line 290: preparation is over. *)
Lemma install_prepared_stage o err evs ws :
  obj_phase o = Preparing → installJob o = Some (Pending ws) →
  prepareJob o = Some (Resolved err) →
  loads_staged evs → stages evs = take 1 all_stages →
  stage_inv (install_prepared o err).1 (evs ++ (install_prepared o err).2).
Proof.
  intros Hph Hjob Hprep Hloads Hst. unfold install_prepared.
  destruct (truthy err) eqn:Herr.
  - apply (stage_done o err evs ws 1); try done; [lia|]. by rewrite Herr.
  - cbn [fst snd]. unfold stage_inv.
    cbn [obj_phase set_phase prepareJob]. rewrite stages_app, Hst.
    split; [|split; [done|by exists err]].
    apply loads_staged_app. split; [done|].
    intros p Hin. by apply list_elem_of_singleton in Hin.
Qed.

Lemma prepare_deliver_body_single o err :
  foldl prepare_deliver (o, []) (map (λ c, (c, err)) [CbInstallBody]) =
    install_prepared o err.
Proof.
  cbn. unfold prepare_deliver. cbn [fst snd].
  by destruct (install_prepared o err).
Qed.

Lemma prepare_deliver_other_single o err done :
  is_installBody done = false →
  foldl prepare_deliver (o, []) (map (λ c, (c, err)) [done]) =
    (o, map (λ n, EvPrepared n err) (callers [done])).
Proof.
  intros Hdone.
  by rewrite (prepare_deliver_others_explicit [done] err)
    by (destruct done; done).
Qed.

Lemma loads_staged_none evs :
  Forall (λ e, stage_of e ≠ Some SLoad) evs → loads_staged evs.
Proof.
  intros Hall p Hin. rewrite Forall_forall in Hall.
  by destruct (Hall _ Hin).
Qed.

Lemma prepare_stage_inv o done evs :
  is_installBody done = false → prepareJob o ≠ Some Fresh →
  stage_inv o evs → stage_inv (prepare o done).1 (evs ++ (prepare o done).2).
Proof.
  intros Hdone Hnf Hinv.
  assert (Hq : ∀ err, stages (map (λ n, EvPrepared n err) (callers [done])) = []
                      ∧ loads_staged
                          (map (λ n, EvPrepared n err) (callers [done]))).
  { intros err.
    by destruct (callbacks_quiet _ (prepared_callbacks (callers [done]) err))
      as (_ & ? & ? & _). }
  destruct (prepareJob o) as [[|ws|e]|] eqn:Hjob; [done| | |].
  - rewrite (prepare_pending o done ws Hjob). cbn [fst snd].
    apply (stage_keep o); try done; [by rewrite Hjob|].
    by apply loads_staged_none.
  - rewrite (prepare_resolved o done e Hjob).
    rewrite (prepare_deliver_other_single _ e done Hdone).
    destruct (Hq e). apply (stage_keep o); try done.
    rewrite Hjob. by intros err [= <-].
  - rewrite (prepare_first o done Hjob).
    destruct (prepare_body (obj_desc o)) as [err|r pinfo].
    + rewrite (prepare_deliver_other_single _ err done Hdone).
      destruct (Hq err). apply (stage_keep o); try done.
      by rewrite Hjob.
    + apply (stage_keep o); try done; [by rewrite Hjob|].
      apply loads_staged_none. by repeat constructor.
Qed.

Lemma install_job_stage_inv o packageId n evs dem pdem :
  job_inv o evs dem → prepare_inv o evs pdem → stage_inv o evs →
  stage_inv (install_job o packageId n).1
    (evs ++ (install_job o packageId n).2).
Proof.
  intros Hjinv Hpinv Hsinv.
  pose proof (job_inv_not_fresh _ _ _ Hjinv) as Hnf.
  pose proof (prepare_inv_not_fresh _ _ _ Hpinv) as Hpnf.
  destruct (installJob o) as [[|ws|e]|] eqn:Hjob; [done| | |].
  - rewrite (install_job_pending o packageId n ws Hjob). cbn [fst snd].
    apply (stage_keep o); try done; [|by apply loads_staged_none].
    intros Hph. unfold job_inv in Hjinv. rewrite Hjob, Hph in Hjinv.
    by destruct Hjinv as (_ & _ & _ & _ & ?).
  - rewrite (install_job_resolved o packageId n e Hjob). cbn [fst snd].
    apply (stage_keep o); try done.
    apply loads_staged_none. by repeat constructor.
  - rewrite (install_job_first o packageId n Hjob). cbn [fst snd].
    unfold job_inv in Hjinv. rewrite Hjob in Hjinv.
    destruct Hjinv as (Hph & _).
    destruct Hsinv as (Hloads & Hst). rewrite Hph in Hst.
    set (o' := set_phase _ _).
    assert (Hloads' : loads_staged (evs ++ [EvJobStart])).
    { apply loads_staged_app. split; [done|].
      apply loads_staged_none. by repeat constructor. }
    assert (Hst' : stages (evs ++ [EvJobStart]) = take 1 all_stages)
      by (by rewrite stages_app, Hst).
    change (evs ++ EvJobStart :: (prepare o' CbInstallBody).2)
      with (evs ++ [EvJobStart] ++ (prepare o' CbInstallBody).2).
    rewrite app_assoc.
    destruct (prepareJob o) as [[|ws|e]|] eqn:Hprep; [done| | |].
    + rewrite (prepare_pending o' CbInstallBody ws Hprep). cbn [fst snd].
      rewrite app_nil_r. by split.
    + rewrite (prepare_resolved o' CbInstallBody e Hprep).
      rewrite prepare_deliver_body_single.
      by apply (install_prepared_stage _ e _ [n]).
    + rewrite (prepare_first o' CbInstallBody Hprep).
      destruct (prepare_body (obj_desc o')) as [err|r pinfo].
      * rewrite prepare_deliver_body_single.
        by apply (install_prepared_stage _ err _ [n]).
      * cbn [fst snd]. split.
        -- apply loads_staged_app. split; [done|].
           apply loads_staged_none. by repeat constructor.
        -- cbn [obj_phase set_prepareJob]. by rewrite stages_app, Hst'.
Qed.

Lemma fetched_stage_inv o err path evs dem pdem :
  job_inv o evs dem → prepare_inv o evs pdem → stage_inv o evs →
  stage_inv (fetched o err path).1 (evs ++ (fetched o err path).2).
Proof.
  intros Hjinv Hpinv Hsinv.
  pose proof (prepare_fetched_keeps (obj_desc o) err path)
    as (_ & _ & _ & Hrem & _).
  destruct (prepareJob o) as [[|ws|e]|] eqn:Hjob;
    try (rewrite fetched_ignored by (by (left + right)); cbn [fst snd];
         by rewrite app_nil_r).
  2: { rewrite (fetched_resolved o err path e Hjob). cbn [fst snd].
       apply (stage_keep o); try done; [|by apply loads_staged_none].
       intros e' He'. cbn [prepareJob set_prepareJob]. by rewrite <- He'. }
  rewrite (fetched_pending o err path ws Hjob).
  destruct Hpinv as (_ & Hpinv). rewrite Hjob in Hpinv.
  destruct Hpinv as (_ & _ & _ & Hpath).
  destruct (prepare_fetched (obj_desc o) err path) as [d e].
  cbn [fst snd] in *.
  set (o' := set_prepareJob (set_desc o d) (Resolved e)).
  assert (Hkeep : ∀ tl, stages tl = [] → loads_staged tl →
                        stage_inv o' (evs ++ tl)).
  { intros tl Hst Hld. apply (stage_keep o); try done. by rewrite Hjob. }
  destruct (job_inv_body_waits _ _ _ Hjinv)
    as [Hw|(Hw & Hph & wjs & Hinst)];
    unfold body_waits in Hw; rewrite Hjob in Hw.
  - rewrite (prepare_deliver_others_explicit ws e)
      by (by apply nil_length_inv).
    cbn [fst snd app].
    destruct (callbacks_quiet _ (prepared_callbacks (callers ws) e))
      as (_ & Hst & Hld & _).
    by apply Hkeep.
  - destruct (prepare_deliver_body_explicit ws e Hw o' [])
      as (ns1 & ns2 & _ & ->).
    cbn [fst snd app].
    destruct (callbacks_quiet _ (prepared_callbacks ns1 e))
      as (_ & Hst1 & Hld1 & _).
    destruct (callbacks_quiet _ (prepared_callbacks ns2 e))
      as (_ & Hst2 & Hld2 & _).
    rewrite !app_assoc. apply (stage_keep (install_prepared o' e).1); try done.
    pose proof (Hkeep _ Hst1 Hld1) as (Hloads & Hst).
    cbn [obj_phase o' set_prepareJob set_desc] in Hst. rewrite Hph in Hst.
    by apply (install_prepared_stage o' e _ wjs).
Qed.

Lemma install_side_stage_inv o i evs dem pdem :
  job_inv o evs dem → prepare_inv o evs pdem → stage_inv o evs →
  match i with
  | DependenciesInstalled _ | PackageLoaded _ _ | SourceInstalled _
  | CleanedUp _ =>
      stage_inv (object_step o i).1 (evs ++ (object_step o i).2)
  | _ => True
  end.
Proof.
  intros Hjinv Hpinv Hsinv.
  destruct i as [c|packageId n|e path|e|e pkg|e|e]; try done;
    cbn [object_step]; destruct (obj_phase o) eqn:Hph;
    try (cbn [fst snd]; by rewrite app_nil_r);
    destruct (job_inv_running _ _ _ Hjinv) as (ws & Hjob);
    try (by rewrite Hph);
    destruct Hsinv as (Hloads & Hst); rewrite Hph in Hst.
  - destruct Hst as (Hst & err & Hprep & Herr).
    unfold dependenciesInstalled, chain_aborts.
    destruct (truthy (CORE_err e)) eqn:He.
    + apply (stage_done o _ evs ws 2); try done; [lia|lia|by rewrite He].
    + cbn [fst snd]. unfold stage_inv. cbn [obj_phase set_phase prepareJob].
      rewrite stages_app, Hst. split; [|split; [done|by exists err]].
      apply loads_staged_app. split; [done|].
      intros p Hin. apply list_elem_of_singleton in Hin. injection Hin as ->.
      destruct Hpinv as (_ & Hpinv). rewrite Hprep in Hpinv.
      destruct Hpinv as (_ & _ & Hpath). by apply Hpath.
  - destruct Hst as (Hst & err & Hprep & Herr). unfold packageLoaded.
    destruct (truthy (if negb (truthy e) && negb (bool_decide (is_Some pkg))
                      then Some (obj_packageId o +:+ " is invalid") else e))
      eqn:He.
    + apply (stage_done o _ evs ws 3); try done; [lia|lia|by rewrite He].
    + destruct pkg as [p|].
      * cbn [fst snd]. unfold stage_inv.
        cbn [obj_phase set_phase prepareJob]. rewrite stages_app, Hst.
        split; [|split; [done|by exists err]].
        apply loads_staged_app. split; [done|].
        apply loads_staged_none. by repeat constructor.
      * cbn [fst snd]. rewrite app_nil_r. unfold stage_inv. rewrite Hph.
        split; [done|]. split; [done|]. by exists err.
  - destruct Hst as (Hst & err & Hprep & Herr). unfold sourceInstalled.
    destruct (truthy e) eqn:He.
    + apply (stage_done o _ evs ws 4); try done; [lia|lia|by rewrite He].
    + destruct (desc_remote (obj_desc o)) as [r|] eqn:Hrem.
      * cbn [fst snd]. unfold stage_inv.
        cbn [obj_phase set_phase prepareJob obj_desc].
        rewrite stages_app, Hst, Hrem.
        split; [|split; [done|split; [done|by exists err]]].
        apply loads_staged_app. split; [done|].
        apply loads_staged_none. by repeat constructor.
      * apply (stage_done o _ evs ws 4); try done; [lia|lia|by rewrite Hrem].
  - destruct Hst as (Hst & Hrem & err & Hprep & Herr). unfold cleanedUp.
    apply (stage_done o _ evs ws 5); try done; [lia|].
    by destruct Hrem as (r & ->).
Qed.

(** The stages advance in order across every input. *)
Lemma object_step_stage_inv o i evs dem pdem :
  job_inv o evs dem → prepare_inv o evs pdem → stage_inv o evs →
  stage_inv (object_step o i).1 (evs ++ (object_step o i).2).
Proof.
  intros Hjinv Hpinv Hsinv.
  pose proof (install_side_stage_inv o i _ _ _ Hjinv Hpinv Hsinv) as Hside.
  pose proof (prepare_inv_not_fresh _ _ _ Hpinv) as Hpnf.
  destruct i as [[n|]|packageId n|e path|e|e pkg|e|e]; try done.
  - by apply prepare_stage_inv.
  - by apply prepare_stage_inv.
  - by apply (install_job_stage_inv o packageId n evs dem pdem).
  - by apply (fetched_stage_inv o e path evs dem pdem).
Qed.

(** *** Sessions *)

Lemma prepare_demands_of_snoc d ins x :
  prepare_demands_of d (ins ++ [x]) =
    prepare_demands_of d ins
    ++ (if decide (x.1 = d) then prepare_demand_of x.2 else []).
Proof.
  unfold prepare_demands_of. rewrite omap_app. f_equal. simpl.
  destruct x as [i [[n|]| | | | | |]]; simpl; destruct (decide (i = d)); done.
Qed.

Lemma fresh_inv o :
  fresh o → job_inv o [] [] ∧ prepare_inv o [] [] ∧ stage_inv o [].
Proof.
  intros (Hprep & Hjob & Hph).
  unfold job_inv, prepare_inv, stage_inv, body_waits.
  rewrite Hprep, Hjob, Hph. split; [done|]. split.
  - split; [apply fetches_own_nil|done].
  - split; [|done]. by apply loads_staged_none.
Qed.

(** Only the callback of a fetch that reports no error and a non-empty
    path changes the path of a descriptor, and to that path. *)
Lemma object_step_path o i evs dem pdem :
  job_inv o evs dem → prepare_inv o evs pdem →
  desc_path (obj_desc (object_step o i).1) ≠ desc_path (obj_desc o) →
  ∃ err path,
    i = Fetched err path ∧ truthy err = false ∧ truthy path = true
    ∧ desc_path (obj_desc (object_step o i).1) = path.
Proof.
  intros Hjinv Hpinv Hne. pose proof (install_side_steps o i) as Hside.
  destruct i as [[n|]|packageId n|err path|err|err pkg|err|err];
    cbn [object_step] in *;
    try (destruct Hside as (_ & Hdesc & _); by rewrite Hdesc in Hne).
  - by rewrite (prepare_keeps_desc o _ _ _ Hpinv) in Hne.
  - by rewrite (prepare_keeps_desc o _ _ _ Hpinv) in Hne.
  - destruct (install_job_prepare_inv o packageId n _ _ _ Hjinv Hpinv)
      as (_ & Hdesc).
    by rewrite Hdesc in Hne.
  - exists err, path. split; [done|].
    assert (Hdesc : obj_desc (fetched o err path).1 = obj_desc o
                    ∨ obj_desc (fetched o err path).1 =
                        (prepare_fetched (obj_desc o) err path).1).
    { destruct (prepareJob o) as [[|ws|e]|] eqn:Hjob.
      - left. by rewrite fetched_ignored by (by right).
      - right. rewrite (fetched_pending o err path ws Hjob).
        by destruct (prepare_deliver_prepare_side ws
                       (prepare_fetched (obj_desc o) err path).2
                       (set_prepareJob
                          (set_desc o (prepare_fetched (obj_desc o) err path).1)
                          (Resolved (prepare_fetched (obj_desc o) err path).2))
                       []) as (_ & -> & _).
      - right. by rewrite (fetched_resolved o err path e Hjob).
      - left. by rewrite fetched_ignored by (by left). }
    destruct Hdesc as [Hdesc|Hdesc]; rewrite Hdesc in Hne |- *; [done|].
    by apply prepare_fetched_sets.
Qed.

(** The invariants across one input. *)
Lemma object_step_lifecycle o i evs dem pdem :
  lifecycle_inv o evs dem pdem →
  lifecycle_inv (object_step o i).1 (evs ++ (object_step o i).2)
    (dem ++ demand_of i) (pdem ++ prepare_demand_of i)
  ∧ same_package (obj_desc o) (obj_desc (object_step o i).1).
Proof.
  intros (Hjinv & Hpinv & Hsinv).
  destruct (object_step_prepare_inv o i _ _ _ Hjinv Hpinv) as (Hp & Hsame).
  split; [|done]. split; [by apply object_step_inv|]. split; [done|].
  by apply (object_step_stage_inv o i evs dem pdem).
Qed.

(** A session that goes on from a trace is the session from the empty
    trace, appended. *)
Lemma session_from heap tr ins :
  foldl session_step (heap, tr) ins =
    ((session_run heap ins).1, tr ++ (session_run heap ins).2).
Proof.
  induction ins as [|x ins IH] using rev_ind.
  - simpl. by rewrite app_nil_r.
  - rewrite session_run_snoc, foldl_app, IH. cbn [foldl].
    unfold session_step. cbn [fst snd].
    destruct ((session_run heap ins).1 !! x.1) as [ox|]; [|done].
    destruct (object_step ox x.2) as [o' evs]. cbn [fst snd].
    by rewrite app_assoc.
Qed.

Lemma session_run_app heap ins1 ins2 :
  session_run heap (ins1 ++ ins2) =
    ((session_run (session_run heap ins1).1 ins2).1,
     (session_run heap ins1).2 ++ (session_run (session_run heap ins1).1 ins2).2).
Proof.
  unfold session_run at 1. rewrite foldl_app.
  fold (session_run heap ins1).
  destruct (session_run heap ins1) as [h1 tr1]. apply session_from.
Qed.

(** The invariants hold throughout a session that starts in a state in
    which they hold; the descriptor keeps its identity, and its path only
    changes to what a successful fetch reported. *)
Lemma session_lifecycle_from heap d o ins evs0 dem0 pdem0 :
  heap !! d = Some o → lifecycle_inv o evs0 dem0 pdem0 →
  ∃ o', (session_run heap ins).1 !! d = Some o'
        ∧ lifecycle_inv o' (evs0 ++ events_of d (session_run heap ins).2)
            (dem0 ++ demands_of d ins) (pdem0 ++ prepare_demands_of d ins)
        ∧ same_package (obj_desc o) (obj_desc o')
        ∧ (desc_path (obj_desc o') ≠ desc_path (obj_desc o) →
           ∃ err path,
             (d, Fetched err path) ∈ ins ∧ truthy err = false
             ∧ truthy path = true ∧ desc_path (obj_desc o') = path).
Proof.
  intros Hd Hinit. induction ins as [|x ins IH] using rev_ind.
  - exists o. cbn. rewrite !app_nil_r.
    split; [done|]. split; [done|]. split; [apply same_package_refl|done].
  - destruct IH as (o' & Ho' & Hinv & Hsame & Hpath).
    rewrite session_run_snoc, demands_of_snoc, prepare_demands_of_snoc.
    unfold session_step.
    assert (Hkeep : desc_path (obj_desc o') ≠ desc_path (obj_desc o) →
                    ∃ err path,
                      (d, Fetched err path) ∈ ins ++ [x] ∧ truthy err = false
                      ∧ truthy path = true ∧ desc_path (obj_desc o') = path).
    { intros Hne. destruct (Hpath Hne) as (err & path & Hin & ?).
      exists err, path. split; [|done]. apply elem_of_app. by left. }
    destruct ((session_run heap ins).1 !! x.1) as [ox|] eqn:Hx.
    + pose proof (object_step_lifecycle ox x.2) as Hstep.
      pose proof (object_step_path ox x.2) as Hstep'.
      destruct (object_step ox x.2) as [o'' evs]. cbn [fst snd] in *.
      rewrite events_of_app, events_of_tagged.
      destruct (decide (x.1 = d)) as [Heq|Hne].
      * exists o''. rewrite Heq, lookup_insert_eq. split; [done|].
        rewrite Heq, Ho' in Hx. injection Hx as <-.
        destruct (Hstep _ _ _ Hinv) as (Hinv' & Hsame').
        rewrite !app_assoc.
        split; [done|]. split; [by apply (same_package_trans _ (obj_desc o'))|].
        intros Hne.
        destruct (decide (desc_path (obj_desc o'') = desc_path (obj_desc o')))
          as [Hsamepath|Hchanged].
        -- rewrite Hsamepath in Hne |- *. by apply Hkeep.
        -- destruct Hinv as (Hjinv & Hpinv & _).
           destruct (Hstep' _ _ _ Hjinv Hpinv Hchanged)
             as (err & path & Hx2 & ?).
           exists err, path. split; [|done]. apply elem_of_app. right.
           apply list_elem_of_singleton. destruct x as [x1 x2].
           cbn [fst snd] in *. by rewrite Heq, Hx2.
      * exists o'. rewrite lookup_insert_ne by done.
        by rewrite !app_nil_r.
    + exists o'. destruct (decide (x.1 = d)) as [Heq|Hne].
      * rewrite Heq, Ho' in Hx. done.
      * by rewrite !app_nil_r.
Qed.

(** The three invariants hold of every descriptor object throughout a
    session, and the descriptor keeps its identity. *)
Lemma session_lifecycle heap d o ins :
  heap !! d = Some o → fresh o →
  ∃ o', (session_run heap ins).1 !! d = Some o'
        ∧ job_inv o' (events_of d (session_run heap ins).2) (demands_of d ins)
        ∧ prepare_inv o' (events_of d (session_run heap ins).2)
            (prepare_demands_of d ins)
        ∧ stage_inv o' (events_of d (session_run heap ins).2)
        ∧ same_package (obj_desc o) (obj_desc o').
Proof.
  intros Hd Hfresh.
  destruct (session_lifecycle_from heap d o ins [] [] [] Hd (fresh_inv o Hfresh))
    as (o' & Ho' & (Hjinv & Hpinv & Hsinv) & Hsame & _).
  by exists o'.
Qed.



(** X21: prepare is memoized per descriptor: in every session at most
    one fetch is requested for a descriptor, from the descriptor's own
    remote and with the listing it was built from; all callers of
    prepare are called back with one outcome, in the order they called
    once the job is resolved; and none is told success unless the
    descriptor has a local path. *)
Theorem prepare_fetches_once heap ins d o :
  heap !! d = Some o → fresh o →
  let evs := events_of d (session_run heap ins).2 in
  fetches evs ≤ 1
  ∧ fetches_own (obj_desc o) evs
  ∧ (∀ n1 e1 n2 e2,
       (n1, e1) ∈ prepareds evs → (n2, e2) ∈ prepareds evs → e1 = e2)
  ∧ (∀ o' err,
       (session_run heap ins).1 !! d = Some o' →
       prepareJob o' = Some (Resolved err) →
       prepareds evs = map (λ n, (n, err)) (prepare_demands_of d ins))
  ∧ (∀ o' n err,
       (session_run heap ins).1 !! d = Some o' →
       (n, err) ∈ prepareds evs → truthy err = false →
       truthy (desc_path (obj_desc o')) = true).
Proof.
  intros Hd Hfresh evs.
  destruct (session_lifecycle heap d o ins Hd Hfresh)
    as (o' & Ho' & _ & (Hown & Hpinv) & _ & Hsame).
  fold evs in Hown, Hpinv. destruct Hsame as (_ & _ & _ & Hrem & Hinfo & _).
  assert (Hown' : fetches_own (obj_desc o) evs).
  { intros r i Hin. destruct (Hown r i Hin) as (? & ?).
    rewrite <- Hrem, <- Hinfo. by split. }
  destruct (prepareJob o') as [[|ws|e]|] eqn:Hjob; [done| | |].
  - destruct Hpinv as (Hf & Hp & _). rewrite Hf, Hp.
    split; [lia|]. split; [done|]. split; [|split].
    + intros n1 e1 n2 e2 Hin. by apply elem_of_nil in Hin.
    + intros o2 err Ho2. rewrite Ho' in Ho2. injection Ho2 as <-.
      by rewrite Hjob.
    + intros o2 n err _ Hin. by apply elem_of_nil in Hin.
  - destruct Hpinv as (Hf & Hp & Hpath). rewrite Hp.
    split; [done|]. split; [done|]. split; [|split].
    + intros n1 e1 n2 e2 H1 H2.
      apply list_elem_of_fmap in H1 as (? & [= _ ->] & _).
      by apply list_elem_of_fmap in H2 as (? & [= _ ->] & _).
    + intros o2 err Ho2. rewrite Ho' in Ho2. injection Ho2 as <-.
      rewrite Hjob. by intros [= ->].
    + intros o2 n err Ho2 Hin Herr. rewrite Ho' in Ho2. injection Ho2 as <-.
      apply list_elem_of_fmap in Hin as (? & [= _ ->] & _). by apply Hpath.
  - destruct Hpinv as (Hf & Hp & _). rewrite Hf, Hp.
    split; [lia|]. split; [done|]. split; [|split].
    + intros n1 e1 n2 e2 Hin. by apply elem_of_nil in Hin.
    + intros o2 err Ho2. rewrite Ho' in Ho2. injection Ho2 as <-.
      by rewrite Hjob.
    + intros o2 n err _ Hin. by apply elem_of_nil in Hin.
Qed.

(** X22: between any two points of a session nothing changes what a
    descriptor describes: its name, version, dependencies, remote,
    listing and origin stay as they were built; a descriptor that has a
    non-empty local path never goes back to having none; and the path
    only changes through a callback of the fetch that reports no error
    and a non-empty path, which is then the path of the descriptor (the
    callback assigns it whether or not the prepare job is resolved
    already). *)
Theorem descriptor_identity_kept heap ins1 ins2 d o o1 o2 :
  heap !! d = Some o → fresh o →
  (session_run heap ins1).1 !! d = Some o1 →
  (session_run heap (ins1 ++ ins2)).1 !! d = Some o2 →
  same_package (obj_desc o1) (obj_desc o2)
  ∧ (desc_path (obj_desc o2) ≠ desc_path (obj_desc o1) →
     ∃ err path,
       (d, Fetched err path) ∈ ins2 ∧ truthy err = false
       ∧ truthy path = true ∧ desc_path (obj_desc o2) = path).
Proof.
  intros Hd Hfresh Ho1 Ho2.
  destruct (session_lifecycle_from heap d o ins1 [] [] [] Hd
              (fresh_inv o Hfresh)) as (o1' & Ho1' & Hinv & _).
  rewrite Ho1 in Ho1'. injection Ho1' as <-.
  rewrite session_run_app in Ho2. cbn [fst] in Ho2.
  destruct (session_lifecycle_from _ d o1 ins2 _ _ _ Ho1 Hinv)
    as (o2' & Ho2' & _ & Hsame & Hpath).
  rewrite Ho2 in Ho2'. injection Ho2' as <-. by split.
Qed.

(** *** Completion of the install job *)




















End LifecycleProperties.

(** * Instances

    The collaborators of the concrete instance meet the assumptions, and
    the properties above are applied to it. *)

Lemma demo_order : @SemverOrder demo_semver.
Proof. split; simpl; intros; lia. Qed.

(** C3 (evaluation at the failing input): with the preference unset,
    [installDependencies] on a remote-origin descriptor that declares a
    dependency launches no install on that very call, although it records
    the default [true]; only a later call in the session installs the
    dependency. *)
Theorem installDependencies_skips_first_remote :
  let desc := @buildDescriptorFromRemote demo_semver foo_1_2_0 1 in
  includeDependencies demo_context = None
  ∧ desc_location desc = Remote
  ∧ installDependencies demo_context desc =
      (set_includeDependencies demo_context (Some true), None)
  ∧ (installDependencies (set_includeDependencies demo_context (Some true))
       desc).2 =
      Some [ {| call_packageId := "bar"; call_version := Some "1.0.0";
                call_exact := false; call_force := ArgBool false;
                call_done := Some 0 |} ].
Proof. done. Qed.

(** C4 (evaluation at the failing input): on a valid command line with an
    install location, [invoke] signals success by the time it returns,
    having only asked for the remotes and launched no install; the
    callback of the chain signals the outcome of the installs as well, so
    the completion callback is signalled twice. *)
Theorem invoke_signals_twice :
  @invoke demo_platform demo_state [false; true] =
    ([IvRemotes; IvDone None], Some 1)
  ∧ completions (@invoke demo_platform demo_state [false; true]).1 = [None]
  ∧ ∀ err, completions (invoke_completed err) = [err].
Proof. done. Qed.

(** C5 (evaluation at the failing input): the cache holds [foo] in
    versions 1.0.0 and 1.2.0; no cached descriptor qualifies for the exact
    constraint 2.0.0, and [descriptorFor] returns [undefined], not the
    [null] that its comment and line 87 give for a descriptor that is not
    found. *)
Theorem descriptorFor_returns_undefined :
  (∀ cur, cur ∈ default [] (descriptors demo_cache !! "foo") →
          @qualifies demo_semver (Some "2.0.0") true cur = false)
  ∧ @descriptorFor demo_semver demo_cache "foo" (Some "2.0.0") true
    = Some LUndefined
  ∧ @descriptorFor demo_semver demo_cache "foo" (Some "2.0.0") true
    ≠ Some LNull.
Proof.
  split; [|done].
  intros cur Hcur. vm_compute in Hcur.
  apply elem_of_cons in Hcur as [->|Hcur]; [done|].
  apply list_elem_of_singleton in Hcur as ->. done.
Qed.

(** Without a constraint the selection on that cache is [foo] 1.2.0. *)
Lemma descriptorFor_selection_witness :
  ∃ d, @descriptorFor demo_semver demo_cache "foo" None false
       = Some (LFound d)
       ∧ desc_version d = "1.2.0".
Proof.
  destruct (@descriptorFor_selection demo_semver demo_order demo_cache "foo")
    as (Hhighest & _).
  destruct (Hhighest None false
              [demo_descriptor;
               @buildDescriptorFromRemote demo_semver foo_1_2_0 1])
    as (d & Hd & _ & _); [reflexivity|reflexivity|discriminate|].
  exists d. split; [exact Hd|].
  vm_compute in Hd. injection Hd as <-. reflexivity.
Defined.

(** C7 (counterexample): the remote fails to fetch [foo] 1.0.0; the error
    reported by [prepare] is the one of the remote, which names neither
    the package id nor the version. *)
Lemma prepare_forwards_fetch_error :
  let o := set_prepareJob (new_object demo_descriptor) (Pending [CbCaller 0]) in
  fetched o (Some "connection refused") None =
    (set_prepareJob o (Resolved (Some "connection refused")),
     [EvPrepared 0 (Some "connection refused")])
  ∧ names_package "connection refused" demo_descriptor = false.
Proof. done. Qed.

(** Preparing a descriptor listed by remote 1 asks that remote to fetch
    it. *)
Lemma prepare_outcomes_witness :
  @prepare demo_platform (new_object demo_descriptor) (CbCaller 0) =
    (set_prepareJob (new_object demo_descriptor) (Pending [CbCaller 0]),
     [EvFetch 1 (Some foo_1_0_0)]).
Proof.
  destruct (@prepare_outcomes demo_platform (new_object demo_descriptor) 0
              eq_refl) as (_ & Hfetch).
  destruct (Hfetch 1 eq_refl eq_refl) as (Hp & _). exact Hp.
Defined.


(** Resolution of [foo] on the concrete remotes: the first remote fails,
    the second satisfies the request, the third is never asked. *)
Example findDescriptor_stops_at_second_remote :
  (λ out, (list_queries out.2, found out.1.2.2)) <$>
    @findDescriptor demo_semver demo_platform demo_context "foo" None false
  = Some ([0; 1], true).
Proof. vm_compute. reflexivity. Qed.

(** ** The further properties on the concrete instance *)

(** The cache of the instance holds [foo] in two versions; without a
    constraint the selection is 1.2.0, which qualifies. *)
Lemma descriptorFor_sound_witness :
  let d := @buildDescriptorFromRemote demo_semver foo_1_2_0 1 in
  @descriptorFor demo_semver demo_cache "foo" None false = Some (LFound d)
  ∧ @qualifies demo_semver None false d = true.
Proof.
  intros d. split; [reflexivity|].
  destruct (@descriptorFor_sound demo_semver demo_cache "foo" None false d)
    as (_ & Hq & _); [reflexivity|exact Hq].
Defined.

Lemma descriptorFor_first_highest_witness :
  let l := [demo_descriptor;
            @buildDescriptorFromRemote demo_semver foo_1_2_0 1] in
  ∃ i d, @descriptorFor demo_semver demo_cache "foo" (Some "1.0.0") false
           = Some (LFound d)
         ∧ @first_highest demo_semver (Some "1.0.0") false l i d.
Proof.
  intros l.
  apply (@descriptorFor_first_highest demo_semver demo_order demo_cache "foo"
           (Some "1.0.0") false l).
  - reflexivity.
  - intros cur Hcur Hc.
    apply elem_of_cons in Hcur as [->|Hcur]; [vm_compute in Hc; discriminate|].
    apply elem_of_cons in Hcur as [->|Hcur]; [vm_compute in Hc; discriminate|].
    by apply elem_of_nil in Hcur.
  - exists demo_descriptor. split; [apply elem_of_cons; by left|reflexivity].
Defined.

Lemma descriptorFor_exact_last_witness :
  let l := [demo_descriptor;
            @buildDescriptorFromRemote demo_semver foo_1_2_0 1] in
  ∃ i d, @descriptorFor demo_semver demo_cache "foo" (Some "1.0.0") true
           = Some (LFound d)
         ∧ l !! i = Some d ∧ desc_version d = "1.0.0"
         ∧ ∀ j d', i < j → l !! j = Some d' → desc_version d' ≠ "1.0.0".
Proof.
  intros l.
  apply (@descriptorFor_exact_last demo_semver demo_cache "foo" "1.0.0" l).
  - discriminate.
  - reflexivity.
  - exists demo_descriptor. split; [apply elem_of_cons; by left|reflexivity].
Defined.

(** Inserting [foo] 1.0.0 into a cache that already holds it, and looking
    it up; inserting a package that a remote lists under the name
    [toString]. *)
Lemma addDescriptor_then_descriptorFor_witness :
  let odd :=
    @buildDescriptorFromRemote demo_semver
      {| pi_name := "toString"; pi_version := "1.0.0";
         pi_dependencies := None |} 1 in
  (∃ b ctx',
     addDescriptor demo_cache demo_descriptor false = Some (b, ctx') ∧
     @descriptorFor demo_semver ctx' "foo" (Some "1.0.0") true
     = Some (LFound demo_descriptor))
  ∧ addDescriptor demo_cache odd false = None.
Proof.
  intros odd. split.
  - apply (@addDescriptor_then_descriptorFor demo_semver demo_cache
             demo_descriptor false); [discriminate|reflexivity].
  - apply (@addDescriptor_then_descriptorFor demo_semver demo_cache odd false);
      [discriminate|reflexivity].
Defined.

(** Resolving [foo] on an empty cache: the first remote fails, the second
    lists two versions. *)
Lemma findDescriptor_effects_witness :
  ∃ ctx' res evs n,
    @findDescriptor demo_semver demo_platform demo_context "foo" None false =
      Some (ctx', res, evs)
    ∧ evs = concat (visit_events (findDescriptor_opts "foo" None false)
                      <$> take n (indexed 0 demo_remotes))
    ∧ n ≤ 3.
Proof.
  destruct (@findDescriptor demo_semver demo_platform demo_context "foo" None
              false) as [[[ctx' res] evs]|] eqn:Hrun;
    [|vm_compute in Hrun; discriminate].
  destruct (@findDescriptor_effects demo_semver demo_platform demo_context
              "foo" None false) as (Hrunning & _).
  destruct (Hrunning LNull ctx' res evs eq_refl eq_refl Hrun)
    as (n & _ & Hn & Hevs & _).
  by exists ctx', res, evs, n.
Defined.

Lemma findDescriptor_fetches_listed_witness :
  ∃ ctx' res evs,
    @findDescriptor demo_semver demo_platform demo_context "foo" None false =
      Some (ctx', res, evs)
    ∧ EvFetch 1 (Some foo_1_2_0) ∈ evs.
Proof.
  destruct (@findDescriptor demo_semver demo_platform demo_context "foo" None
              false) as [[[ctx' res] evs]|] eqn:Hrun;
    [|vm_compute in Hrun; discriminate].
  exists ctx', res, evs. split; [reflexivity|].
  apply (@findDescriptor_fetches_listed demo_semver demo_platform
           demo_context "foo" None false ctx' res evs 1 (Some foo_1_2_0) Hrun).
  vm_compute in Hrun. injection Hrun as <- <- <-. split.
  - apply elem_of_cons. right. apply elem_of_cons. by left.
  - eexists _, _, foo_1_2_0. split; [reflexivity|]. split; [reflexivity|].
    split; [reflexivity|]. split; [|reflexivity].
    apply elem_of_cons. right. apply elem_of_cons. by left.
Defined.

Lemma findDescriptor_queries_witness :
  ∃ ctx' res evs,
    @findDescriptor demo_semver demo_platform demo_context "foo" None true =
      Some (ctx', res, evs)
    ∧ EvList 0 (findDescriptor_opts "foo" None true) ∈ evs
    ∧ q_exact (findDescriptor_opts "foo" None true) = "false".
Proof.
  destruct (@findDescriptor demo_semver demo_platform demo_context "foo" None
              true) as [[[ctx' res] evs]|] eqn:Hrun;
    [|vm_compute in Hrun; discriminate].
  exists ctx', res, evs. split; [reflexivity|].
  assert (Hin : EvList 0 (findDescriptor_opts "foo" None true) ∈ evs).
  { vm_compute in Hrun. injection Hrun as <- <- <-.
    apply elem_of_cons. by left. }
  split; [exact Hin|].
  by destruct (@findDescriptor_queries demo_semver demo_platform demo_context
                 "foo" None true ctx' res evs 0 _ Hrun Hin) as (_ & _ & ?).
Defined.

(** Installing [foo] by name on the cache of the instance. *)
Lemma install_extends_cache_witness :
  ∃ ctx' evs next done',
    @install demo_semver demo_platform demo_cache "bar" None true
      (ArgFunction 0) None = Some (ctx', evs, next, done')
    ∧ cache_extends demo_cache ctx'.
Proof.
  destruct (@install demo_semver demo_platform demo_cache "bar" None true
              (ArgFunction 0) None) as [[[[ctx' evs] next] done']|] eqn:Hrun;
    [|vm_compute in Hrun; discriminate].
  exists ctx', evs, next, done'. split; [reflexivity|].
  exact (@install_extends_cache demo_semver demo_platform demo_cache "bar"
           None true (ArgFunction 0) None ctx' evs next done' Hrun).
Defined.

Lemma install_keeps_well_keyed_witness :
  ∃ ctx' evs next done',
    @install demo_semver demo_platform demo_cache "bar" None true
      (ArgFunction 0) None = Some (ctx', evs, next, done')
    ∧ well_keyed ctx'.
Proof.
  destruct (@install demo_semver demo_platform demo_cache "bar" None true
              (ArgFunction 0) None) as [[[[ctx' evs] next] done']|] eqn:Hrun;
    [|vm_compute in Hrun; discriminate].
  exists ctx', evs, next, done'. split; [reflexivity|].
  apply (@install_keeps_well_keyed demo_semver demo_platform demo_cache
           "bar" None true (ArgFunction 0) None ctx' evs next done');
    [|exact Hrun].
  intros packageId l d Hl Hd. simpl in Hl.
  apply lookup_singleton_Some in Hl as [<- <-].
  apply elem_of_cons in Hd as [->|Hd]; [reflexivity|].
  apply list_elem_of_singleton in Hd as ->. reflexivity.
Defined.

Lemma install_demand_cached_witness :
  ∃ ctx' evs desc done',
    @install demo_semver demo_platform demo_context "./foo" None true
      (ArgFunction 0) None = Some (ctx', evs, Demand desc, done')
    ∧ desc_location desc = Local ∧ desc_remote desc = None.
Proof.
  destruct (@install demo_semver demo_platform demo_context "./foo" None true
              (ArgFunction 0) None) as [[[[ctx' evs] next] done']|] eqn:Hrun;
    [|vm_compute in Hrun; discriminate].
  destruct next as [err|msg|desc];
    [vm_compute in Hrun; discriminate|vm_compute in Hrun; discriminate|].
  exists ctx', evs, desc, done'. split; [reflexivity|].
  destruct (@install_demand_cached demo_semver demo_platform demo_context
              "./foo" None true (ArgFunction 0) None ctx' evs desc done' Hrun)
    as (_ & Hpath).
  destruct (Hpath eq_refl) as (_ & Hloc & Hrem). by split.
Defined.

(** A package that the only remote, which is unreachable, cannot offer. *)
Lemma install_reports_not_found_witness :
  ∃ evs,
    @install demo_semver demo_platform (init 0 (take 1 demo_remotes) None)
      "foo" None true (ArgFunction 0) None =
      Some (init 0 (take 1 demo_remotes) None, evs,
            NotFound "foo not found", Some 0)
    ∧ list_queries evs = [0] ∧ fetches evs = 0.
Proof.
  apply (@install_reports_not_found demo_semver demo_platform
           (init 0 (take 1 demo_remotes) None) "foo" None true
           (ArgFunction 0) None LNull).
  - reflexivity.
  - reflexivity.
  - reflexivity.
  - intros rem Hrem. apply list_elem_of_singleton in Hrem as ->. by left.
Defined.

(** With the preference set, the dependency of [foo] 1.2.0 is
    installed. *)
Lemma installDependencies_launches_witness :
  let ctx := set_includeDependencies demo_context (Some true) in
  let desc := @buildDescriptorFromRemote demo_semver foo_1_2_0 1 in
  ∃ calls,
    (installDependencies ctx desc).2 = Some calls
    ∧ (λ c, (call_packageId c, call_version c)) <$> calls =
        [("bar", Some "1.0.0")].
Proof.
  intros ctx desc.
  destruct (installDependencies ctx desc).2
    as [calls|] eqn:Hrun; [|vm_compute in Hrun; discriminate].
  exists calls. split; [reflexivity|].
  by destruct (installDependencies_launches ctx
                 desc calls Hrun) as (-> & _).
Defined.

(** With the preference unset, a local descriptor first: the dependency
    of the remote descriptor that follows is not installed. *)
Lemma installDependencies_first_decides_witness :
  let local := @buildDescriptorFromPackage demo_semver demo_package in
  let desc := @buildDescriptorFromRemote demo_semver foo_1_2_0 1 in
  installDependencies_each demo_context
    [local; desc] =
    (set_includeDependencies demo_context (Some false), [None; None]).
Proof.
  intros local desc.
  destruct (installDependencies_first_decides
              demo_context local [desc] eq_refl) as (-> & _).
  reflexivity.
Defined.




Lemma prepare_fetches_once_witness :
  let heap : gmap nat object := {[ 0 := new_object demo_descriptor ]} in
  let ins :=
    [ (0, CallPrepare (Some 7)); (0, CallInstall "foo" 1);
      (0, CallPrepare (Some 8)); (0, Fetched None (Some "/tmp/foo"));
      (0, CallPrepare (Some 9)) ] in
  fetches (events_of 0 (@session_run demo_platform heap ins).2) ≤ 1.
Proof.
  intros heap ins.
  destruct (@prepare_fetches_once demo_platform heap ins 0
              (new_object demo_descriptor)) as (Hf & _).
  - reflexivity.
  - repeat split.
  - exact Hf.
Defined.

Lemma descriptor_identity_kept_witness :
  let heap : gmap nat object := {[ 0 := new_object demo_descriptor ]} in
  let ins1 := [ (0, CallPrepare (Some 7)); (0, Fetched None (Some "/tmp/foo")) ] in
  let ins2 := [ (0, CallInstall "foo" 1); (0, Fetched None (Some "/tmp/other")) ] in
  ∃ o1 o2,
    (@session_run demo_platform heap ins1).1 !! 0 = Some o1
    ∧ (@session_run demo_platform heap (ins1 ++ ins2)).1 !! 0 = Some o2
    ∧ desc_path (obj_desc o1) = Some "/tmp/foo"
    ∧ desc_path (obj_desc o2) = Some "/tmp/other"
    ∧ same_package (obj_desc o1) (obj_desc o2).
Proof.
  intros heap ins1 ins2.
  destruct ((@session_run demo_platform heap ins1).1 !! 0) as [o1|] eqn:Hrun1;
    [|vm_compute in Hrun1; discriminate].
  destruct ((@session_run demo_platform heap (ins1 ++ ins2)).1 !! 0)
    as [o2|] eqn:Hrun2; [|vm_compute in Hrun2; discriminate].
  exists o1, o2. split; [reflexivity|]. split; [reflexivity|].
  split; [vm_compute in Hrun1; by injection Hrun1 as <-|].
  split; [vm_compute in Hrun2; by injection Hrun2 as <-|].
  destruct (@descriptor_identity_kept demo_platform heap ins1 ins2 0
              (new_object demo_descriptor) o1 o2) as (Hsame & _);
    [reflexivity|repeat split|exact Hrun1|exact Hrun2|exact Hsame].
Defined.
